(** * Txrep: the textual codec of stc, embedded and verified

    The development follows the Go sources of the repository:
    - [stcdetail/txrep.go] (generation and parsing of Txrep),
    - [stx/txrep.go] (the older renderer with [renderCode]/[scanCode]).

    Go strings are modelled as [string] (sequences of bytes), Go integers
    as [Z] with their wrap-around written out, Go maps as [gmap]. *)

From Stdlib Require Import ZArith Ascii.
From stdpp Require Import gmap strings list fin_maps sorting.

Local Open Scope Z_scope.
Set Warnings "-register-all,-clear-no-such-hyp".

(** ** Strings *)

Module Str.

Abbreviation chars := String.list_ascii_of_string.
Abbreviation of_chars := String.string_of_list_ascii.

Lemma app_cons (c : ascii) (s t : string) :
  String c s +:+ t = String c (s +:+ t).
Proof. reflexivity. Qed.

Lemma app_nil_l (s : string) : "" +:+ s = s.
Proof. reflexivity. Qed.

Lemma chars_app (s t : string) : chars (s +:+ t) = chars s ++ chars t.
Proof.
  induction s as [|c s IH]; [done|]. rewrite app_cons. simpl. by rewrite IH.
Qed.

Lemma of_chars_app (l k : list ascii) :
  of_chars (l ++ k) = of_chars l +:+ of_chars k.
Proof.
  induction l as [|c l IH]; [done|]. simpl. by rewrite app_cons, IH.
Qed.

Lemma chars_inj (s t : string) : chars s = chars t → s = t.
Proof.
  intros H. rewrite <- (String.string_of_list_ascii_of_string s),
    <- (String.string_of_list_ascii_of_string t). by rewrite H.
Qed.

Lemma app_assoc (s t u : string) : s +:+ t +:+ u = (s +:+ t) +:+ u.
Proof. apply chars_inj. rewrite !chars_app. apply app_assoc. Qed.

Lemma app_nil_r (s : string) : s +:+ "" = s.
Proof. induction s as [|c s IH]; [done|]. by rewrite app_cons, IH. Qed.

Lemma length_app (s t : string) :
  String.length (s +:+ t) = (String.length s + String.length t)%nat.
Proof.
  induction s as [|c s IH]; [done|]. rewrite app_cons. simpl. by rewrite IH.
Qed.

Lemma length_chars (s : string) : length (chars s) = String.length s.
Proof. induction s as [|c s IH]; simpl; [done|]. by rewrite IH. Qed.

(** [out != ""] *)
Definition is_empty (s : string) : bool :=
  match s with "" => true | _ => false end.

(** [strings.Repeat] *)
Fixpoint Repeat (s : string) (n : nat) : string :=
  match n with O => "" | S n => s +:+ Repeat s n end.

(** [strings.HasPrefix] *)
Fixpoint HasPrefix (s p : string) {struct p} : bool :=
  match p, s with
  | "", _ => true
  | String a p', String b s' => if decide (a = b) then HasPrefix s' p' else false
  | String _ _, "" => false
  end.

Definition reverse (s : string) : string := of_chars (rev (chars s)).

(** [strings.HasSuffix] *)
Definition HasSuffix (s p : string) : bool :=
  HasPrefix (reverse s) (reverse p).

(** [s[:n]] for [0 <= n <= len(s)] *)
Fixpoint take (n : nat) (s : string) : string :=
  match n, s with
  | S n, String c s => String c (take n s)
  | _, _ => ""
  end.

(** [s[n:]], and the empty string when [s] is shorter *)
Fixpoint drop (n : nat) (s : string) : string :=
  match n, s with
  | S n, String _ s => drop n s
  | _, _ => s
  end.

(** [strings.TrimRight(s, string(c))] for a one-character cutset. *)
Fixpoint TrimRight (s : string) (c : ascii) : string :=
  match s with
  | "" => ""
  | String a s' =>
      match TrimRight s' c with
      | "" => if decide (a = c) then "" else String a ""
      | t => String a t
      end
  end.

Lemma HasPrefix_spec (s p : string) :
  HasPrefix s p = true ↔ ∃ t, s = p +:+ t.
Proof.
  revert s. induction p as [|a p IH]; intros s; simpl.
  - split; [by exists s|done].
  - destruct s as [|b s].
    + split; [done|]. by intros [t ?].
    + case_decide as Hab.
      * subst b. rewrite IH.
        split; intros [t Ht]; exists t; rewrite ?app_cons in *; congruence.
      * split; [done|]. intros [t Ht]. rewrite app_cons in Ht. congruence.
Qed.

End Str.

(** ** Machine integers *)

Definition uint64 (z : Z) : Z := z mod 2 ^ 64.
Definition int64 (z : Z) : Z := (z + 2 ^ 63) mod 2 ^ 64 - 2 ^ 63.

Definition is_int64 (z : Z) : Prop := - 2 ^ 63 <= z < 2 ^ 63.

(** ** The formatting verbs of Go's [fmt] that the code uses *)

Module Fmt.

Definition digit (n : Z) : ascii := ascii_of_N (48 + Z.to_N n).

(** The decimal digits of a non-negative number, most significant first. *)
Fixpoint udec (fuel : nat) (n : Z) : string :=
  match fuel with
  | O => ""
  | S fuel =>
      if n <? 10 then String (digit n) ""
      else udec fuel (n / 10) +:+ String (digit (n mod 10)) ""
  end.

(** [Sprintf("%d", n)] *)
Definition d (n : Z) : string :=
  if n <? 0 then "-" +:+ udec (S (Z.to_nat (Z.log2 (- n)))) (- n)
  else udec (S (Z.to_nat (Z.log2 n))) n.

(** Left padding with zeros up to width [w]. *)
Definition zpad (w : nat) (s : string) : string :=
  Str.Repeat "0" (w - String.length s) +:+ s.

(** [Sprintf("%0*d", w, n)] for [n >= 0]. *)
Definition d0 (w : nat) (n : Z) : string := zpad w (d n).

End Fmt.

(** ** [ScaleFmt] (stcdetail/txrep.go) *)

(** The table filled by [init]: [val] starts at 1 and is multiplied by 10
    in uint64 arithmetic at every step. *)
Fixpoint exp10_init (n : nat) (val : Z) : list Z :=
  match n with
  | O => []
  | S n => val :: exp10_init n (uint64 (val * 10))
  end.

Definition exp10 : list Z := exp10_init 20 1.

(** The loop [for tmag := mag / unit; ; tmag /= 1000]. [None] stands for an
    exhausted fuel, which does not happen (see [ScaleFmt_loop_fuel]). *)
Fixpoint ScaleFmt_loop (fuel : nat) (tmag : Z) (out : string) : option string :=
  let out := if Str.is_empty out then out else "," +:+ out in
  if tmag <? 1000 then Some (Fmt.d tmag +:+ out)
  else
    match fuel with
    | O => None
    | S fuel =>
        ScaleFmt_loop fuel (tmag / 1000) (Fmt.d0 3 (tmag mod 1000) +:+ out)
    end.

(** [ScaleFmt val exp]; [None] is the run-time panic of an index out of the
    range of [exp10]. *)
Definition ScaleFmt (val : Z) (exp : Z) : option string :=
  let mag := if val <? 0 then uint64 (int64 (- val)) else uint64 val in
  if (exp <? 0) || (20 <=? exp) then None
  else
    unit ← exp10 !! Z.to_nat exp;
    out ← ScaleFmt_loop (S (Z.to_nat (Z.log2 (mag / unit)))) (mag / unit) "";
    let out := if val <? 0 then "-" +:+ out else out in
    let mag := mag mod unit in
    let out :=
      if 0 <? mag
      then out +:+ Str.TrimRight ("." +:+ Fmt.d0 (Z.to_nat exp) mag) "0"
      else out in
    Some (out +:+ "e" +:+ Fmt.d exp).


(** The rendering of a scaled amount as section 4.2 of the specification
    words it, to be compared with [ScaleFmt]. *)
Module ScaleSpec.

(** A comma every three digits, counted from the least significant digit;
    [k] digits have been emitted since the last comma. *)
Fixpoint commas_from_right (k : nat) (rdigits : list ascii) : list ascii :=
  match rdigits with
  | [] => []
  | c :: r =>
      if decide (k = 3%nat) then ","%char :: c :: commas_from_right 1 r
      else c :: commas_from_right (S k) r
  end.

Definition group3 (s : string) : string :=
  Str.of_chars (rev (commas_from_right 0 (rev (Str.chars s)))).

Definition renderScaled (value exponent : Z) : string :=
  let ipart := Z.abs (value ÷ 10 ^ exponent) in
  let fpart := Z.abs (Z.rem value (10 ^ exponent)) in
  (if value <? 0 then "-" else "") +:+
  group3 (Fmt.d ipart) +:+
  (if fpart =? 0 then ""
   else "." +:+ Str.TrimRight (Fmt.d0 (Z.to_nat exponent) fpart) "0") +:+
  "e" +:+ Fmt.d exponent.

End ScaleSpec.

(** ** Bytes, runes and readers *)

(** A Go [byte] is an 8-bit character. *)
Abbreviation byte := ascii.

Definition byte_of_Z (z : Z) : byte := ascii_of_N (Z.to_N (z mod 256)).
Definition Z_of_byte (b : byte) : Z := Z.of_N (N_of_ascii b).

(** The errors that the modelled code returns or stores. *)
Inductive error : Type :=
  | EOF                              (* io.EOF *)
  | StrKeyError (msg : string)       (* stx.StrKeyError *)
  | ScanError (msg : string).        (* an error of the fmt scanner *)

Global Instance error_eq_dec : EqDecision error.
Proof. solve_decision. Defined.

(** [err.Error()] *)
Definition error_text (e : error) : string :=
  match e with
  | EOF => "EOF"
  | StrKeyError msg | ScanError msg => msg
  end.

(** A [strings.Reader] is the sequence of runes still to be read; for the
    ASCII text of a Txrep file these are its bytes. *)
Definition rune := Z.
Definition Reader := list rune.

Definition runes (s : string) : Reader := Z_of_byte <$> Str.chars s.

(** [ReadRune]: at the end of the input the rune is 0 and the error is
    [io.EOF]. *)
Definition ReadRune (ss : Reader) : rune * option error * Reader :=
  match ss with
  | [] => (0, Some EOF, [])
  | r :: ss' => (r, None, ss')
  end.

(** [unicode.IsSpace] *)
Definition IsSpace (r : rune) : bool :=
  bool_decide (9 <= r <= 13) || bool_decide (r = 32)
  || bool_decide (r = 0x85) || bool_decide (r = 0xA0)
  || bool_decide (r = 0x1680) || bool_decide (0x2000 <= r <= 0x200a)
  || bool_decide (r = 0x2028) || bool_decide (r = 0x2029)
  || bool_decide (r = 0x202f) || bool_decide (r = 0x205f)
  || bool_decide (r = 0x3000).

Definition hexval (r : rune) : option Z :=
  if bool_decide (48 <= r <= 57) then Some (r - 48)
  else if bool_decide (97 <= r <= 102) then Some (r - 87)
  else if bool_decide (65 <= r <= 70) then Some (r - 55)
  else None.

(** [fmt.Fscanf(ss, "%02x", &b)]: blanks are skipped (a newline is an
    error), then one or two hexadecimal digits are read. The byte is
    assigned only on success. *)
Fixpoint Fscanf_02x (ss : Reader) : option byte * option error * Reader :=
  match ss with
  | [] => (None, Some EOF, [])
  | r :: ss' =>
      if bool_decide (r = 10) then
        (None, Some (ScanError "unexpected newline"), ss')
      else if IsSpace r then Fscanf_02x ss'
      else
        match hexval r with
        | None => (None, Some (ScanError "expected integer"), ss)
        | Some h =>
            match ss' with
            | r2 :: ss'' =>
                match hexval r2 with
                | Some l => (Some (byte_of_Z (16 * h + l)), None, ss'')
                | None => (Some (byte_of_Z h), None, ss')
                end
            | [] => (Some (byte_of_Z h), None, ss')
            end
        end
  end.

(** ** [renderCode] and [scanCode] (stx/txrep.go) *)

Module Code.

Definition hexdigit (n : Z) : ascii :=
  if n <? 10 then ascii_of_N (48 + Z.to_N n) else ascii_of_N (87 + Z.to_N n).

(** [fmt.Sprintf("%02x", b)] *)
Definition x02 (b : byte) : string :=
  String (hexdigit (Z_of_byte b / 16)) (String (hexdigit (Z_of_byte b mod 16)) "").

Definition renderByte (b : byte) : string :=
  if (Z_of_byte b <=? 32) || (0x7f <=? Z_of_byte b) then "\x" +:+ x02 b
  else if bool_decide (b = "\"%char) then "\" +:+ String b ""
  else String b "".

(** The first loop finds the length [n] without the trailing zero bytes;
    here it drops them. *)
Fixpoint drop_trailing_zeros (bs : list byte) : list byte :=
  match bs with
  | [] => []
  | b :: bs' =>
      match drop_trailing_zeros bs' with
      | [] => if bool_decide (b = zero) then [] else [b]
      | t => b :: t
      end
  end.

Definition renderCode (bs : list byte) : string :=
  foldr (λ b acc, renderByte b +:+ acc) "" (drop_trailing_zeros bs).

(** The label [skipspace]. *)
Fixpoint skipspace (ss : Reader) : Reader :=
  match ss with
  | [] => []
  | r :: ss' => if IsSpace r then skipspace ss' else ss
  end.

(** How the first [for] loop of [scanCode] is left: by a [return err], or
    by [break] or the loop condition, with the value of [err] then. *)
Inductive loop_exit : Type :=
  | Return (e : error)
  | Break (err : option error).

(** The first loop. [out] is the part of the buffer from index [i] on;
    the result is this part as written so far, followed by the bytes that
    were not reached. *)
Fixpoint scan_loop (out : list byte) (ss : Reader)
  : list byte * list byte * Reader * loop_exit :=
  match out with
  | [] => ([], [], ss, Break None)
  | o :: out' =>
      let '(r, err, ss1) := ReadRune ss in
      if bool_decide (err = Some EOF) || IsSpace r then
        ([], out, ss1, Break err)
      else if (r <=? 32) || (127 <=? r) then
        ([], out, ss1, Break (Some (StrKeyError "Invalid character in AssetCode")))
      else if negb (bool_decide (r = 92)) then
        let '(w, rest, ss', e) := scan_loop out' ss1 in
        (byte_of_Z r :: w, rest, ss', e)
      else
        let '(r, err, ss2) := ReadRune ss1 in
        match err with
        | Some e => ([], out, ss2, Return e)
        | None =>
            if negb (bool_decide (r = 120)) then
              let '(w, rest, ss', e) := scan_loop out' ss2 in
              (byte_of_Z r :: w, rest, ss', e)
            else
              match Fscanf_02x ss2 with
              | (_, Some e, ss3) => ([], out, ss3, Return e)
              | (None, None, ss3) => ([], out, ss3, Return (ScanError ""))
              | (Some b, None, ss3) =>
                  let '(w, rest, ss', e) := scan_loop out' ss3 in
                  (b :: w, rest, ss', e)
              end
        end
  end.

(** [scanCode(out, input)]: the buffer after the call and the returned
    error ([None] is [nil]). *)
Definition scanCode (out : list byte) (input : Reader)
  : list byte * option error :=
  let ss := skipspace input in
  let '(w, rest, ss, e) := scan_loop out ss in
  match e with
  | Return err => (w ++ rest, Some err)
  | Break _ =>
      let out := w ++ (const zero <$> rest) in
      let '(r, err, _) := ReadRune ss in
      if negb (bool_decide (err = Some EOF)) && negb (IsSpace r)
      then (out, Some (StrKeyError "AssetCode too long"))
      else (out, None)
  end.

End Code.

(** ** UTF-8, as the readers of Go decode it *)

Module Utf8.

(** [utf8.RuneError] *)
Definition RuneError : rune := 0xFFFD.

Definition in_range (lo hi : Z) (b : byte) : bool :=
  (lo <=? Z_of_byte b) && (Z_of_byte b <=? hi).

(** The table [first] of the library: the width that the first byte of
    an encoding announces (0 for a byte that starts none), and the range
    in which it accepts the second byte. *)
Definition lead (p0 : byte) : nat :=
  if Z_of_byte p0 <? 0x80 then 1
  else if in_range 0xC2 0xDF p0 then 2
  else if in_range 0xE0 0xEF p0 then 3
  else if in_range 0xF0 0xF4 p0 then 4
  else 0.

Definition accept_lo (p0 : byte) : Z :=
  if Z_of_byte p0 =? 0xE0 then 0xA0
  else if Z_of_byte p0 =? 0xF0 then 0x90 else 0x80.

Definition accept_hi (p0 : byte) : Z :=
  if Z_of_byte p0 =? 0xED then 0x9F
  else if Z_of_byte p0 =? 0xF4 then 0x8F else 0xBF.

Definition second (p0 b1 : byte) : bool :=
  in_range (accept_lo p0) (accept_hi p0) b1.

(** A continuation byte. *)
Definition cont (b : byte) : bool := in_range 0x80 0xBF b.

(** [utf8.DecodeRune]: the rune at the head of [s] and its width. A byte
    that starts no valid encoding (a stray continuation byte, an
    overlong form, a surrogate, a cut sequence) is [RuneError] of width
    1. The masks and shifts of the library are written as arithmetic. *)
Definition DecodeRune (s : string) : rune * nat :=
  match s with
  | "" => (RuneError, 0%nat)
  | String p0 s1 =>
      let z0 := Z_of_byte p0 in
      match lead p0, s1 with
      | 1%nat, _ => (z0, 1%nat)
      | 2%nat, String b1 _ =>
          if second p0 b1
          then ((z0 - 0xC0) * 64 + (Z_of_byte b1 - 0x80), 2%nat)
          else (RuneError, 1%nat)
      | 3%nat, String b1 (String b2 _) =>
          if second p0 b1 && cont b2
          then ((z0 - 0xE0) * 4096 + (Z_of_byte b1 - 0x80) * 64
                + (Z_of_byte b2 - 0x80), 3%nat)
          else (RuneError, 1%nat)
      | 4%nat, String b1 (String b2 (String b3 _)) =>
          if second p0 b1 && cont b2 && cont b3
          then ((z0 - 0xF0) * 262144 + (Z_of_byte b1 - 0x80) * 4096
                + (Z_of_byte b2 - 0x80) * 64 + (Z_of_byte b3 - 0x80), 4%nat)
          else (RuneError, 1%nat)
      | _, _ => (RuneError, 1%nat)
      end
  end.

(** [utf8.AppendRune], what [writeRune] appends to a buffer. *)
Definition EncodeRune (r : rune) : string :=
  if (0 <=? r) && (r <=? 0x7F) then String (byte_of_Z r) ""
  else if (0 <=? r) && (r <=? 0x7FF) then
    String (byte_of_Z (0xC0 + r / 64)) (String (byte_of_Z (0x80 + r mod 64)) "")
  else
    let r :=
      if (r <? 0) || (0x10FFFF <? r) || ((0xD800 <=? r) && (r <=? 0xDFFF))
      then RuneError else r in
    if r <=? 0xFFFF then
      String (byte_of_Z (0xE0 + r / 4096))
        (String (byte_of_Z (0x80 + r / 64 mod 64))
           (String (byte_of_Z (0x80 + r mod 64)) ""))
    else
      String (byte_of_Z (0xF0 + r / 262144))
        (String (byte_of_Z (0x80 + r / 4096 mod 64))
           (String (byte_of_Z (0x80 + r / 64 mod 64))
              (String (byte_of_Z (0x80 + r mod 64)) ""))).

(** The runes that successive calls of [ReadRune] return on [s]; [skip]
    counts the bytes of the last rune that are still to pass. *)
Fixpoint decode (skip : nat) (s : string) : list rune :=
  match s with
  | "" => []
  | String _ s' =>
      match skip with
      | S k => decode k s'
      | O => let '(r, size) := DecodeRune s in r :: decode (size - 1) s'
      end
  end.

Definition runes (s : string) : list rune := decode 0 s.

Definition encode (rs : list rune) : string :=
  foldr (λ r acc, EncodeRune r +:+ acc) "" rs.

(** The head of [s] is a valid encoding. *)
Definition valid_head (s : string) : bool :=
  negb (bool_decide ((DecodeRune s).1 = RuneError)
        && bool_decide ((DecodeRune s).2 <= 1)%nat).

(** [s] is valid UTF-8 from its [skip]-th byte on. *)
Fixpoint valid_from (skip : nat) (s : string) : bool :=
  match s with
  | "" => true
  | String _ s' =>
      match skip with
      | S k => valid_from k s'
      | O => valid_head s && valid_from ((DecodeRune s).2 - 1) s'
      end
  end.

(** [utf8.ValidString] *)
Definition valid (s : string) : bool := valid_from 0 s.

(** The bytes that hold the runes of [s] once each is written with
    [utf8.AppendRune]: [s] itself when it is valid UTF-8, and else [s]
    with U+FFFD for every byte that starts no encoding. *)
Definition recode (s : string) : string := encode (runes s).

End Utf8.

(** ** Scanning helpers of the parser *)

Module Scan.

(** The outcome of [fmt.Sscan(val, v)]: the scanned value, or the text
    of the error. *)
Inductive result (A : Type) : Type :=
  | Ok (a : A)
  | Err (msg : string).
Global Arguments Ok {A} a.
Global Arguments Err {A} msg.

(** The leading ASCII blanks that the [Scan] methods of the leaf types,
    which the repository does not define, are taken to skip. *)
Fixpoint skip_space (s : string) : string :=
  match s with
  | String c s' => if Ascii.is_space c then skip_space s' else s
  | "" => ""
  end.

(** [ss.SkipSpace] of [fmt] when a newline does not count as a blank, as
    under [Sscanf]: the runes from the first one that is not a blank on;
    [None] is the error of a newline among the blanks. The blanks of
    [fmt] are those of [unicode.IsSpace]. *)
Fixpoint SkipSpace (rs : list rune) : option (list rune) :=
  match rs with
  | [] => Some []
  | r :: rs' =>
      if bool_decide (r = 10) then None
      else if IsSpace r then SkipSpace rs'
      else Some rs
  end.

(** [ss.token]: the runes up to the first blank. *)
Fixpoint token (rs : list rune) : list rune :=
  match rs with
  | r :: rs' => if IsSpace r then [] else r :: token rs'
  | [] => []
  end.

(** [fmt.Sscanf(s, "%s", &word)]: the blanks are skipped, the end of the
    input is an error, and the runes up to the next blank are written to
    the word, every one in its UTF-8 encoding. [None] is an error, in
    which case the variable keeps its value. *)
Definition word (s : string) : option string :=
  match SkipSpace (Utf8.runes s) with
  | Some (r :: rs) => Some (Utf8.encode (token (r :: rs)))
  | _ => None
  end.

(** [len(val) > 0 && val[len(val)-1] == '?'] *)
Fixpoint ends_with_qmark (s : string) : bool :=
  match s with
  | "" => false
  | String c "" => bool_decide (c = "?"%char)
  | String _ s' => ends_with_qmark s'
  end.

(** [strings.SplitN(line, ":", 2)] when it has two parts. *)
Fixpoint split_colon (line : string) : option (string * string) :=
  match line with
  | "" => None
  | String c s' =>
      if bool_decide (c = ":"%char) then Some ("", s')
      else
        match split_colon s' with
        | Some (k, v) => Some (String c k, v)
        | None => None
        end
  end.

End Scan.

(** ** Hexadecimal text of opaque data *)

Module Hex.

(** [fmt.Sprintf("%x", bs)] *)
Definition encode (bs : list byte) : string :=
  foldr (λ b acc, Code.x02 b +:+ acc) "" bs.

Definition digit_val (c : ascii) : option Z := hexval (Z_of_byte c).

(** Pairs of hexadecimal digits up to the first character that is not
    one; a lone last digit is an error. *)
Fixpoint pairs (s : string) : option (list byte) :=
  match s with
  | String c1 (String c2 s') =>
      match digit_val c1, digit_val c2 with
      | Some h, Some l => cons (byte_of_Z (16 * h + l)) <$> pairs s'
      | Some _, None => None
      | None, _ => Some []
      end
  | String c1 "" =>
      match digit_val c1 with Some _ => None | None => Some [] end
  | "" => Some []
  end.

(** Modelled from the spec: the [Scan] methods of the opaque types, which
    the specification describes as "hex-decode"; the text after the
    leading blanks has to start with at least one byte. *)
Definition decode (s : string) : Scan.result (list byte) :=
  match pairs (Scan.skip_space s) with
  | Some (b :: bs) => Scan.Ok (b :: bs)
  | Some [] => Scan.Err "no hex data"
  | None => Scan.Err "odd number of hex digits"
  end.

End Hex.

(** [PrintVecOpaque] (stcdetail/txrep.go) *)
Definition PrintVecOpaque (bs : list byte) : string :=
  if bool_decide (length bs = 0%nat) then "0 bytes" else Hex.encode bs.

(** ** The typed tree *)

(** [stx.PublicKey] (the type behind [stx.AccountID]): a union whose
    Ed25519 arm holds 32 bytes. *)
Record PublicKey : Type := mkPublicKey {
  pk_Type : Z;
  pk_Ed25519 : list byte;
}.

Definition PUBLIC_KEY_TYPE_ED25519 : Z := 0.

(** The values of the leaf types that are [fmt.Stringer] and
    [fmt.Scanner]. *)
Class Scalar : Type := scalar : Type.

(** What the traversals call but the repository does not define: the
    [String] and [Scan] methods of the leaf types, the number scanning of
    Go's [fmt], and the order in which the run time ranges over a map. *)
Class External {sc : Scalar} : Type := {
  scalar_String : scalar → string;
  (** [fmt.Sscan(val, v)] on such a value *)
  scalar_Scan : string → scalar → Scan.result scalar;
  (** [fmt.Sscan(val, &size)] with [size] a [uint32]; [None] is an error *)
  Sscan_uint32 : string → option Z;
  (** [fmt.Sscan(val, v)] with [v] an [*xdr.XdrInt64] *)
  Sscan_int64 : string → Scan.result Z;
  (** the [Scan] method of an enum with the given symbol table *)
  Enum_Scan : gmap Z string → string → Scan.result Z;
  (** [String] and [Scan] of [stx.AccountID] (the strkey format) *)
  AccountID_String : PublicKey → string;
  AccountID_Scan : string → Scan.result PublicKey;
  (** [for _, name := range m] *)
  map_range : gmap Z string → list (Z * string);
  (** Scanning an empty text is an error, and a scanned [uint32] is one. *)
  Sscan_uint32_empty : Sscan_uint32 "" = None;
  Sscan_uint32_range :
    ∀ val n, Sscan_uint32 val = Some n → 0 <= n < 2 ^ 32;
}.

(** The leaf types that the parser treats as plain [fmt.Scanner]s. *)
Inductive leaf_kind : Type :=
  | Asset          (* *stx.Asset *)
  | SignerKey      (* *stx.SignerKey *)
  | Stringer.      (* any other fmt.Stringer *)

Section Tree.
Context {sc : Scalar}.

(** The shape of a node: the Go type behind the [xdr.XdrType]. A leaf
    type carries the zero value of its Go type. *)
Inductive xtype : Type :=
  | TLeaf (k : leaf_kind) (z : scalar)
  | TEnum (names : gmap Z string)
  | TInt64
  | TArrayOpaque (n : nat)
  | TVecOpaque
  | TAccountID
  | TDecoratedSignature
  | TPtr (t : xtype)
  | TVec (bound : Z) (t : xtype)
  | TStruct (fields : list (string * xtype))
  | TUnion (tagname : string) (names : gmap Z string)
      (arms : list (Z * (string * xtype)))
  | TEnvelope (names : gmap Z string) (arms : list (Z * xtype)).

(** The content of a node. *)
Inductive xval : Type :=
  | VScalar (x : scalar)
  | VInt (n : Z)
  | VBytes (bs : list byte)
  | VAccountID (pk : PublicKey)
  | VSig (hint signature : list byte)
  | VPtr (p : option xval)
  | VVec (l : list xval)
  | VStruct (fs : list xval)
  | VUnion (tag : Z) (body : option xval).

(** The arm that a discriminant selects. *)
Fixpoint find_arm {A : Type} (tag : Z) (arms : list (Z * A)) : option A :=
  match arms with
  | [] => None
  | (n, a) :: arms' => if decide (n = tag) then Some a else find_arm tag arms'
  end.

(** The zero value of a Go type. *)
Fixpoint zero_of (t : xtype) : xval :=
  match t with
  | TLeaf _ z => VScalar z
  | TEnum _ | TInt64 => VInt 0
  | TArrayOpaque n => VBytes (replicate n Ascii.zero)
  | TVecOpaque => VBytes []
  | TAccountID => VAccountID (mkPublicKey 0 (replicate 32 Ascii.zero))
  | TDecoratedSignature => VSig (replicate 4 Ascii.zero) []
  | TPtr _ => VPtr None
  | TVec _ _ => VVec []
  | TStruct fields => VStruct (map (λ f, zero_of f.2) fields)
  | TUnion _ _ arms =>
      VUnion 0
        ((fix go (arms : list (Z * (string * xtype))) : option xval :=
            match arms with
            | [] => None
            | (n, (_, ta)) :: arms' =>
                if decide (n = 0) then Some (zero_of ta) else go arms'
            end) arms)
  | TEnvelope _ arms =>
      VUnion 0
        ((fix go (arms : list (Z * xtype)) : option xval :=
            match arms with
            | [] => None
            | (n, ta) :: arms' =>
                if decide (n = 0) then Some (zero_of ta) else go arms'
            end) arms)
  end.

(** ** Field names *)

(** pseudo-selectors *)
Definition ps_len : string := "len".
Definition ps_present : string := "_present".

(** [trackTypes.present] *)
Definition present (ptrDepth : nat) : string :=
  "." +:+ Str.Repeat "_inner" (ptrDepth - 1) +:+ ps_present.

(** [dot]: ["."] unless the name is empty. *)
Definition dot (name : string) : string :=
  if Str.is_empty name then "" else ".".

(** Modelled from the spec: the name under which the generated
    [XdrRecurse] of a struct or union passes a field to [Marshal],
    "concatenation with [.] separator, omitting the separator when
    parentName is empty". *)
Definition childName (name field : string) : string :=
  name +:+ dot name +:+ field.

(** Modelled from the spec: the name of the [i]-th element of a sequence
    in the generated [XdrMarshalN], for which the specification suggests
    a "bracketed numeric index". *)
Definition elemName (name : string) (i : nat) : string :=
  name +:+ "[" +:+ Fmt.d (Z.of_nat i) +:+ "]".

(** Modelled from the spec: the [String] method of an enum, "an integer
    backed by a symbol table (ordinal → name)"; an ordinal without a
    symbol is shown as its number. *)
Definition Enum_String (names : gmap Z string) (n : Z) : string :=
  match names !! n with
  | Some sym => sym
  | None => Fmt.d n
  end.

(** The legacy field of a version-0 envelope. *)
Definition is_sourceAccountEd25519 (n : nat) (name : string) : bool :=
  bool_decide (n = 32%nat) && Str.HasSuffix name "tx.sourceAccountEd25519".

(** [name[:len(name)-20] + "sourceAccount"] *)
Definition shortened (name : string) : string :=
  Str.take (String.length name - 20) name +:+ "sourceAccount".

(** [copy(dst, src)] *)
Definition copy (dst src : list byte) : list byte :=
  take (length dst) src ++ drop (length src) dst.

End Tree.

(** ** Generating Txrep: [txStringCtx] (stcdetail/txrep.go) *)

(** [XdrBadValue] *)
Definition XdrBadValue : Type := list (string * string).

Section Generate.
Context {sc : Scalar} {ext : External}.

(** The optional methods of the value handed to [XdrToTxrep]. *)
Record Annotations : Type := mkAnnotations {
  accountIDNote : PublicKey → string;
  signerNote : scalar → string;
  sigNote : option xval → list byte → list byte → string;
  getHelp : string → bool;
  GetNativeAsset : string;
}.

(** The functions that [XdrToTxrep] installs when a method is missing. *)
Definition no_annotations : Annotations :=
  mkAnnotations (λ _, "") (λ _, "") (λ _ _ _, "") (λ _, false) "".

Record txStringCtx : Type := mkCtx {
  xp_ann : Annotations;
  xp_native : string;
  xp_out : string;
  (* trackTypes *)
  xp_ptrDepth : nat;
  xp_env : option xval;
  xp_err : XdrBadValue;
}.

(** [fmt.Fprintf(xp.out, ...)] with the formatted text [s]. *)
Definition Fprintf (s : string) (xp : txStringCtx) : txStringCtx :=
  mkCtx (xp_ann xp) (xp_native xp) (xp_out xp +:+ s)
    (xp_ptrDepth xp) (xp_env xp) (xp_err xp).

(** [*x = oldx], the cleanup of [track]: the three fields of
    [trackTypes] get their old values back. *)
Definition restore (old xp : txStringCtx) : txStringCtx :=
  mkCtx (xp_ann xp) (xp_native xp) (xp_out xp)
    (xp_ptrDepth old) (xp_env old) (xp_err old).

Definition track_ptr (xp : txStringCtx) : txStringCtx :=
  mkCtx (xp_ann xp) (xp_native xp) (xp_out xp)
    (S (xp_ptrDepth xp)) (xp_env xp) (xp_err xp).

Definition track_env (v : xval) (xp : txStringCtx) : txStringCtx :=
  mkCtx (xp_ann xp) (xp_native xp) (xp_out xp)
    (xp_ptrDepth xp) (Some v) (xp_err xp).

(** The deferred [recover] of an [xdr.XdrError]. *)
Definition recovered (name msg : string) (xp : txStringCtx) : txStringCtx :=
  mkCtx (xp_ann xp) (xp_native xp) (xp_out xp)
    (xp_ptrDepth xp) (xp_env xp) (xp_err xp ++ [(name, msg)]).

(** ["%s: %s\n"] and ["%s: %s (%s)\n"] *)
Definition line (name value : string) : string :=
  name +:+ ": " +:+ value +:+ "
".
Definition line_note (name value note : string) : string :=
  name +:+ ": " +:+ value +:+ " (" +:+ note +:+ ")
".

(** The body of the loop over the symbol table in the case
    [xdrEnumNames]. *)
Definition help_step (acc : txStringCtx * bool) (kv : Z * string)
  : txStringCtx * bool :=
  let '(xp, notfirst) := acc in
  let '(_, sym) := kv in
  if notfirst then (Fprintf (", " +:+ sym) xp, true)
  else (Fprintf sym xp, true).

(** The case [xdrEnumNames]. *)
Definition str_Enum (name : string) (names : gmap Z string) (n : Z)
    (xp : txStringCtx) : txStringCtx :=
  if getHelp (xp_ann xp) name then
    let xp := Fprintf (name +:+ ": " +:+ Enum_String names n +:+ " (") xp in
    let '(xp, _) := foldl help_step (xp, false) (map_range names) in
    Fprintf ")
" xp
  else Fprintf (line name (Enum_String names n)) xp.

(** The case [*stx.AccountID]. *)
Definition str_AccountID (name : string) (pk : PublicKey)
    (xp : txStringCtx) : txStringCtx :=
  let ac := AccountID_String pk in
  let hint := accountIDNote (xp_ann xp) pk in
  if negb (Str.is_empty hint) then Fprintf (line_note name ac hint) xp
  else Fprintf (line name ac) xp.

(** The cases of the leaf types. *)
Definition str_Leaf (k : leaf_kind) (name : string) (x : scalar)
    (xp : txStringCtx) : txStringCtx :=
  match k with
  | Asset =>
      let asset := scalar_String x in
      let asset := if bool_decide (asset = "native") then xp_native xp else asset in
      Fprintf (line name asset) xp
  | SignerKey =>
      let hint := signerNote (xp_ann xp) x in
      if negb (Str.is_empty hint)
      then Fprintf (line_note name (scalar_String x) hint) xp
      else Fprintf (line name (scalar_String x)) xp
  | Stringer => Fprintf (line name (scalar_String x)) xp
  end.

(** The case [*stx.DecoratedSignature]. *)
Definition str_DecoratedSignature (name : string) (hint sig : list byte)
    (xp : txStringCtx) : txStringCtx :=
  let note := sigNote (xp_ann xp) (xp_env xp) hint sig in
  let h :=
    if negb (Str.is_empty note)
    then Hex.encode hint +:+ " (" +:+ note +:+ ")"
    else Hex.encode hint in
  Fprintf (line (name +:+ ".hint") h +:+
           line (name +:+ ".signature") (PrintVecOpaque sig)) xp.

(** [txStringCtx.Marshal]. As in the parser, [XdrRecurse],
    [XdrMarshalValue] and [XdrMarshalN] are modelled from the spec
    (section 4.3); a union whose discriminant has neither an arm nor a
    symbol raises the error that the deferred function records. *)
Fixpoint str_Marshal (t : xtype) (name : string) (v : xval)
    (xp : txStringCtx) {struct t} : txStringCtx :=
  match t, v with
  | TEnvelope names arms, VUnion tag body =>
      let old := xp in
      let xp := track_env v xp in
      let xp :=
        Fprintf (name +:+ dot name +:+ "type: " +:+ Enum_String names tag +:+ "
") xp in
      let xp :=
        (fix go (arms : list (Z * xtype)) {struct arms} : txStringCtx :=
           match arms with
           | [] => xp
           | (n, ta) :: arms' =>
               if decide (n = tag) then
                 match body with
                 | Some b => str_Marshal ta name b xp
                 | None => xp
                 end
               else go arms'
           end) arms in
      restore old xp
  | TLeaf k _, VScalar x => str_Leaf k name x xp
  | TAccountID, VAccountID pk => str_AccountID name pk xp
  | TEnum names, VInt n => str_Enum name names n xp
  | TInt64, VInt n =>
      Fprintf (line_note name (Fmt.d n) (default "" (ScaleFmt n 7))) xp
  | TVecOpaque, VBytes bs => Fprintf (line name (PrintVecOpaque bs)) xp
  | TArrayOpaque n, VBytes bs =>
      if is_sourceAccountEd25519 n name then
        str_AccountID (shortened name)
          (mkPublicKey PUBLIC_KEY_TYPE_ED25519
             (copy (replicate 32 Ascii.zero) bs)) xp
      else Fprintf (line name (Hex.encode bs)) xp
  | TPtr t', VPtr p =>
      let old := xp in
      let xp := track_ptr xp in
      let xp :=
        Fprintf (name +:+ present (xp_ptrDepth xp) +:+ ": " +:+
                 match p with Some _ => "true" | None => "false" end +:+ "
") xp in
      let xp :=
        match p with
        | Some i => str_Marshal t' name i xp
        | None => xp
        end in
      restore old xp
  | TVec _ t', VVec l =>
      let xp :=
        Fprintf (name +:+ dot name +:+ ps_len +:+ ": " +:+
                 Fmt.d (Z.of_nat (length l)) +:+ "
") xp in
      (fix go (l : list xval) (i : nat) (xp : txStringCtx) {struct l}
         : txStringCtx :=
         match l with
         | [] => xp
         | e :: l' => go l' (S i) (str_Marshal t' (elemName name i) e xp)
         end) l O xp
  | TDecoratedSignature, VSig hint sig => str_DecoratedSignature name hint sig xp
  | TStruct fields, VStruct fs =>
      (fix go (fields : list (string * xtype)) (fs : list xval)
           (xp : txStringCtx) {struct fields} : txStringCtx :=
         match fields, fs with
         | (f, tf) :: fields', vf :: fs' =>
             go fields' fs' (str_Marshal tf (childName name f) vf xp)
         | _, _ => xp
         end) fields fs xp
  | TUnion tagname names arms, VUnion tag body =>
      let xp := str_Enum (childName name tagname) names tag xp in
      (fix go (arms : list (Z * (string * xtype))) {struct arms}
         : txStringCtx :=
         match arms with
         | [] =>
             if bool_decide (is_Some (names !! tag)) then xp
             else recovered name ("invalid " +:+ tagname) xp
         | (n, (armname, ta)) :: arms' =>
             if decide (n = tag) then
               match body with
               | Some b => str_Marshal ta (childName name armname) b xp
               | None => xp
               end
             else go arms'
         end) arms
  | _, _ => xp
  end.

(** The loops inside [str_Marshal], by name. *)
Fixpoint str_XdrMarshalN (t : xtype) (name : string) (l : list xval)
    (i : nat) (xp : txStringCtx) {struct l} : txStringCtx :=
  match l with
  | [] => xp
  | e :: l' =>
      str_XdrMarshalN t name l' (S i) (str_Marshal t (elemName name i) e xp)
  end.

Fixpoint str_fields (name : string) (fields : list (string * xtype))
    (fs : list xval) (xp : txStringCtx) {struct fields} : txStringCtx :=
  match fields, fs with
  | (f, tf) :: fields', vf :: fs' =>
      str_fields name fields' fs' (str_Marshal tf (childName name f) vf xp)
  | _, _ => xp
  end.

(** [XdrToTxrep]: the text written to [out] and the returned errors. *)
Definition XdrToTxrep (ann : Annotations) (name : string) (t : xtype)
    (v : xval) : string * XdrBadValue :=
  let env := match t with TEnvelope _ _ => Some v | _ => None end in
  let native :=
    if Str.is_empty (GetNativeAsset ann) then "native" else GetNativeAsset ann in
  let xp := str_Marshal t name v (mkCtx ann native "" O env []) in
  (xp_out xp, xp_err xp).

End Generate.

(** ** Parsing Txrep: [xdrScan] (stcdetail/txrep.go) *)

Record lineval : Type := mkLineval {
  lv_line : nat;
  lv_val : string;
}.

(** [TxrepError] *)
Definition TxrepError : Type := list (nat * string).

Record xdrScan : Type := mkScan {
  xs_ptrDepth : nat;                 (* trackTypes.ptrDepth *)
  xs_kvs : gmap string lineval;
  xs_err : TxrepError;
  xs_help : list string;             (* the calls of setHelp so far *)
}.

Section Parse.
Context {sc : Scalar} {ext : External}.

(** The zero [lineval] that a missing key yields. *)
Definition kvs_get (xs : xdrScan) (key : string) : lineval :=
  default (mkLineval 0 "") (xs_kvs xs !! key).

Definition kvs_ok (xs : xdrScan) (key : string) : bool :=
  bool_decide (is_Some (xs_kvs xs !! key)).

Definition kvs_delete (key : string) (xs : xdrScan) : xdrScan :=
  mkScan (xs_ptrDepth xs) (delete key (xs_kvs xs)) (xs_err xs) (xs_help xs).

Definition report (line : nat) (msg : string) (xs : xdrScan) : xdrScan :=
  mkScan (xs_ptrDepth xs) (xs_kvs xs) (xs_err xs ++ [(line, msg)]) (xs_help xs).

Definition setHelp (name : string) (xs : xdrScan) : xdrScan :=
  mkScan (xs_ptrDepth xs) (xs_kvs xs) (xs_err xs) (xs_help xs ++ [name]).

Definition set_ptrDepth (d : nat) (xs : xdrScan) : xdrScan :=
  mkScan d (xs_kvs xs) (xs_err xs) (xs_help xs).

(** The cases of [Marshal] that scan one value with [fmt.Sscan]: the
    case [xdr.XdrArrayOpaque] ([qmark = false]) and the case [fmt.Scanner]
    ([qmark = true], which also looks for a final ['?']). [scanned] is
    the outcome of [fmt.Sscan(val, v)], the result is the new content of
    the node. *)
Definition scan_value {A : Type} (qmark : bool) (name : string)
    (scanned : string → Scan.result A) (old : A) (xs : xdrScan)
  : A * xdrScan :=
  let lv := kvs_get xs name in
  let val := lv_val lv in
  if negb (kvs_ok xs name) then (old, xs)
  else
    let '(new, xs) :=
      match scanned val with
      | Scan.Ok a => (a, xs)
      | Scan.Err msg => (old, report (lv_line lv) msg (setHelp name xs))
      end in
    let xs := if qmark && Scan.ends_with_qmark val then setHelp name xs else xs in
    (new, kvs_delete name xs).

(** Modelled from the spec: the [Scan] method of a fixed opaque array of
    [n] bytes, the inverse of its hexadecimal rendering. *)
Definition ArrayOpaque_Scan (n : nat) (val : string) : Scan.result (list byte) :=
  match Hex.decode val with
  | Scan.Ok bs =>
      if decide (length bs = n) then Scan.Ok bs
      else Scan.Err "wrong number of bytes"
  | Scan.Err msg => Scan.Err msg
  end.

(** The case [xdr.XdrVecOpaque]. *)
Definition scan_VecOpaque (name : string) (old : list byte) (xs : xdrScan)
  : list byte * xdrScan :=
  let lv := kvs_get xs name in
  let val := lv_val lv in
  if negb (kvs_ok xs name) then (old, xs)
  else
    let '(new, xs) :=
      match Hex.decode val with
      | Scan.Err msg =>
          if bool_decide (default "" (Scan.word val) = "0") then ([], xs)
          else (old, report (lv_line lv) msg (setHelp name xs))
      | Scan.Ok bs =>
          (bs, if Scan.ends_with_qmark val then setHelp name xs else xs)
      end in
    (new, kvs_delete name xs).

(** ["%s.%s (%d) exceeds maximum size %d."] *)
Definition exceeds_message (name : string) (size bound : Z) : string :=
  name +:+ "." +:+ ps_len +:+ " (" +:+ Fmt.d size +:+
  ") exceeds maximum size " +:+ Fmt.d bound +:+ ".".

(** The case [*xdr.XdrSize]; the result is the size that [SetU32]
    stores. *)
Definition scan_Size (name : string) (bound : Z) (xs : xdrScan)
  : Z * xdrScan :=
  let lv := kvs_get xs (name +:+ "." +:+ ps_len) in
  let size := default 0 (Sscan_uint32 (lv_val lv)) in
  let '(stored, xs) :=
    if size <=? bound then (size, xs)
    else
      (bound, report (lv_line lv) (exceeds_message name size bound) xs) in
  (stored, kvs_delete name xs).

(** The first half of the case [xdr.XdrPtr]: what [SetPresent] receives;
    [xs] already has the incremented [ptrDepth]. *)
Definition scan_present (name : string) (xs : xdrScan) : bool * xdrScan :=
  let field := name +:+ present (xs_ptrDepth xs) in
  let '(val, field) :=
    match Scan.word (lv_val (kvs_get xs field)) with
    | Some w => (w, field)
    | None =>
        if kvs_ok xs name then ("true", field)
        else
          let field := name +:+ "." in
          if bool_decide
               (map_Exists (λ f _, Str.HasPrefix f field = true) (xs_kvs xs))
          then ("true", field) else ("false", field)
    end in
  if bool_decide (val = "false") then (false, xs)
  else if bool_decide (val = "true") then (true, xs)
  else
    (true,
     report (lv_line (kvs_get xs field))
       (field +:+ " (" +:+ val +:+ ") must be true or false") xs).

(** The legacy field [tx.sourceAccountEd25519]: the key is read as an
    [stx.AccountID] under the name [sourceAccount]. A missing key returns
    from the case [fmt.Scanner], before the bytes are copied back. *)
Definition scan_sourceAccount (name : string) (k : list byte) (xs : xdrScan)
  : list byte * xdrScan :=
  let name := shortened name in
  let pk0 := mkPublicKey PUBLIC_KEY_TYPE_ED25519 (replicate 32 Ascii.zero) in
  if negb (kvs_ok xs name) then (k, xs)
  else
    let '(pk, xs) := scan_value true name AccountID_Scan pk0 xs in
    if decide (pk_Type pk = PUBLIC_KEY_TYPE_ED25519)
    then (copy k (pk_Ed25519 pk), xs)
    else
      (k, report (lv_line (kvs_get xs name))
            "sourceAccount must be type Ed25519 for V0 transaction" xs).

(** [xdrScan.Marshal]. The node kinds that the generated code passes
    through [XdrRecurse], [XdrMarshalValue] and [XdrMarshalN] are
    modelled from the spec (section 4.4). A content that does not fit
    the type is left alone. *)
Fixpoint scan_Marshal (t : xtype) (name : string) (v : xval) (xs : xdrScan)
  {struct t} : xval * xdrScan :=
  match t, v with
  | TLeaf _ _, VScalar x =>
      let '(x, xs) := scan_value true name (λ val, scalar_Scan val x) x xs in
      (VScalar x, xs)
  | TEnum names, VInt n =>
      let '(n, xs) := scan_value true name (Enum_Scan names) n xs in
      (VInt n, xs)
  | TInt64, VInt n =>
      let '(n, xs) := scan_value true name Sscan_int64 n xs in
      (VInt n, xs)
  | TArrayOpaque n, VBytes bs =>
      if is_sourceAccountEd25519 n name then
        let '(bs, xs) := scan_sourceAccount name bs xs in (VBytes bs, xs)
      else
        let '(bs, xs) := scan_value false name (ArrayOpaque_Scan n) bs xs in
        (VBytes bs, xs)
  | TVecOpaque, VBytes bs =>
      let '(bs, xs) := scan_VecOpaque name bs xs in (VBytes bs, xs)
  | TAccountID, VAccountID pk =>
      let '(pk, xs) := scan_value true name AccountID_Scan pk xs in
      (VAccountID pk, xs)
  | TDecoratedSignature, VSig hint sig =>
      (* an aggregate: the struct of [hint] and [signature] *)
      let '(hint, xs) :=
        scan_value false (childName name "hint") (ArrayOpaque_Scan 4) hint xs in
      let '(sig, xs) := scan_VecOpaque (childName name "signature") sig xs in
      (VSig hint sig, kvs_delete name xs)
  | TPtr t', VPtr p =>
      let depth := xs_ptrDepth xs in
      let xs := set_ptrDepth (S depth) xs in             (* track *)
      let '(b, xs) := scan_present name xs in
      (* SetPresent *)
      let p := if b then Some (default (zero_of t') p) else None in
      (* XdrMarshalValue *)
      let '(p, xs) :=
        match p with
        | Some i => let '(i, xs) := scan_Marshal t' name i xs in (Some i, xs)
        | None => (None, xs)
        end in
      (VPtr p, set_ptrDepth depth (kvs_delete name xs))
  | TVec bound t', VVec l =>
      (* XdrRecurse: the size, then XdrMarshalN *)
      let '(size, xs) := scan_Size name bound xs in
      let '(l, xs) :=
        (fix go (n i : nat) (l : list xval) (xs : xdrScan) {struct n}
           : list xval * xdrScan :=
           match n with
           | O => ([], xs)
           | S n =>
               let e := default (zero_of t') (head l) in
               let '(e, xs) := scan_Marshal t' (elemName name i) e xs in
               let '(r, xs) := go n (S i) (tail l) xs in
               (e :: r, xs)
           end) (Z.to_nat size) O l xs in
      (VVec l, kvs_delete name xs)
  | TStruct fields, VStruct fs =>
      let '(fs, xs) :=
        (fix go (fields : list (string * xtype)) (fs : list xval)
             (xs : xdrScan) {struct fields} : list xval * xdrScan :=
           match fields, fs with
           | (f, tf) :: fields', vf :: fs' =>
               let '(vf, xs) := scan_Marshal tf (childName name f) vf xs in
               let '(r, xs) := go fields' fs' xs in
               (vf :: r, xs)
           | _, _ => (fs, xs)
           end) fields fs xs in
      (VStruct fs, kvs_delete name xs)
  | TUnion tagname names arms, VUnion tag body =>
      let '(tag', xs) :=
        scan_value true (childName name tagname) (Enum_Scan names) tag xs in
      let body := if decide (tag' = tag) then body else None in
      let '(body, xs) :=
        (fix go (arms : list (Z * (string * xtype))) {struct arms}
           : option xval * xdrScan :=
           match arms with
           | [] => (None, xs)
           | (n, (armname, ta)) :: arms' =>
               if decide (n = tag') then
                 let '(b, xs) :=
                   scan_Marshal ta (childName name armname)
                     (default (zero_of ta) body) xs in
                 (Some b, xs)
               else go arms'
           end) arms in
      (VUnion tag' body, kvs_delete name xs)
  | TEnvelope names arms, VUnion tag body =>
      let '(tag', xs) :=
        scan_value true (name +:+ dot name +:+ "type") (Enum_Scan names) tag xs in
      let body := if decide (tag' = tag) then body else None in
      let '(body, xs) :=
        (fix go (arms : list (Z * xtype)) {struct arms}
           : option xval * xdrScan :=
           match arms with
           | [] => (None, xs)
           | (n, ta) :: arms' =>
               if decide (n = tag') then
                 let '(b, xs) :=
                   scan_Marshal ta name (default (zero_of ta) body) xs in
                 (Some b, xs)
               else go arms'
           end) arms in
      (VUnion tag' body, kvs_delete name xs)
  | _, _ => (v, xs)
  end.

(** The loops inside [scan_Marshal], by name. *)
Fixpoint scan_XdrMarshalN (t : xtype) (name : string) (n i : nat)
    (l : list xval) (xs : xdrScan) {struct n} : list xval * xdrScan :=
  match n with
  | O => ([], xs)
  | S n =>
      let e := default (zero_of t) (head l) in
      let '(e, xs) := scan_Marshal t (elemName name i) e xs in
      let '(r, xs) := scan_XdrMarshalN t name n (S i) (tail l) xs in
      (e :: r, xs)
  end.

Fixpoint scan_fields (name : string) (fields : list (string * xtype))
    (fs : list xval) (xs : xdrScan) {struct fields} : list xval * xdrScan :=
  match fields, fs with
  | (f, tf) :: fields', vf :: fs' =>
      let '(vf, xs) := scan_Marshal tf (childName name f) vf xs in
      let '(r, xs) := scan_fields name fields' fs' xs in
      (vf :: r, xs)
  | _, _ => (fs, xs)
  end.

(** [ReadTextLine] on a text of valid UTF-8 behind a reader that
    implements [UnreadRune]: there the token that [fmt.Fscan] returns
    is the bytes that it read, the rune that [fmt.Fscanf] reads next is
    the newline of the line, and the test [c != '\n'] never succeeds. The
    result is the line up to the next newline without its final carriage
    return, the error ([io.EOF] when no newline ends the line) and the
    rest of the input. [Line.ReadTextLine] below follows the two scans
    on any bytes and either kind of reader; [Line_ReadTextLine_unread]
    and [Line_XdrFromTxrep_valid] relate the two. *)
Fixpoint read_to_newline (s : string) : string * option error * string :=
  match s with
  | "" => ("", Some EOF, "")
  | String c s' =>
      if bool_decide (c = "010"%char) then ("", None, s')
      else
        let '(l, e, r) := read_to_newline s' in (String c l, e, r)
  end.

Fixpoint drop_final_cr (line : string) : string :=
  match line with
  | "" => ""
  | String c "" => if bool_decide (c = "013"%char) then "" else line
  | String c l' => String c (drop_final_cr l')
  end.

Definition ReadTextLine (input : string) : string * option error * string :=
  let '(l, e, r) := read_to_newline input in (drop_final_cr l, e, r).

(** The loop of [readKvs] over that [ReadTextLine]; [None] stands for
    an exhausted fuel, which does not happen (see [readKvs_total]). *)
Fixpoint readKvs_loop (fuel : nat) (input : string) (lineno : nat)
    (xs : xdrScan) : option xdrScan :=
  match fuel with
  | O => None
  | S fuel =>
      let '(line, err, input) := ReadTextLine input in
      if bool_decide (is_Some err)
         && (negb (bool_decide (err = Some EOF)) || Str.is_empty line)
      then
        match err with
        | Some e =>
            if bool_decide (e = EOF) then Some xs
            else Some (report lineno (error_text e) xs)
        | None => Some xs
        end
      else
        let lineno := S lineno in
        if Str.is_empty line then readKvs_loop fuel input lineno xs
        else
          match Scan.split_colon line with
          | None => readKvs_loop fuel input lineno (report lineno "syntax error" xs)
          | Some (k, v) =>
              readKvs_loop fuel input lineno
                (mkScan (xs_ptrDepth xs)
                   (<[k := mkLineval lineno v]> (xs_kvs xs))
                   (xs_err xs) (xs_help xs))
          end
  end.

Definition readKvs (input : string) (xs : xdrScan) : option xdrScan :=
  readKvs_loop (S (S (String.length input))) input O
    (mkScan (xs_ptrDepth xs) ∅ (xs_err xs) (xs_help xs)).

(** [XdrFromTxrep] on a text of valid UTF-8 behind a reader that
    implements [UnreadRune]: the tree after the call, the returned
    errors, and the names passed to [SetHelp]. *)
Definition XdrFromTxrep (input : string) (name : string) (t : xtype)
    (v : xval) : option (xval * TxrepError * list string) :=
  xs ← readKvs input (mkScan O ∅ [] []);
  let '(v, xs) := scan_Marshal t name v xs in
  Some (v, xs_err xs, xs_help xs).

End Parse.

(** ** Reading through [fmt]

    [ReadTextLine] reads with [fmt.Fscan] and [fmt.Fscanf], which take
    runes, not bytes, from the reader, and hand the reader back between
    the two calls. The definitions of this module follow them on the
    bytes a reader holds, for the two kinds of reader that [fmt] tells
    apart, and for lines of fewer than 2^30 runes, the most that [fmt]
    reads into one operand. The reader gives its bytes and then
    [io.EOF], and no other error. *)

Module Line.

(** [ss.Token(false, f)] as [inputLine.Scan] calls it: the runes are read
    up to a newline, which is read and pushed back, or up to the end of
    the input, and written to the token, every one in its UTF-8 encoding.
    The result is the token and the input from the newline on; [skip]
    counts the bytes of the last rune that are still to pass. *)
Fixpoint Token (skip : nat) (s : string) : string * string :=
  match s with
  | "" => ("", "")
  | String _ s' =>
      match skip with
      | S k => Token k s'
      | O =>
          let '(r, size) := Utf8.DecodeRune s in
          if bool_decide (r = 10) then ("", s)
          else
            let '(t, rest) := Token (size - 1) s' in
            (Utf8.EncodeRune r +:+ t, rest)
      end
  end.

(** [utf8.FullRune] *)
Definition FullRune (p : string) : bool :=
  match p with
  | "" => false
  | String p0 p' =>
      let sz := match Utf8.lead p0 with O => 1%nat | n => n end in
      if (sz <=? String.length p)%nat then true
      else
        match p' with
        | String b1 p'' =>
            if negb (Utf8.second p0 b1) then true
            else
              match p'' with
              | String b2 _ => negb (Utf8.cont b2)
              | "" => false
              end
        | "" => false
        end
  end.

(** The bytes that [fmt] takes from a reader that is no
    [io.RuneScanner] to read one rune: it reads byte by byte until
    [utf8.FullRune] or the end of the input. The bytes beyond the rune
    are kept for the next read of the same scan, and lost with it. *)
Fixpoint read_loop (fuel n : nat) (s : string) : nat :=
  match fuel with
  | O => n
  | S fuel =>
      if FullRune (Str.take n s) then n
      else if (String.length s <=? n)%nat then n
      else read_loop fuel (S n) s
  end.

Definition read_width (s : string) : nat := read_loop 4 1 s.

(** [ReadTextLine] on the bytes that a reader still holds. [unread]
    tells whether the reader implements [UnreadRune], that is whether it
    is an [io.RuneScanner] (a [strings.Reader], a [bytes.Buffer], a
    [bufio.Reader]) or not (an [os.File]): without it the newline that
    [fmt.Fscan] pushed back is lost when [Fscan] returns, and
    [fmt.Fscanf] reads the rune after it, which the test [c != '\n']
    then turns into [io.EOF] unless it is a newline itself. At the end
    of the input [Fscanf] fails with [io.EOF] and [c] stays 0. *)
Definition ReadTextLine (unread : bool) (input : string)
  : string * option error * string :=
  let '(line, s1) := Token 0 input in
  let s2 := if unread then s1 else Str.drop 1 s1 in
  let '(c, err, rest) :=
    match s2 with
    | "" => (0, Some EOF, "")
    | String _ _ =>
        let '(c, size) := Utf8.DecodeRune s2 in
        (c, None, Str.drop (if unread then size else read_width s2) s2)
    end in
  let err :=
    if bool_decide (err = None) && negb (bool_decide (c = 10))
    then Some EOF else err in
  (drop_final_cr line, err, rest).


Section Read.
Context {sc : Scalar} {ext : External}.

(** The loop of [readKvs] over [ReadTextLine]; [None] stands for an
    exhausted fuel, which does not happen (see [Line_readKvs_returns]). *)
Fixpoint readKvs_loop (unread : bool) (fuel : nat) (input : string)
    (lineno : nat) (xs : xdrScan) : option xdrScan :=
  match fuel with
  | O => None
  | S fuel =>
      let '(line, err, input) := ReadTextLine unread input in
      if bool_decide (is_Some err)
         && (negb (bool_decide (err = Some EOF)) || Str.is_empty line)
      then
        match err with
        | Some e =>
            if bool_decide (e = EOF) then Some xs
            else Some (report lineno (error_text e) xs)
        | None => Some xs
        end
      else
        let lineno := S lineno in
        if Str.is_empty line then readKvs_loop unread fuel input lineno xs
        else
          match Scan.split_colon line with
          | None =>
              readKvs_loop unread fuel input lineno
                (report lineno "syntax error" xs)
          | Some (k, v) =>
              readKvs_loop unread fuel input lineno
                (mkScan (xs_ptrDepth xs)
                   (<[k := mkLineval lineno v]> (xs_kvs xs))
                   (xs_err xs) (xs_help xs))
          end
  end.

Definition readKvs (unread : bool) (input : string) (xs : xdrScan)
  : option xdrScan :=
  readKvs_loop unread (S (S (String.length input))) input O
    (mkScan (xs_ptrDepth xs) ∅ (xs_err xs) (xs_help xs)).

(** [XdrFromTxrep]: the tree after the call, the returned errors, and
    the names passed to [SetHelp]. *)
Definition XdrFromTxrep (unread : bool) (input : string) (name : string)
    (t : xtype) (v : xval) : option (xval * TxrepError * list string) :=
  xs ← readKvs unread input (mkScan O ∅ [] []);
  let '(v, xs) := scan_Marshal t name v xs in
  Some (v, xs_err xs, xs_help xs).

End Read.

End Line.

(** ** An instance of the external functions

    Decimal numbers for the scalars and sizes, the symbol itself for an
    enum, and the hexadecimal key behind a letter for an account. It
    serves to run the traversals on examples. *)

Module Demo.

Fixpoint digits_value (s : string) (acc : Z) : option Z :=
  match s with
  | "" => Some acc
  | String c s' =>
      let n := Z_of_byte c in
      if bool_decide (48 <= n <= 57) then digits_value s' (10 * acc + (n - 48))
      else None
  end.

(** The leading run of characters that satisfy [p]. *)
Fixpoint span (p : ascii → bool) (s : string) : string :=
  match s with
  | String c s' => if p c then String c (span p s') else ""
  | "" => ""
  end.

Definition is_digit (c : ascii) : bool :=
  bool_decide (48 <= Z_of_byte c <= 57).

Definition is_symbol_char (c : ascii) : bool :=
  is_digit c || bool_decide (65 <= Z_of_byte c <= 90)
  || bool_decide (97 <= Z_of_byte c <= 122) || bool_decide (c = "_"%char).

Definition unsigned (s : string) : option Z :=
  match span is_digit (Scan.skip_space s) with
  | "" => None
  | ds => digits_value ds 0
  end.

Definition signed (s : string) : option Z :=
  match Scan.skip_space s with
  | String "-" s' => Z.opp <$> unsigned s'
  | s' => unsigned s'
  end.

Definition to_result {A : Type} (msg : string) (o : option A) : Scan.result A :=
  match o with Some a => Scan.Ok a | None => Scan.Err msg end.

Definition enum_scan (names : gmap Z string) (s : string) : Scan.result Z :=
  let sym := span is_symbol_char (Scan.skip_space s) in
  to_result (sym +:+ " is not a valid symbol")
    (fst <$> head (filter (λ kv, kv.2 = sym) (map_to_list names))).

Definition account_string (pk : PublicKey) : string :=
  (if decide (pk_Type pk = 0) then "G" else "X") +:+ Hex.encode (pk_Ed25519 pk).

Definition account_scan (s : string) : Scan.result PublicKey :=
  match Scan.skip_space s with
  | String "G" h =>
      match Hex.decode h with
      | Scan.Ok bs => Scan.Ok (mkPublicKey 0 bs)
      | Scan.Err m => Scan.Err m
      end
  | String "X" h =>
      match Hex.decode h with
      | Scan.Ok bs => Scan.Ok (mkPublicKey 1 bs)
      | Scan.Err m => Scan.Err m
      end
  | _ => Scan.Err "invalid account"
  end.

Lemma unsigned_nonneg (s : string) (n : Z) : unsigned s = Some n → 0 <= n.
Proof.
  unfold unsigned. destruct (span is_digit (Scan.skip_space s)) as [|c ds]; [done|].
  generalize (String c ds). clear. intros ds.
  assert (∀ acc m, 0 <= acc → digits_value ds acc = Some m → 0 <= m) as Hd.
  { induction ds as [|c ds IH]; intros acc m Hacc; simpl.
    - intros [= <-]. done.
    - case_bool_decide; [|done]. apply IH. lia. }
  apply Hd. done.
Qed.

Lemma uint32_range (val : string) (n : Z) :
  (m ← unsigned val; if m <? 2 ^ 32 then Some m else None) = Some n →
  0 <= n < 2 ^ 32.
Proof.
  destruct (unsigned val) as [m|] eqn:E; [|done]. simpl.
  destruct (m <? 2 ^ 32) eqn:E2; [|done]. intros [= <-].
  apply unsigned_nonneg in E. apply Z.ltb_lt in E2. lia.
Qed.

Global Instance scalar_Z : Scalar := Z.

(** The instance, for a given order of ranging over maps. *)
Definition external_ranging (range : gmap Z string → list (Z * string))
  : External := {|
  scalar_String := Fmt.d;
  scalar_Scan := λ val _, to_result "expected integer" (signed val);
  Sscan_uint32 := λ val,
    n ← unsigned val; if n <? 2 ^ 32 then Some n else None;
  Sscan_int64 := λ val, to_result "expected integer" (signed val);
  Enum_Scan := enum_scan;
  AccountID_String := account_string;
  AccountID_Scan := account_scan;
  map_range := range;
  Sscan_uint32_empty := eq_refl;
  Sscan_uint32_range := uint32_range;
|}.

Definition external : External := external_ranging map_to_list.

End Demo.

(** * Properties *)

(** ** Decimal digits *)

Section Decimal.

Lemma log2_div10_lt n : 10 <= n → Z.log2 (n / 10) < Z.log2 n.
Proof.
  intros Hn.
  assert (n / 10 <= n / 2) by (apply Z.div_le_compat_l; lia).
  assert (0 < Z.log2 n) by (apply Z.log2_pos; lia).
  assert (Z.log2 (n / 2) = Z.pred (Z.log2 n)).
  { change 2 with (2 ^ 1). rewrite <- Z.shiftr_div_pow2 by lia.
    rewrite Z.log2_shiftr by lia. lia. }
  assert (Z.log2 (n / 10) <= Z.log2 (n / 2)) by (by apply Z.log2_le_mono).
  lia.
Qed.

Lemma udec_fuel (f1 f2 : nat) (n : Z) :
  0 <= n → Z.log2 n < Z.of_nat f1 → Z.log2 n < Z.of_nat f2 →
  Fmt.udec f1 n = Fmt.udec f2 n.
Proof.
  revert f2 n. induction f1 as [|f1 IH]; intros f2 n Hn H1 H2.
  - pose proof (Z.log2_nonneg n). lia.
  - destruct f2 as [|f2]; [pose proof (Z.log2_nonneg n); lia|].
    simpl. destruct (n <? 10) eqn:E; [done|].
    apply Z.ltb_ge in E. pose proof (log2_div10_lt n E).
    f_equal. apply IH; [apply Z.div_pos; lia|lia|lia].
Qed.

Lemma udec_S (f : nat) (n : Z) :
  Fmt.udec (S f) n =
    if n <? 10 then String (Fmt.digit n) ""
    else Fmt.udec f (n / 10) +:+ String (Fmt.digit (n mod 10)) "".
Proof. reflexivity. Qed.

Lemma d_step (n : Z) :
  10 <= n → Fmt.d n = Fmt.d (n / 10) +:+ String (Fmt.digit (n mod 10)) "".
Proof.
  intros Hn. unfold Fmt.d.
  assert (0 <= n / 10) by (apply Z.div_pos; lia).
  destruct (n <? 0) eqn:E1; [lia|]. destruct (n / 10 <? 0) eqn:E2; [lia|].
  rewrite (udec_S _ n). destruct (n <? 10) eqn:E3; [lia|].
  f_equal. pose proof (log2_div10_lt n Hn). apply udec_fuel; lia.
Qed.

(** Facts about numbers below 1000 are checked on each of them. *)
Lemma below_1000 (P : Z → bool) :
  forallb P (map Z.of_nat (seq 0 1000)) = true →
  ∀ n, 0 <= n < 1000 → P n = true.
Proof.
  intros H n Hn. rewrite forallb_forall in H. apply H.
  apply in_map_iff. exists (Z.to_nat n). split; [lia|].
  apply in_seq. lia.
Qed.

Lemma d0_3_digits (m : Z) :
  0 <= m < 1000 →
  Fmt.d0 3 m =
    String (Fmt.digit (m / 100))
      (String (Fmt.digit (m / 10 mod 10)) (String (Fmt.digit (m mod 10)) "")).
Proof.
  intros Hm.
  apply (below_1000 (λ m, bool_decide (Fmt.d0 3 m =
    String (Fmt.digit (m / 100))
      (String (Fmt.digit (m / 10 mod 10))
         (String (Fmt.digit (m mod 10)) ""))))) in Hm.
  - by apply bool_decide_eq_true in Hm.
  - vm_compute. reflexivity.
Qed.

Lemma d_split_1000 (n : Z) :
  1000 <= n → Fmt.d n = Fmt.d (n / 1000) +:+ Fmt.d0 3 (n mod 1000).
Proof.
  intros Hn.
  rewrite (d_step n) by lia.
  rewrite (d_step (n / 10)) by (apply Z.div_le_lower_bound; lia).
  rewrite (d_step (n / 10 / 10))
    by (rewrite Z.div_div by lia; apply Z.div_le_lower_bound; lia).
  rewrite d0_3_digits by (apply Z.mod_pos_bound; lia).
  rewrite !Z.div_div by lia. change (10 * 10) with 100. change (100 * 10) with 1000.
  rewrite <- !Str.app_assoc. rewrite !Str.app_cons, !Str.app_nil_l.
  assert (n / 100 mod 10 = n mod 1000 / 100) as ->
    by (Z.div_mod_to_equations; lia).
  assert (n / 10 mod 10 = n mod 1000 / 10 mod 10) as ->
    by (Z.div_mod_to_equations; lia).
  assert (n mod 10 = n mod 1000 mod 10) as ->
    by (Z.div_mod_to_equations; lia).
  reflexivity.
Qed.

End Decimal.

(** ** [ScaleFmt] against its specification *)

Section ScaleFmt_correct.
Import ScaleSpec.

Lemma exp10_pow (e : Z) : 0 <= e < 20 → exp10 !! Z.to_nat e = Some (10 ^ e).
Proof.
  intros He. rewrite <- (Z2Nat.id e) at 2 by lia.
  assert (Z.to_nat e < 20)%nat as Hlt by lia. revert Hlt.
  generalize (Z.to_nat e) as k. intros k Hk.
  do 20 (destruct k as [|k]; [vm_compute; reflexivity|]). lia.
Qed.

Lemma magnitude (val : Z) :
  is_int64 val →
  (if val <? 0 then uint64 (int64 (- val)) else uint64 val) = Z.abs val.
Proof.
  unfold is_int64, uint64, int64. intros Hv.
  destruct (val <? 0) eqn:E.
  - apply Z.ltb_lt in E. destruct (decide (val = - 2 ^ 63)) as [->|Hne].
    + vm_compute. reflexivity.
    + rewrite (Z.mod_small (- val + 2 ^ 63)) by lia.
      rewrite Z.mod_small by lia. lia.
  - apply Z.ltb_ge in E. rewrite Z.mod_small by lia. lia.
Qed.

Lemma commas_3 (c : ascii) (r : list ascii) :
  commas_from_right 3 (c :: r) = ","%char :: commas_from_right 0 (c :: r).
Proof. reflexivity. Qed.

Lemma group3_app (a : string) (x y z : ascii) :
  a ≠ "" →
  group3 (a +:+ String x (String y (String z ""))) =
    group3 a +:+ "," +:+ String x (String y (String z "")).
Proof.
  intros Ha. unfold group3. rewrite Str.chars_app, rev_app_distr. simpl.
  destruct (rev (Str.chars a)) as [|c r] eqn:E.
  - destruct a; [done|]. simpl in E. by apply app_eq_nil in E as [_ ?].
  - rewrite commas_3. simpl.
    rewrite !Str.of_chars_app. simpl. rewrite <- !Str.app_assoc.
    reflexivity.
Qed.

Lemma group3_small (n : Z) : 0 <= n < 1000 → group3 (Fmt.d n) = Fmt.d n.
Proof.
  intros Hn.
  apply (below_1000 (λ n, bool_decide (group3 (Fmt.d n) = Fmt.d n))) in Hn.
  - by apply bool_decide_eq_true in Hn.
  - vm_compute. reflexivity.
Qed.

Lemma d_nonempty (n : Z) : 0 <= n → Fmt.d n ≠ "".
Proof.
  intros Hn. unfold Fmt.d. destruct (n <? 0) eqn:E; [lia|].
  rewrite udec_S. destruct (n <? 10); [done|].
  destruct (Fmt.udec _ _); done.
Qed.

Lemma ScaleFmt_loop_S (fuel : nat) (tmag : Z) (out : string) :
  ScaleFmt_loop (S fuel) tmag out =
    let out := if Str.is_empty out then out else "," +:+ out in
    if tmag <? 1000 then Some (Fmt.d tmag +:+ out)
    else ScaleFmt_loop fuel (tmag / 1000) (Fmt.d0 3 (tmag mod 1000) +:+ out).
Proof. reflexivity. Qed.

(** The fuel handed to the loop is enough, and the loop groups the digits. *)
Lemma ScaleFmt_loop_fuel (fuel : nat) (n : Z) (out : string) :
  0 <= n → Z.log2 n < Z.of_nat fuel →
  ScaleFmt_loop fuel n out =
    Some (group3 (Fmt.d n) +:+ (if Str.is_empty out then out else "," +:+ out)).
Proof.
  revert n out. induction fuel as [|fuel IH]; intros n out Hn Hf.
  - pose proof (Z.log2_nonneg n). lia.
  - rewrite ScaleFmt_loop_S. cbv zeta.
    destruct (n <? 1000) eqn:E.
    + apply Z.ltb_lt in E. by rewrite group3_small by lia.
    + apply Z.ltb_ge in E.
      assert (0 <= n / 1000) by (apply Z.div_pos; lia).
      assert (Z.log2 (n / 1000) < Z.log2 n).
      { pose proof (log2_div10_lt n).
        assert (n / 1000 <= n / 10) by (apply Z.div_le_compat_l; lia).
        pose proof (Z.log2_le_mono (n / 1000) (n / 10)). lia. }
      rewrite IH by lia. f_equal.
      rewrite (d_split_1000 n) by lia.
      rewrite d0_3_digits by (apply Z.mod_pos_bound; lia).
      rewrite group3_app by (by apply d_nonempty).
      cbn [Str.is_empty]. rewrite !Str.app_cons, Str.app_nil_l.
      rewrite <- !Str.app_assoc. by rewrite !Str.app_cons, !Str.app_nil_l.
Qed.

Lemma TrimRight_cons_ne (a c : ascii) (s : string) :
  a ≠ c → Str.TrimRight (String a s) c = String a (Str.TrimRight s c).
Proof.
  intros Hne. simpl. destruct (Str.TrimRight s c); [|done].
  by rewrite decide_False.
Qed.

(** C6: for every int64 value and every exponent that indexes the table of
    powers of ten, [ScaleFmt] returns the rendering that the specification
    describes: the value split by truncated division into [value / 10^exp]
    and [value % 10^exp], the integer part with a comma every three digits,
    a non-zero fractional part zero-padded to [exp] digits with its trailing
    zeros stripped, a sign in front of negative values, and ["e"] followed
    by the exponent; the three examples of the specification follow. *)
Theorem ScaleFmt_renderScaled (val exp : Z) :
  is_int64 val → 0 <= exp < 20 →
  ScaleFmt val exp = Some (renderScaled val exp)
  ∧ ScaleFmt 123456789 7 = Some "12.3456789e7"
  ∧ ScaleFmt 0 7 = Some "0e7"
  ∧ ScaleFmt (-5000000) 7 = Some "-0.5e7".
Proof.
  intros Hv He. split; [|by vm_compute].
  unfold ScaleFmt, renderScaled. rewrite magnitude by done.
  destruct (exp <? 0) eqn:E1; [lia|]. destruct (20 <=? exp) eqn:E2; [lia|].
  cbn [orb]. rewrite exp10_pow by done. cbn [mbind option_bind].
  assert (0 < 10 ^ exp) as Hu by (apply Z.pow_pos_nonneg; lia).
  assert (Z.abs val / 10 ^ exp = Z.abs (val ÷ 10 ^ exp)) as Hq.
  { rewrite <- Z.quot_abs by lia. rewrite (Z.abs_eq (10 ^ exp)) by lia.
    symmetry. apply Z.quot_div_nonneg; lia. }
  assert (Z.abs val mod 10 ^ exp = Z.abs (Z.rem val (10 ^ exp))) as Hr.
  { rewrite <- Z.rem_abs by lia. rewrite (Z.abs_eq (10 ^ exp)) by lia.
    symmetry. apply Z.rem_mod_nonneg; lia. }
  rewrite Hq, Hr.
  rewrite ScaleFmt_loop_fuel by lia. cbn [mbind option_bind Str.is_empty].
  f_equal. rewrite Str.app_nil_r.
  assert (0 <= Z.abs (Z.rem val (10 ^ exp))) by lia.
  destruct (0 <? Z.abs (Z.rem val (10 ^ exp))) eqn:E3;
    destruct (Z.abs (Z.rem val (10 ^ exp)) =? 0) eqn:E4; try lia.
  - change ("." +:+ ?x) with (String "." x).
    rewrite TrimRight_cons_ne by done.
    destruct (val <? 0); rewrite <- ?Str.app_assoc; reflexivity.
  - destruct (val <? 0); rewrite ?Str.app_nil_l; reflexivity.
Qed.

Lemma ScaleFmt_renderScaled_witness :
  is_int64 (-1234567890123) ∧ 0 <= 7 < 20 ∧
  ScaleFmt (-1234567890123) 7 = Some "-123,456.7890123e7".
Proof.
  split; [unfold is_int64; lia|]. split; [lia|].
  destruct (ScaleFmt_renderScaled (-1234567890123) 7) as [H _];
    [unfold is_int64; lia|lia|].
  rewrite H. vm_compute. reflexivity.
Defined.

End ScaleFmt_correct.

(** ** [scanCode] *)

Section scanCode_facts.
Import Code.

Definition zeros4 : list byte := [zero; zero; zero; zero].

Example scanCode_usd :
  scanCode zeros4 (runes " USD") = (Str.chars "USD" ++ [zero], None).
Proof. vm_compute. reflexivity. Qed.

Example scanCode_escapes :
  scanCode zeros4 (runes "a\\\x20\x7") =
    (["a"; "\"; " "; "007"]%char, None).
Proof. vm_compute. reflexivity. Qed.

Example scanCode_too_long :
  scanCode zeros4 (runes "ABCDE") =
    (Str.chars "ABCD", Some (StrKeyError "AssetCode too long")).
Proof. vm_compute. reflexivity. Qed.

Example renderCode_ex :
  renderCode (["a"; "\"; " "; "007"; zero; zero]%char) = "a\\\x20\x07".
Proof. vm_compute. reflexivity. Qed.

Definition is_StrKeyError (e : error) : Prop :=
  match e with StrKeyError _ => True | _ => False end.

Lemma Fscanf_02x_error (ss : Reader) :
  match Fscanf_02x ss with
  | (_, Some e, _) => ¬ is_StrKeyError e
  | _ => True
  end.
Proof.
  induction ss as [|r ss IH]; simpl; [tauto|].
  case_bool_decide; [simpl; tauto|].
  destruct (IsSpace r); [done|].
  destruct (hexval r); [|simpl; tauto].
  destruct ss as [|r2 ss2]; [done|]. by destruct (hexval r2).
Qed.

(** A [return err] inside the loop never carries a [StrKeyError]. *)
Lemma scan_loop_Return (out : list byte) (ss : Reader) :
  match scan_loop out ss with
  | (_, _, _, Return e) => ¬ is_StrKeyError e
  | _ => True
  end.
Proof.
  revert ss. induction out as [|o out IH]; intros ss; [done|].
  cbn [scan_loop].
  destruct (ReadRune ss) as [[r err] ss1] eqn:E1.
  destruct (bool_decide (err = Some EOF) || IsSpace r); [done|].
  destruct ((r <=? 32) || (127 <=? r)); [done|].
  destruct (negb (bool_decide (r = 92))).
  { specialize (IH ss1). by destruct (scan_loop out ss1) as [[[? ?] ?] []]. }
  destruct (ReadRune ss1) as [[r' err'] ss2] eqn:E2.
  destruct err' as [e|].
  { destruct ss1; simpl in E2; simplify_eq. simpl. tauto. }
  destruct (negb (bool_decide (r' = 120))).
  { specialize (IH ss2). by destruct (scan_loop out ss2) as [[[? ?] ?] []]. }
  pose proof (Fscanf_02x_error ss2) as HF.
  destruct (Fscanf_02x ss2) as [[[b|] [e|]] ss3]; try done.
  - specialize (IH ss3). by destruct (scan_loop out ss3) as [[[? ?] ?] []].
  - simpl. tauto.
Qed.

(** C8 (the code departs from the claim): an unescaped control byte met
    before the buffer is full makes the loop store the invalid-character
    error and [break], but the [ReadRune] after the padding loop assigns
    [err] again. On ["a\001"] the call succeeds, on ["a\001b"] it reports
    "too long", and the invalid-character error is returned on no input
    at all. *)
Theorem scanCode_invalid_character_lost :
  scanCode zeros4 (runes "a" ++ [1]) = (["a"%char; zero; zero; zero], None)
  ∧ scanCode zeros4 (runes "a" ++ [1] ++ runes "b") =
      (["a"%char; zero; zero; zero], Some (StrKeyError "AssetCode too long"))
  ∧ ∀ out input,
      (scanCode out input).2 ≠
        Some (StrKeyError "Invalid character in AssetCode").
Proof.
  split; [by vm_compute|]. split; [by vm_compute|].
  intros out input. unfold scanCode.
  pose proof (scan_loop_Return out (skipspace input)) as HR.
  destruct (scan_loop out (skipspace input)) as [[[w rest] ss] [e|err]].
  - simpl. intros [= ->]. by apply HR.
  - destruct (ReadRune ss) as [[r err'] ?].
    destruct (negb (bool_decide (err' = Some EOF)) && negb (IsSpace r)); simpl; [|done].
    intros [= ?].
Qed.

End scanCode_facts.

(** ** Hexadecimal text *)

Section Hex_facts.

Lemma x02_pair (b : byte) :
  ∃ c1 c2 h l,
    Code.x02 b = String c1 (String c2 "") ∧
    Hex.digit_val c1 = Some h ∧ Hex.digit_val c2 = Some l ∧
    byte_of_Z (16 * h + l) = b ∧
    c1 ≠ "?"%char ∧ c2 ≠ "?"%char.
Proof.
  exists (Code.hexdigit (Z_of_byte b / 16)), (Code.hexdigit (Z_of_byte b mod 16)),
    (Z_of_byte b / 16), (Z_of_byte b mod 16).
  split; [done|].
  destruct b as [[] [] [] [] [] [] [] []]; vm_compute; repeat split; congruence.
Qed.

Lemma pairs_encode (bs : list byte) (rest : string) :
  Hex.pairs rest = Some [] → Hex.pairs (Hex.encode bs +:+ rest) = Some bs.
Proof.
  intros Hrest. induction bs as [|b bs IH]; [done|].
  destruct (x02_pair b) as (c1 & c2 & h & l & Hx & H1 & H2 & Hb & _).
  cbn [Hex.encode foldr]. fold (Hex.encode bs). rewrite Hx.
  rewrite <- Str.app_assoc, !Str.app_cons, Str.app_nil_l.
  cbn [Hex.pairs]. rewrite H1, H2, IH, Hb. done.
Qed.

Lemma skip_space_encode (b : byte) (bs : list byte) :
  Scan.skip_space (Hex.encode (b :: bs)) = Hex.encode (b :: bs).
Proof.
  destruct (x02_pair b) as (c1 & c2 & h & l & Hx & H1 & _).
  cbn [Hex.encode foldr]. rewrite Hx, !Str.app_cons. cbn [Scan.skip_space].
  destruct (Ascii.is_space c1) eqn:E; [|done].
  destruct c1 as [[] [] [] [] [] [] [] []]; vm_compute in E, H1; congruence.
Qed.

Lemma skip_space_blank (s : string) :
  Scan.skip_space (" " +:+ s) = Scan.skip_space s.
Proof. reflexivity. Qed.

(** Hexadecimal digits are scanned back to the bytes they render. *)
Lemma decode_encode (b : byte) (bs : list byte) :
  Hex.decode (" " +:+ Hex.encode (b :: bs)) = Scan.Ok (b :: bs).
Proof.
  unfold Hex.decode. rewrite skip_space_blank, skip_space_encode.
  rewrite <- (Str.app_nil_r (Hex.encode (b :: bs))).
  by rewrite pairs_encode.
Qed.

Lemma ends_with_qmark_app (s : string) (c : ascii) (t : string) :
  Scan.ends_with_qmark (s +:+ String c t) = Scan.ends_with_qmark (String c t).
Proof.
  induction s as [|a s IH]; [done|]. rewrite Str.app_cons.
  cbn [Scan.ends_with_qmark]. rewrite IH.
  destruct s; by rewrite ?Str.app_cons.
Qed.

Lemma ends_with_qmark_encode (b : byte) (bs : list byte) (pre : string) :
  Scan.ends_with_qmark (pre +:+ Hex.encode (b :: bs)) = false.
Proof.
  revert b pre. induction bs as [|b' bs IH]; intros b pre.
  - destruct (x02_pair b) as (c1 & c2 & h & l & Hx & _ & _ & _ & _ & Hq).
    cbn [Hex.encode foldr]. rewrite Hx, Str.app_nil_r.
    rewrite ends_with_qmark_app. cbn. by rewrite bool_decide_eq_false.
  - cbn [Hex.encode foldr]. fold (Hex.encode (b' :: bs)).
    rewrite Str.app_assoc. apply IH.
Qed.

(** The runes and the word of a text that starts with an ASCII byte. *)
Lemma runes_ascii (c : ascii) (s : string) :
  Z_of_byte c < 0x80 → Utf8.runes (String c s) = Z_of_byte c :: Utf8.runes s.
Proof.
  intros Hc. unfold Utf8.runes. cbn [Utf8.decode]. unfold Utf8.DecodeRune.
  assert (Utf8.lead c = 1%nat) as ->; [|done].
  unfold Utf8.lead. destruct (Z.ltb_spec (Z_of_byte c) 128); [done|lia].
Qed.

Lemma Z_of_byte_range (c : ascii) : 0 <= Z_of_byte c < 256.
Proof.
  unfold Z_of_byte. pose proof (N_ascii_bounded c). lia.
Qed.

Lemma byte_of_Z_of_byte (b : byte) : byte_of_Z (Z_of_byte b) = b.
Proof.
  unfold byte_of_Z, Z_of_byte. pose proof (N_ascii_bounded b).
  rewrite Z.mod_small by lia. rewrite N2Z.id. apply ascii_N_embedding.
Qed.

Lemma EncodeRune_ascii (c : ascii) :
  Z_of_byte c < 0x80 → Utf8.EncodeRune (Z_of_byte c) = String c "".
Proof.
  intros Hc. pose proof (Z_of_byte_range c). unfold Utf8.EncodeRune.
  destruct (Z.leb_spec 0 (Z_of_byte c)); [|lia].
  destruct (Z.leb_spec (Z_of_byte c) 127); [|lia].
  cbn [andb]. by rewrite byte_of_Z_of_byte.
Qed.

Lemma is_space_IsSpace (c : ascii) :
  Ascii.is_space c = true →
  Z_of_byte c < 0x80 ∧ (c = "010"%char ∨ IsSpace (Z_of_byte c) = true).
Proof.
  destruct c as [[] [] [] [] [] [] [] []]; intros E; try discriminate E;
    (split; [by vm_compute|]); first [by left|by right].
Qed.

Lemma digit_val_ascii (c : ascii) (h : Z) :
  Hex.digit_val c = Some h →
  Z_of_byte c < 0x80 ∧ IsSpace (Z_of_byte c) = false ∧ Z_of_byte c ≠ 10.
Proof.
  destruct c as [[] [] [] [] [] [] [] []]; intros E; try discriminate E;
    by vm_compute.
Qed.

Lemma word_blank (c : ascii) (s : string) :
  Ascii.is_space c = true →
  Scan.word (String c s) =
    if bool_decide (c = "010"%char) then None else Scan.word s.
Proof.
  intros E. destruct (is_space_IsSpace c E) as [Hc Hs].
  unfold Scan.word. rewrite runes_ascii by done. cbn [Scan.SkipSpace].
  destruct (decide (c = "010"%char)) as [->|Hn].
  - done.
  - rewrite (bool_decide_eq_false_2 (c = "010"%char)) by done.
    destruct Hs as [->|Hs]; [done|]. rewrite Hs.
    rewrite bool_decide_eq_false_2; [done|].
    intros Hz. apply Hn. rewrite <- (byte_of_Z_of_byte c), Hz. done.
Qed.

Lemma word_start (c : ascii) (s : string) :
  Z_of_byte c < 0x80 → IsSpace (Z_of_byte c) = false → Z_of_byte c ≠ 10 →
  Scan.word (String c s) =
    Some (String c (Utf8.encode (Scan.token (Utf8.runes s)))).
Proof.
  intros Hc Hs Hn. unfold Scan.word. rewrite runes_ascii by done.
  cbn [Scan.SkipSpace]. rewrite bool_decide_eq_false_2 by done.
  rewrite Hs. cbn [Scan.token]. rewrite Hs. cbn [Utf8.encode foldr].
  by rewrite EncodeRune_ascii.
Qed.

(** A value whose first word is ["0"] is not hexadecimal text. *)
Lemma decode_zero_word (val : string) :
  Scan.word val = Some "0" → ∃ msg, Hex.decode val = Scan.Err msg.
Proof.
  unfold Hex.decode. induction val as [|c s IH]; [done|].
  cbn [Scan.skip_space]. destruct (Ascii.is_space c) eqn:E.
  - rewrite word_blank by done. by case_bool_decide.
  - destruct (Hex.digit_val c) as [h|] eqn:Ed.
    + destruct (digit_val_ascii c h Ed) as (Hc & Hs & Hn).
      rewrite word_start by done. intros [= -> Hrest].
      destruct s as [|c2 s2]; [by eexists|].
      cbn [Hex.pairs]. rewrite Ed.
      destruct (Hex.digit_val c2) as [l|] eqn:Ed2; [|by eexists].
      destruct (digit_val_ascii c2 l Ed2) as (Hc2 & Hs2 & Hn2).
      rewrite runes_ascii in Hrest by done. cbn [Scan.token] in Hrest.
      rewrite Hs2 in Hrest. cbn [Utf8.encode foldr] in Hrest.
      rewrite EncodeRune_ascii in Hrest by done. done.
    + intros _. destruct s as [|c2 s2]; cbn [Hex.pairs]; rewrite Ed;
        by eexists.
Qed.

End Hex_facts.

(** ** The parser, case by case *)

Section Parse_facts.
Context {sc : Scalar} {ext : External}.

Lemma kvs_get_Some (xs : xdrScan) (key : string) (lv : lineval) :
  xs_kvs xs !! key = Some lv → kvs_get xs key = lv ∧ kvs_ok xs key = true.
Proof.
  intros Hk. unfold kvs_get, kvs_ok. rewrite Hk. split; [done|].
  by apply bool_decide_eq_true.
Qed.

Lemma kvs_get_None (xs : xdrScan) (key : string) :
  xs_kvs xs !! key = None →
  kvs_get xs key = mkLineval 0 "" ∧ kvs_ok xs key = false.
Proof.
  intros Hk. unfold kvs_get, kvs_ok. rewrite Hk. split; [done|].
  apply bool_decide_eq_false. by intros [? ?].
Qed.

(** C9: an empty variable-length byte sequence is written as ["0 bytes"];
    a value whose word is ["0"] is read as the empty sequence, without an
    error; and the hexadecimal text of a non-empty sequence is read back
    as the same bytes, without an error or a help request. *)
Theorem VecOpaque_text :
  PrintVecOpaque [] = "0 bytes"
  ∧ (∀ name old xs ln val,
       xs_kvs xs !! name = Some (mkLineval ln val) →
       Scan.word val = Some "0" →
       scan_Marshal TVecOpaque name (VBytes old) xs =
         (VBytes [], kvs_delete name xs))
  ∧ (∀ name old xs ln bs,
       bs ≠ [] →
       xs_kvs xs !! name = Some (mkLineval ln (" " +:+ PrintVecOpaque bs)) →
       scan_Marshal TVecOpaque name (VBytes old) xs =
         (VBytes bs, kvs_delete name xs)).
Proof.
  split; [done|]. split.
  - intros name old xs ln val Hk Hw. cbn [scan_Marshal]. unfold scan_VecOpaque.
    destruct (kvs_get_Some _ _ _ Hk) as [-> ->]. cbn [negb lv_val].
    destruct (decode_zero_word val Hw) as [msg ->]. rewrite Hw. cbn [default].
    by rewrite bool_decide_eq_true_2.
  - intros name old xs ln bs Hbs Hk. cbn [scan_Marshal]. unfold scan_VecOpaque.
    destruct (kvs_get_Some _ _ _ Hk) as [-> ->]. cbn [negb lv_val].
    destruct bs as [|b bs]; [done|]. unfold PrintVecOpaque.
    rewrite bool_decide_eq_false_2 by done.
    by rewrite decode_encode, ends_with_qmark_encode.
Qed.

(** The equations of [scan_Marshal] at the aggregates. *)
Lemma scan_Marshal_TVec (bound : Z) (t : xtype) (name : string)
    (l : list xval) (xs : xdrScan) :
  scan_Marshal (TVec bound t) name (VVec l) xs =
    let '(size, xs) := scan_Size name bound xs in
    let '(l, xs) := scan_XdrMarshalN t name (Z.to_nat size) O l xs in
    (VVec l, kvs_delete name xs).
Proof.
  cbn [scan_Marshal]. destruct (scan_Size name bound xs) as [size xs1].
  match goal with |- (let '(_, _) := ?g _ _ _ _ in _) = _ => set (go := g) end.
  assert (∀ n i l xs, go n i l xs = scan_XdrMarshalN t name n i l xs) as ->;
    [|done].
  clear. intros n. induction n as [|n IH]; intros i l xs; [done|].
  cbn [scan_XdrMarshalN]. simpl. fold go.
  destruct (scan_Marshal t _ _ xs) as [e xs0]. by rewrite IH.
Qed.

Lemma scan_Marshal_TStruct (fields : list (string * xtype)) (name : string)
    (fs : list xval) (xs : xdrScan) :
  scan_Marshal (TStruct fields) name (VStruct fs) xs =
    let '(fs, xs) := scan_fields name fields fs xs in
    (VStruct fs, kvs_delete name xs).
Proof.
  cbn [scan_Marshal].
  match goal with |- (let '(_, _) := ?g _ _ _ in _) = _ => set (go := g) end.
  assert (∀ fields fs xs, go fields fs xs = scan_fields name fields fs xs) as ->;
    [|done].
  clear. intros fields. induction fields as [|[f tf] fields IH]; intros fs xs;
    [by destruct fs|].
  destruct fs as [|vf fs]; [done|]. cbn [scan_fields]. simpl. fold go.
  destruct (scan_Marshal tf _ _ xs) as [e xs0]. by rewrite IH.
Qed.

Lemma scan_Marshal_TUnion tagname names arms name tag body xs :
  scan_Marshal (TUnion tagname names arms) name (VUnion tag body) xs =
    let '(tag', xs) :=
      scan_value true (childName name tagname) (Enum_Scan names) tag xs in
    let body := if decide (tag' = tag) then body else None in
    let '(body, xs) :=
      match find_arm tag' arms with
      | None => (None, xs)
      | Some (armname, ta) =>
          let '(b, xs) :=
            scan_Marshal ta (childName name armname)
              (default (zero_of ta) body) xs in
          (Some b, xs)
      end in
    (VUnion tag' body, kvs_delete name xs).
Proof.
  cbn [scan_Marshal]. destruct (scan_value _ _ _ _ xs) as [tag' xs1].
  cbv zeta.
  match goal with |- (let '(_, _) := ?g _ in _) = _ => set (go := g) end.
  assert (go arms =
    match find_arm tag' arms with
    | None => (None, xs1)
    | Some (armname, ta) =>
        let '(b, xs) :=
          scan_Marshal ta (childName name armname)
            (default (zero_of ta) (if decide (tag' = tag) then body else None))
            xs1 in
        (Some b, xs)
    end) as ->; [|done].
  induction arms as [|[n [armname ta]] arms IH]; [done|].
  cbn [find_arm]. simpl. fold go. by destruct (decide (n = tag')).
Qed.

Lemma scan_Marshal_TEnvelope names arms name tag body xs :
  scan_Marshal (TEnvelope names arms) name (VUnion tag body) xs =
    let '(tag', xs) :=
      scan_value true (name +:+ dot name +:+ "type") (Enum_Scan names) tag xs in
    let body := if decide (tag' = tag) then body else None in
    let '(body, xs) :=
      match find_arm tag' arms with
      | None => (None, xs)
      | Some ta =>
          let '(b, xs) := scan_Marshal ta name (default (zero_of ta) body) xs in
          (Some b, xs)
      end in
    (VUnion tag' body, kvs_delete name xs).
Proof.
  cbn [scan_Marshal]. destruct (scan_value _ _ _ _ xs) as [tag' xs1].
  cbv zeta.
  match goal with |- (let '(_, _) := ?g _ in _) = _ => set (go := g) end.
  assert (go arms =
    match find_arm tag' arms with
    | None => (None, xs1)
    | Some ta =>
        let '(b, xs) :=
          scan_Marshal ta name
            (default (zero_of ta) (if decide (tag' = tag) then body else None))
            xs1 in
        (Some b, xs)
    end) as ->; [|done].
  induction arms as [|[n ta] arms IH]; [done|].
  cbn [find_arm]. simpl. fold go. by destruct (decide (n = tag')).
Qed.

Lemma scan_Marshal_TPtr t name p xs :
  scan_Marshal (TPtr t) name (VPtr p) xs =
    let depth := xs_ptrDepth xs in
    let '(b, xs) := scan_present name (set_ptrDepth (S depth) xs) in
    let p := if b then Some (default (zero_of t) p) else None in
    let '(p, xs) :=
      match p with
      | Some i => let '(i, xs) := scan_Marshal t name i xs in (Some i, xs)
      | None => (None, xs)
      end in
    (VPtr p, set_ptrDepth depth (kvs_delete name xs)).
Proof. reflexivity. Qed.

Lemma scan_XdrMarshalN_length t name n i l xs :
  length (scan_XdrMarshalN t name n i l xs).1 = n.
Proof.
  revert i l xs. induction n as [|n IH]; intros i l xs; [done|].
  cbn [scan_XdrMarshalN].
  destruct (scan_Marshal t _ _ xs) as [e xs1].
  specialize (IH (S i) (tail l) xs1).
  destruct (scan_XdrMarshalN t name n (S i) (tail l) xs1) as [r xs2].
  simpl in *. by rewrite IH.
Qed.

(** Errors are only ever appended. *)
Lemma scan_value_err {A} q name (scanned : string → Scan.result A) old xs :
  xs_err xs `prefix_of` xs_err (scan_value q name scanned old xs).2.
Proof.
  unfold scan_value. destruct (negb (kvs_ok xs name)); [done|].
  destruct (scanned _); destruct (q && _); simpl; try done;
    by apply prefix_app_r.
Qed.

Lemma scan_VecOpaque_err name old xs :
  xs_err xs `prefix_of` xs_err (scan_VecOpaque name old xs).2.
Proof.
  unfold scan_VecOpaque. destruct (negb (kvs_ok xs name)); [done|].
  destruct (Hex.decode _).
  - by destruct (Scan.ends_with_qmark _).
  - case_bool_decide; simpl; [done|]. by apply prefix_app_r.
Qed.

Lemma scan_Size_err name bound xs :
  xs_err xs `prefix_of` xs_err (scan_Size name bound xs).2.
Proof.
  unfold scan_Size. destruct (_ <=? bound); simpl; [done|].
  by apply prefix_app_r.
Qed.

Lemma scan_present_err name xs :
  xs_err xs `prefix_of` xs_err (scan_present name xs).2.
Proof.
  unfold scan_present.
  destruct (Scan.word _) as [w|].
  - repeat case_bool_decide; simpl; try done. by apply prefix_app_r.
  - destruct (kvs_ok xs name); [done|]. by case_bool_decide.
Qed.

Lemma scan_sourceAccount_err name k xs :
  xs_err xs `prefix_of` xs_err (scan_sourceAccount name k xs).2.
Proof.
  unfold scan_sourceAccount. destruct (negb (kvs_ok xs _)); [done|].
  pose proof (scan_value_err true (shortened name) AccountID_Scan
    (mkPublicKey PUBLIC_KEY_TYPE_ED25519 (replicate 32 zero)) xs) as Hp.
  destruct (scan_value _ _ _ _ xs) as [pk xs1].
  case_decide; simpl in *; [done|].
  etrans; [done|]. by apply prefix_app_r.
Qed.

(** The node kinds that [Marshal] leaves as soon as their key is
    missing ([if !ok { return }]). *)
Definition returns_without_key (t : xtype) : bool :=
  match t with
  | TLeaf _ _ | TEnum _ | TInt64 | TArrayOpaque _ | TVecOpaque
  | TAccountID => true
  | _ => false
  end.

Definition lookup_name (t : xtype) (name : string) : string :=
  match t with
  | TArrayOpaque n =>
      if is_sourceAccountEd25519 n name then shortened name else name
  | _ => name
  end.

Lemma scan_Marshal_without_key t name v xs :
  returns_without_key t = true →
  xs_kvs xs !! lookup_name t name = None →
  scan_Marshal t name v xs = (v, xs).
Proof.
  intros Ht Hk. apply kvs_get_None in Hk as [_ Hok].
  destruct t; try done; destruct v; try done; cbn [scan_Marshal lookup_name] in *;
    unfold scan_value, scan_VecOpaque, scan_sourceAccount;
    try (by rewrite Hok).
  destruct (is_sourceAccountEd25519 n name); by rewrite Hok.
Qed.

(** C10: when the [.len] key of a bounded size is missing from the line
    table, the zero [lineval] is scanned: the stored size is 0 and no
    error is recorded, so a sequence loses the elements it had. The leaf
    kinds, in contrast, return with their content unchanged when their
    key is missing. *)
Theorem Size_without_len_key (bound : Z) (t : xtype) (name : string)
    (l : list xval) (xs : xdrScan) :
  0 <= bound →
  xs_kvs xs !! (name +:+ "." +:+ ps_len) = None →
  scan_Size name bound xs = (0, kvs_delete name xs)
  ∧ scan_Marshal (TVec bound t) name (VVec l) xs =
      (VVec [], kvs_delete name (kvs_delete name xs))
  ∧ (∀ t' name' v,
       returns_without_key t' = true →
       xs_kvs xs !! lookup_name t' name' = None →
       scan_Marshal t' name' v xs = (v, xs)).
Proof.
  intros Hb Hk.
  assert (scan_Size name bound xs = (0, kvs_delete name xs)) as HS.
  { unfold scan_Size. destruct (kvs_get_None _ _ Hk) as [-> _].
    cbn [lv_val]. rewrite Sscan_uint32_empty. cbn [from_option].
    destruct (0 <=? bound) eqn:E; [done|]. lia. }
  split; [done|]. split.
  - by rewrite scan_Marshal_TVec, HS.
  - intros t' name' v. apply scan_Marshal_without_key.
Qed.

(** C2 (amended): a [.len] value that scans as a [uint32] above the bound
    stores the bound and records one error, at the line of the [.len]
    key; the traversal goes on: the sequence gets as many elements as the
    bound, every one of them scanned, and the errors recorded so far stay
    in front. A [.len] value that does not scan as a [uint32], as a
    number of 2^32 or more, leaves the size at 0 without any error: the
    result of [fmt.Sscan] is dropped. *)
Theorem Size_above_bound (bound : Z) (t : xtype) (name : string)
    (l : list xval) (xs : xdrScan) (ln : nat) (val : string) :
  xs_kvs xs !! (name +:+ "." +:+ ps_len) = Some (mkLineval ln val) →
  (∀ size,
     Sscan_uint32 val = Some size →
     bound < size →
     let msg := exceeds_message name size bound in
     scan_Size name bound xs = (bound, kvs_delete name (report ln msg xs))
     ∧ xs_err (scan_Size name bound xs).2 = xs_err xs ++ [(ln, msg)]
     ∧ ∃ l' xs',
         scan_Marshal (TVec bound t) name (VVec l) xs = (VVec l', xs')
         ∧ (l', xs') =
             (let '(l', xs') :=
                scan_XdrMarshalN t name (Z.to_nat bound) 0 l
                  (kvs_delete name (report ln msg xs)) in
              (l', kvs_delete name xs'))
         ∧ length l' = Z.to_nat bound)
  ∧ (Sscan_uint32 val = None →
     0 <= bound →
     scan_Size name bound xs = (0, kvs_delete name xs)
     ∧ scan_Marshal (TVec bound t) name (VVec l) xs =
         (VVec [], kvs_delete name (kvs_delete name xs))).
Proof.
  intros Hk. split.
  - intros size Hs Hlt msg.
    assert (scan_Size name bound xs =
              (bound, kvs_delete name (report ln msg xs))) as HS.
    { unfold scan_Size. destruct (kvs_get_Some _ _ _ Hk) as [-> _].
      cbn [lv_val lv_line]. rewrite Hs. cbn [from_option id].
      destruct (size <=? bound) eqn:E; [lia|]. reflexivity. }
    split; [exact HS|]. split; [by rewrite HS|].
    rewrite scan_Marshal_TVec, HS.
    pose proof (scan_XdrMarshalN_length t name (Z.to_nat bound) 0 l
      (kvs_delete name (report ln msg xs))) as Hlen.
    destruct (scan_XdrMarshalN _ _ _ _ _ _) as [l' xs'].
    by exists l', (kvs_delete name xs').
  - intros Hs Hb.
    assert (scan_Size name bound xs = (0, kvs_delete name xs)) as HS.
    { unfold scan_Size. destruct (kvs_get_Some _ _ _ Hk) as [-> _].
      cbn [lv_val lv_line]. rewrite Hs. cbn [from_option].
      destruct (0 <=? bound) eqn:E; [done|]. lia. }
    split; [exact HS|]. by rewrite scan_Marshal_TVec, HS.
Qed.

(** Some key of the table starts with [prefix]. *)
Definition some_key_has_prefix (prefix : string) (xs : xdrScan) : Prop :=
  map_Exists (λ f _, Str.HasPrefix f prefix = true) (xs_kvs xs).

(** C5 (amended): the presence of an optional field comes from the word
    of its [_present] pseudo-key: ["false"] clears it, any other word sets
    it, and a word that is neither ["true"] nor ["false"] records an
    error at the line of the key. When the value of that key has no word,
    as when the key is missing, nothing is recorded and the field is
    present when its own name is a key of the table or when some key
    starts with the dotted prefix, and absent otherwise. The inner node
    is scanned whenever the field ends up present; clearing the field
    leaves nothing to scan. *)
Theorem Optional_presence (t : xtype) (name : string) (p : option xval)
    (xs : xdrScan) :
  let xs1 := set_ptrDepth (S (xs_ptrDepth xs)) xs in
  let field := name +:+ present (S (xs_ptrDepth xs)) in
  let val := lv_val (kvs_get xs field) in
  let b := (scan_present name xs1).1 in
  let xs2 := (scan_present name xs1).2 in
  (∀ w, Scan.word val = Some w →
     b = negb (bool_decide (w = "false"))
     ∧ xs2 =
         if bool_decide (w = "false") || bool_decide (w = "true") then xs1
         else report (lv_line (kvs_get xs field))
                (field +:+ " (" +:+ w +:+ ") must be true or false") xs1)
  ∧ (Scan.word val = None →
     b = kvs_ok xs name || bool_decide (some_key_has_prefix (name +:+ ".") xs)
     ∧ xs2 = xs1)
  ∧ (xs_kvs xs !! field = None → Scan.word val = None)
  ∧ scan_Marshal (TPtr t) name (VPtr p) xs =
      (if b then
         let '(i, xs3) := scan_Marshal t name (default (zero_of t) p) xs2 in
         (VPtr (Some i), set_ptrDepth (xs_ptrDepth xs) (kvs_delete name xs3))
       else
         (VPtr None, set_ptrDepth (xs_ptrDepth xs) (kvs_delete name xs2))).
Proof.
  intros xs1 field val b xs2.
  assert (scan_present name xs1 =
    match Scan.word val with
    | Some w =>
        if bool_decide (w = "false") then (false, xs1)
        else if bool_decide (w = "true") then (true, xs1)
        else (true, report (lv_line (kvs_get xs field))
                      (field +:+ " (" +:+ w +:+ ") must be true or false") xs1)
    | None =>
        (kvs_ok xs name || bool_decide (some_key_has_prefix (name +:+ ".") xs),
         xs1)
    end) as Hsp.
  { unfold scan_present.
    change (xs_ptrDepth xs1) with (S (xs_ptrDepth xs)). fold field.
    change (kvs_get xs1 field) with (kvs_get xs field). fold val.
    change (kvs_ok xs1 name) with (kvs_ok xs name).
    change (xs_kvs xs1) with (xs_kvs xs).
    destruct (Scan.word val) as [w|]; [done|].
    destruct (kvs_ok xs name); [done|]. cbn [orb].
    unfold some_key_has_prefix. by case_bool_decide. }
  split; [|split; [|split]].
  - intros w Hw. subst b xs2. rewrite Hsp, Hw.
    repeat case_bool_decide; simplify_eq; done.
  - intros Hw. subst b xs2. by rewrite Hsp, Hw.
  - intros Hk. subst val. unfold kvs_get. by rewrite Hk.
  - rewrite scan_Marshal_TPtr. cbv zeta. fold xs1. subst b xs2.
    destruct (scan_present name xs1) as [b xs2]. cbn [fst snd].
    destruct b; [|done]. by destruct (scan_Marshal t name _ xs2).
Qed.

End Parse_facts.

(** ** The generator, case by case *)

Section Generate_facts.
Context {sc : Scalar} {ext : External}.

(** The symbols between the parentheses of a help line. *)
Definition comma_separated (syms : list string) : string :=
  match syms with
  | [] => ""
  | s :: r => s +:+ foldr (λ s acc, ", " +:+ s +:+ acc) "" r
  end.

(** The symbols of an enum by ascending ordinal. *)
Definition ordinal_le (a b : Z * string) : Prop := a.1 <= b.1.

Global Instance ordinal_le_dec : RelDecision ordinal_le.
Proof. intros a b. unfold ordinal_le. apply _. Defined.

Definition ascending (names : gmap Z string) : list string :=
  snd <$> merge_sort ordinal_le (map_to_list names).

Lemma Fprintf_Fprintf (a b : string) (xp : txStringCtx) :
  Fprintf b (Fprintf a xp) = Fprintf (a +:+ b) xp.
Proof. unfold Fprintf. simpl. by rewrite Str.app_assoc. Qed.

Lemma Fprintf_empty (xp : txStringCtx) : Fprintf "" xp = xp.
Proof. unfold Fprintf. rewrite Str.app_nil_r. by destruct xp. Qed.

Lemma help_fold_rest (l : list (Z * string)) (xp : txStringCtx) :
  foldl help_step (xp, true) l =
    (Fprintf (foldr (λ s acc, ", " +:+ s +:+ acc) "" l.*2) xp, true).
Proof.
  revert xp. induction l as [|[k sym] l IH]; intros xp.
  - by rewrite Fprintf_empty.
  - cbn [foldl help_step]. rewrite IH, Fprintf_Fprintf. simpl.
    by rewrite <- Str.app_assoc.
Qed.

Lemma help_fold (l : list (Z * string)) (xp : txStringCtx) :
  (foldl help_step (xp, false) l).1 = Fprintf (comma_separated l.*2) xp.
Proof.
  destruct l as [|[k sym] l]; [by rewrite Fprintf_empty|].
  cbn [foldl help_step]. by rewrite help_fold_rest, Fprintf_Fprintf.
Qed.

Lemma str_Marshal_TEnum names name n xp :
  str_Marshal (TEnum names) name (VInt n) xp = str_Enum name names n xp.
Proof. reflexivity. Qed.

(** C7 (amended): when the help query answers true for an enum field, the
    line written is the name, the symbol of the value and, in parentheses,
    the symbols of the table separated by commas, in the order in which
    the run time ranges over the map; every symbol of the table appears
    exactly once, as the range visits every entry once. *)
Theorem Enum_help (names : gmap Z string) (name : string) (n : Z)
    (xp : txStringCtx) :
  getHelp (xp_ann xp) name = true →
  map_range names ≡ₚ map_to_list names →
  str_Marshal (TEnum names) name (VInt n) xp =
    Fprintf (name +:+ ": " +:+ Enum_String names n +:+ " (" +:+
             comma_separated (map_range names).*2 +:+ ")
") xp
  ∧ (map_range names).*2 ≡ₚ ascending names.
Proof.
  intros Hhelp Hperm. split.
  - rewrite str_Marshal_TEnum. unfold str_Enum. rewrite Hhelp.
    pose proof (help_fold (map_range names)
      (Fprintf (name +:+ ": " +:+ Enum_String names n +:+ " (") xp)) as Hf.
    destruct (foldl help_step _ _) as [xp' b]. cbn [fst] in Hf. subst xp'.
    rewrite !Fprintf_Fprintf. f_equal.
    by rewrite <- !Str.app_assoc.
  - unfold ascending. rewrite Hperm.
    apply fmap_Permutation. symmetry. apply merge_sort_Permutation.
Qed.

End Generate_facts.

(** ** The line table *)

(** ** UTF-8 and the lines of a text *)

Section Utf8_facts.
Import Utf8.

Lemma in_range_spec lo hi b :
  in_range lo hi b = true ↔ lo <= Z_of_byte b <= hi.
Proof. unfold in_range. rewrite andb_true_iff, !Z.leb_le. done. Qed.

Lemma Z_of_byte_newline (b : byte) : Z_of_byte b = 10 ↔ b = "010"%char.
Proof.
  split; [|by intros ->]. intros E.
  rewrite <- (byte_of_Z_of_byte b), E. done.
Qed.

Lemma lead_spec (b : byte) :
  match lead b with
  | 0%nat => 0x80 <= Z_of_byte b
  | 1%nat => Z_of_byte b < 0x80
  | 2%nat => 0xC2 <= Z_of_byte b <= 0xDF
  | 3%nat => 0xE0 <= Z_of_byte b <= 0xEF
  | 4%nat => 0xF0 <= Z_of_byte b <= 0xF4
  | _ => False
  end.
Proof.
  unfold lead. destruct (Z.ltb_spec (Z_of_byte b) 128); [done|].
  destruct (in_range 194 223 b) eqn:E2; [by apply in_range_spec|].
  destruct (in_range 224 239 b) eqn:E3; [by apply in_range_spec|].
  destruct (in_range 240 244 b) eqn:E4; [by apply in_range_spec|]. done.
Qed.

Lemma second_spec (p0 b1 : byte) :
  second p0 b1 = true →
  0x80 <= Z_of_byte b1 <= 0xBF
  ∧ (Z_of_byte p0 = 0xE0 → 0xA0 <= Z_of_byte b1)
  ∧ (Z_of_byte p0 = 0xED → Z_of_byte b1 <= 0x9F)
  ∧ (Z_of_byte p0 = 0xF0 → 0x90 <= Z_of_byte b1)
  ∧ (Z_of_byte p0 = 0xF4 → Z_of_byte b1 <= 0x8F).
Proof.
  unfold second, accept_lo, accept_hi. intros H%in_range_spec. revert H.
  destruct (Z.eqb_spec (Z_of_byte p0) 224), (Z.eqb_spec (Z_of_byte p0) 240),
    (Z.eqb_spec (Z_of_byte p0) 237), (Z.eqb_spec (Z_of_byte p0) 244); lia.
Qed.

Lemma cont_spec (b : byte) : cont b = true → 0x80 <= Z_of_byte b <= 0xBF.
Proof. apply in_range_spec. Qed.

Lemma second_newline (p0 : byte) : second p0 "010" = false.
Proof.
  destruct (second p0 "010") eqn:E; [|done].
  apply second_spec in E as [E _]. change (Z_of_byte "010") with 10 in E. lia.
Qed.

Lemma cont_newline : cont "010" = false.
Proof. reflexivity. Qed.

(** The cases of [DecodeRune] at a text that is not empty. *)
Inductive head_shape (b : byte) (s : string) : rune * nat → Prop :=
  | head_ascii :
      Z_of_byte b < 0x80 → head_shape b s (Z_of_byte b, 1%nat)
  | head_two b1 s' :
      s = String b1 s' → lead b = 2%nat → second b b1 = true →
      head_shape b s
        ((Z_of_byte b - 0xC0) * 64 + (Z_of_byte b1 - 0x80), 2%nat)
  | head_three b1 b2 s' :
      s = String b1 (String b2 s') → lead b = 3%nat →
      second b b1 = true → cont b2 = true →
      head_shape b s
        ((Z_of_byte b - 0xE0) * 4096 + (Z_of_byte b1 - 0x80) * 64
         + (Z_of_byte b2 - 0x80), 3%nat)
  | head_four b1 b2 b3 s' :
      s = String b1 (String b2 (String b3 s')) → lead b = 4%nat →
      second b b1 = true → cont b2 = true → cont b3 = true →
      head_shape b s
        ((Z_of_byte b - 0xF0) * 262144 + (Z_of_byte b1 - 0x80) * 4096
         + (Z_of_byte b2 - 0x80) * 64 + (Z_of_byte b3 - 0x80), 4%nat)
  | head_invalid :
      0x80 <= Z_of_byte b → head_shape b s (RuneError, 1%nat).

Lemma DecodeRune_shape (b : byte) (s : string) :
  head_shape b s (DecodeRune (String b s)).
Proof.
  unfold DecodeRune. pose proof (lead_spec b) as Hl.
  destruct (lead b) as [|[|[|[|[|?]]]]] eqn:El; [| | | | |done].
  - by apply head_invalid.
  - by apply head_ascii.
  - destruct s as [|b1 s']; [apply head_invalid; lia|].
    destruct (second b b1) eqn:E1; [by eapply head_two|apply head_invalid; lia].
  - destruct s as [|b1 [|b2 s']]; try (apply head_invalid; lia).
    destruct (second b b1) eqn:E1, (cont b2) eqn:E2; cbn [andb];
      try (apply head_invalid; lia). by eapply head_three.
  - destruct s as [|b1 [|b2 [|b3 s']]]; try (apply head_invalid; lia).
    destruct (second b b1) eqn:E1, (cont b2) eqn:E2, (cont b3) eqn:E3;
      cbn [andb]; try (apply head_invalid; lia). by eapply head_four.
Qed.

Lemma DecodeRune_newline (b : byte) (s : string) :
  (DecodeRune (String b s)).1 = 10 ↔ b = "010"%char.
Proof.
  split; [|by intros ->].
  destruct (DecodeRune_shape b s) as [Hb|b1 s' -> Hl H1|b1 b2 s' -> Hl H1 H2
    |b1 b2 b3 s' -> Hl H1 H2 H3|Hb]; cbn [fst]; intros E.
  - by apply Z_of_byte_newline.
  - pose proof (lead_spec b) as Hs. rewrite Hl in Hs. cbv beta iota in Hs.
    apply second_spec in H1 as [? _]. lia.
  - pose proof (lead_spec b) as Hs. rewrite Hl in Hs. cbv beta iota in Hs.
    apply second_spec in H1 as (? & ? & ? & ? & ?). apply cont_spec in H2. lia.
  - pose proof (lead_spec b) as Hs. rewrite Hl in Hs. cbv beta iota in Hs.
    apply second_spec in H1 as (? & ? & ? & ? & ?). apply cont_spec in H2, H3.
    lia.
  - done.
Qed.

Lemma not_newline_cont (b : byte) :
  0x80 <= Z_of_byte b → b ≠ "010"%char.
Proof. intros Hb ->. change (Z_of_byte "010") with 10 in Hb. lia. Qed.

Lemma DecodeRune_size (b : byte) (s : string) :
  (1 <= (DecodeRune (String b s)).2 <= 4)%nat
  ∧ ((DecodeRune (String b s)).2 - 1 <= String.length s)%nat
  ∧ "010"%char ∉ take ((DecodeRune (String b s)).2 - 1) (Str.chars s).
Proof.
  destruct (DecodeRune_shape b s) as [Hb|b1 s' -> Hl H1|b1 b2 s' -> Hl H1 H2
    |b1 b2 b3 s' -> Hl H1 H2 H3|Hb]; cbn [snd String.length];
    (split; [lia|]); (split; [lia|]); cbn;
    try apply not_elem_of_nil;
    try (apply second_spec in H1 as [? _]);
    try apply cont_spec in H2; try apply cont_spec in H3;
    rewrite ?not_elem_of_cons; repeat split; try apply not_elem_of_nil;
    apply not_eq_sym, not_newline_cont; lia.
Qed.

(** A newline is no continuation byte: cutting the text at a newline
    does not change the rune at its head. *)
Lemma DecodeRune_cut (b : byte) (a t : string) :
  DecodeRune (String b (a +:+ String "010" t)) = DecodeRune (String b a).
Proof.
  unfold DecodeRune.
  destruct (lead b) as [|[|[|[|[|?]]]]]; try done.
  - destruct a as [|a1 a]; rewrite ?Str.app_cons, ?Str.app_nil_l; [|done].
    by rewrite second_newline.
  - destruct a as [|a1 [|a2 a]]; rewrite ?Str.app_cons, ?Str.app_nil_l;
      [| |done].
    + destruct t as [|t1 t]; [done|]. by rewrite second_newline.
    + by rewrite cont_newline, andb_false_r.
  - destruct a as [|a1 [|a2 [|a3 a]]]; rewrite ?Str.app_cons, ?Str.app_nil_l;
      [| | |done].
    + destruct t as [|t1 [|t2 t]]; try done. by rewrite second_newline.
    + destruct t as [|t1 t]; [done|].
      by rewrite cont_newline, andb_false_r.
    + by rewrite cont_newline, andb_false_r.
Qed.

Lemma EncodeRune_DecodeRune (b : byte) (s : string) :
  valid_head (String b s) = true →
  EncodeRune (DecodeRune (String b s)).1 =
    Str.take (DecodeRune (String b s)).2 (String b s).
Proof.
  unfold valid_head. pose proof (Z_of_byte_range b) as Hb.
  destruct (DecodeRune_shape b s) as [Hb'|b1 s' -> Hl H1|b1 b2 s' -> Hl H1 H2
    |b1 b2 b3 s' -> Hl H1 H2 H3|Hb']; cbn [fst snd Str.take]; intros Hv.
  - by apply EncodeRune_ascii.
  - pose proof (lead_spec b) as Hs. rewrite Hl in Hs. cbv beta iota in Hs.
    apply second_spec in H1 as [? _].
    set (r := (Z_of_byte b - 192) * 64 + (Z_of_byte b1 - 128)).
    assert (0x80 <= r <= 0x7FF) as Hr by (subst r; lia).
    unfold EncodeRune.
    destruct (Z.leb_spec 0 r); [|lia]. destruct (Z.leb_spec r 127); [lia|].
    destruct (Z.leb_spec r 2047); [|lia]. cbn [andb].
    assert (192 + r / 64 = Z_of_byte b) as ->
      by (subst r; Z.div_mod_to_equations; lia).
    assert (128 + r mod 64 = Z_of_byte b1) as ->
      by (subst r; Z.div_mod_to_equations; lia).
    by rewrite !byte_of_Z_of_byte.
  - pose proof (lead_spec b) as Hs. rewrite Hl in Hs. cbv beta iota in Hs.
    apply second_spec in H1 as (? & HE0 & HED & _). apply cont_spec in H2.
    set (r := (Z_of_byte b - 224) * 4096 + (Z_of_byte b1 - 128) * 64
              + (Z_of_byte b2 - 128)).
    assert (0x800 <= r <= 0xFFFF ∧ ¬ (0xD800 <= r <= 0xDFFF)) as [Hr Hsur].
    { subst r. destruct (decide (Z_of_byte b = 224)), (decide (Z_of_byte b = 237));
        lia. }
    unfold EncodeRune, RuneError.
    destruct (Z.leb_spec 0 r); [|lia]. destruct (Z.leb_spec r 127); [lia|].
    destruct (Z.leb_spec r 2047); [lia|]. cbn [andb].
    destruct (Z.ltb_spec r 0); [lia|]. destruct (Z.ltb_spec 1114111 r); [lia|].
    cbn [orb].
    assert ((55296 <=? r) && (r <=? 57343) = false) as ->.
    { destruct (Z.leb_spec 55296 r), (Z.leb_spec r 57343); try done. lia. }
    destruct (Z.leb_spec r 65535); [|lia].
    assert (224 + r / 4096 = Z_of_byte b) as ->
      by (subst r; Z.div_mod_to_equations; lia).
    assert (128 + r / 64 mod 64 = Z_of_byte b1) as ->
      by (subst r; Z.div_mod_to_equations; lia).
    assert (128 + r mod 64 = Z_of_byte b2) as ->
      by (subst r; Z.div_mod_to_equations; lia).
    by rewrite !byte_of_Z_of_byte.
  - pose proof (lead_spec b) as Hs. rewrite Hl in Hs. cbv beta iota in Hs.
    apply second_spec in H1 as (? & _ & _ & HF0 & HF4).
    apply cont_spec in H2, H3.
    set (r := (Z_of_byte b - 240) * 262144 + (Z_of_byte b1 - 128) * 4096
              + (Z_of_byte b2 - 128) * 64 + (Z_of_byte b3 - 128)).
    assert (0x10000 <= r <= 0x10FFFF) as Hr.
    { subst r. destruct (decide (Z_of_byte b = 240)), (decide (Z_of_byte b = 244));
        lia. }
    unfold EncodeRune, RuneError.
    destruct (Z.leb_spec 0 r); [|lia]. destruct (Z.leb_spec r 127); [lia|].
    destruct (Z.leb_spec r 2047); [lia|]. cbn [andb].
    destruct (Z.ltb_spec r 0); [lia|]. destruct (Z.ltb_spec 1114111 r); [lia|].
    cbn [orb].
    assert ((55296 <=? r) && (r <=? 57343) = false) as ->.
    { destruct (Z.leb_spec 55296 r), (Z.leb_spec r 57343); try done. lia. }
    destruct (Z.leb_spec r 65535); [lia|].
    assert (240 + r / 262144 = Z_of_byte b) as ->
      by (subst r; Z.div_mod_to_equations; lia).
    assert (128 + r / 4096 mod 64 = Z_of_byte b1) as ->
      by (subst r; Z.div_mod_to_equations; lia).
    assert (128 + r / 64 mod 64 = Z_of_byte b2) as ->
      by (subst r; Z.div_mod_to_equations; lia).
    assert (128 + r mod 64 = Z_of_byte b3) as ->
      by (subst r; Z.div_mod_to_equations; lia).
    by rewrite !byte_of_Z_of_byte.
  - by vm_compute in Hv.
Qed.


Lemma read_to_newline_parts (s : string) :
  let '(l, e, r) := read_to_newline s in
  ("010"%char ∉ Str.chars l)
  ∧ match e with
    | None => s = l +:+ String "010" r
    | Some e => e = EOF ∧ s = l ∧ r = ""
    end.
Proof.
  induction s as [|c s IH]; [split; [apply not_elem_of_nil|done]|].
  cbn [read_to_newline]. case_bool_decide as Hc.
  - subst c. split; [apply not_elem_of_nil|done].
  - destruct (read_to_newline s) as [[l e] r]. destruct IH as [Hnl Hs].
    split.
    + cbn. rewrite not_elem_of_cons. split; [congruence|done].
    + destruct e as [e|].
      * destruct Hs as (-> & -> & ->). done.
      * rewrite Hs at 1. by rewrite Str.app_cons.
Qed.

Lemma take_drop_str (n : nat) (s : string) :
  Str.take n s +:+ Str.drop n s = s.
Proof.
  revert s. induction n as [|n IH]; intros [|c s]; try done.
  cbn [Str.take Str.drop]. by rewrite Str.app_cons, IH.
Qed.

(** Valid UTF-8 is written back as it was read. *)
Lemma encode_decode_valid (s : string) (k : nat) :
  valid_from k s = true → encode (decode k s) = Str.drop k s.
Proof.
  revert k. induction s as [|b s IH]; intros k Hv; [by destruct k|].
  destruct k as [|k]; cbn [decode valid_from Str.drop] in *; [|by apply IH].
  apply andb_true_iff in Hv as [Hh Hv].
  pose proof (EncodeRune_DecodeRune b s Hh) as He.
  pose proof (DecodeRune_size b s) as ([Hs _] & _).
  destruct (DecodeRune (String b s)) as [r size]. cbn [fst snd] in *.
  cbn [encode foldr]. fold (encode (decode (size - 1) s)).
  rewrite (IH _ Hv), He. destruct size as [|m]; [lia|].
  cbn [Str.take]. rewrite Nat.sub_succ, Nat.sub_0_r, Str.app_cons.
  by rewrite take_drop_str.
Qed.

Lemma valid_head_cut (b : byte) (a t : string) :
  valid_head (String b (a +:+ String "010" t)) = valid_head (String b a).
Proof. unfold valid_head. by rewrite DecodeRune_cut. Qed.

(** The text before a newline of valid UTF-8 is valid UTF-8. *)
Lemma valid_from_cut (a t : string) (k : nat) :
  valid_from k (a +:+ String "010" t) = true → valid_from k a = true.
Proof.
  revert k. induction a as [|b a IH]; intros k; [by destruct k|].
  rewrite Str.app_cons. destruct k as [|k]; cbn [valid_from]; [|apply IH].
  rewrite valid_head_cut, DecodeRune_cut.
  intros [-> Hv]%andb_true_iff. by rewrite (IH _ Hv).
Qed.

(** The text after a newline of valid UTF-8 is valid UTF-8. *)
Lemma valid_from_rest (a t : string) (k : nat) :
  "010"%char ∉ take k (Str.chars (a +:+ String "010" t)) →
  valid_from k (a +:+ String "010" t) = true → valid t = true.
Proof.
  revert k. induction a as [|b a IH]; intros k Hk.
  - rewrite Str.app_nil_l in *. destruct k as [|k].
    + cbn [valid_from]. change (DecodeRune (String "010" t)) with (10, 1%nat).
      cbn [snd]. by intros [_ ?]%andb_true_iff.
    + exfalso. apply Hk. cbn. apply list_elem_of_here.
  - rewrite Str.app_cons in *. destruct k as [|k]; cbn [valid_from].
    + intros [_ Hv]%andb_true_iff. apply (IH _ (proj2 (proj2 (DecodeRune_size b _))) Hv).
    + apply IH. intros Hin. apply Hk. cbn. by apply list_elem_of_further.
Qed.

Lemma Token_spec (s : string) (k : nat) :
  "010"%char ∉ take k (Str.chars s) →
  Line.Token k s =
    (encode (decode k (read_to_newline s).1.1),
     match (read_to_newline s).1.2 with
     | None => String "010" (read_to_newline s).2
     | Some _ => ""
     end).
Proof.
  revert k. induction s as [|b s IH]; intros k Hk; [by destruct k|].
  pose proof (read_to_newline_parts s) as Hparts.
  destruct k as [|k].
  - cbn [Line.Token read_to_newline].
    pose proof (DecodeRune_newline b s) as Hnl.
    pose proof (DecodeRune_size b s) as (_ & _ & Hcont).
    destruct (DecodeRune (String b s)) as [r size] eqn:Hd. cbn [fst snd] in *.
    case_bool_decide as Hr.
    + apply Hnl in Hr as ->. by rewrite bool_decide_eq_true_2.
    + assert (b ≠ "010"%char) as Hb by (intros ->; by apply Hr, Hnl).
      rewrite (bool_decide_eq_false_2 (b = "010"%char)) by done.
      rewrite (IH _ Hcont).
      destruct (read_to_newline s) as [[l e] tl]. cbn [fst snd] in *.
      destruct Hparts as [_ Hs]. cbn [decode].
      assert (DecodeRune (String b l) = (r, size)) as ->.
      { rewrite <- Hd. destruct e as [e|].
        - by destruct Hs as (_ & -> & _).
        - by rewrite Hs, DecodeRune_cut. }
      done.
  - cbn [take] in Hk. change (Str.chars (String b s)) with (b :: Str.chars s) in Hk.
    cbn [take] in Hk. apply not_elem_of_cons in Hk as [Hb Hk].
    cbn [Line.Token read_to_newline].
    rewrite (bool_decide_eq_false_2 (b = "010"%char)) by done.
    rewrite (IH _ Hk). by destruct (read_to_newline s) as [[l e] tl].
Qed.

Lemma length_take_le (n : nat) (s : string) :
  (String.length (Str.take n s) <= n)%nat.
Proof.
  revert s. induction n as [|n IH]; intros [|c s]; cbn; try lia.
  specialize (IH s). lia.
Qed.

Lemma length_take_ge (n : nat) (s : string) :
  (n <= String.length s)%nat → String.length (Str.take n s) = n.
Proof.
  revert s. induction n as [|n IH]; intros [|c s]; cbn; try lia.
  intros Hn. rewrite IH; lia.
Qed.

Lemma lead_le (b : byte) : (lead b <= 4)%nat.
Proof. unfold lead. repeat destruct (_ : bool); lia. Qed.

(** Four bytes are always enough to tell a rune. *)
Lemma FullRune_four (p : string) :
  (4 <= String.length p)%nat → Line.FullRune p = true.
Proof.
  destruct p as [|p0 p']; [cbn; lia|]. intros Hl. unfold Line.FullRune.
  pose proof (lead_le p0) as Hle.
  destruct (Nat.leb_spec
              (match lead p0 with O => 1%nat | S n => S n end)
              (String.length (String p0 p'))) as [|Hlt]; [done|].
  destruct (lead p0); lia.
Qed.

Lemma read_loop_le (fuel n : nat) (s : string) :
  (n <= 4)%nat → (n <= String.length s)%nat → (5 <= fuel + n)%nat →
  (Line.read_loop fuel n s <= 4)%nat.
Proof.
  revert n. induction fuel as [|fuel IH]; intros n Hn Hs Hf; [lia|].
  cbn [Line.read_loop].
  destruct (Line.FullRune (Str.take n s)) eqn:Hfull; [done|].
  destruct (Nat.leb_spec (String.length s) n) as [|Hlt]; [done|].
  assert (n ≠ 4%nat) as Hn4.
  { intros ->. rewrite FullRune_four in Hfull; [done|].
    rewrite length_take_ge; lia. }
  apply IH; lia.
Qed.

Lemma read_loop_ge (fuel n : nat) (s : string) :
  (n <= Line.read_loop fuel n s)%nat.
Proof.
  revert n. induction fuel as [|fuel IH]; intros n; [done|].
  cbn [Line.read_loop]. destruct (Line.FullRune _); [done|].
  destruct (_ <=? _)%nat; [done|]. specialize (IH (S n)). lia.
Qed.

End Utf8_facts.

Section readKvs_facts.
Context {sc : Scalar} {ext : External}.

(** The lines of a text: its parts between newlines, the last of which
    no newline ends. *)
Fixpoint split_lines (s : string) : list string :=
  match s with
  | "" => [""]
  | String c s' =>
      if bool_decide (c = "010"%char) then "" :: split_lines s'
      else
        match split_lines s' with
        | l :: ls => String c l :: ls
        | [] => [String c ""]
        end
  end.

(** What the body of the loop of [readKvs] does with a line. *)
Definition process_line (lineno : nat) (line : string) (xs : xdrScan)
  : xdrScan :=
  if Str.is_empty line then xs
  else
    match Scan.split_colon line with
    | None => report lineno "syntax error" xs
    | Some (k, v) =>
        mkScan (xs_ptrDepth xs) (<[k := mkLineval lineno v]> (xs_kvs xs))
          (xs_err xs) (xs_help xs)
    end.

Fixpoint process_all (segs : list string) (lineno : nat) (xs : xdrScan)
  : xdrScan :=
  match segs with
  | [] => xs
  | l :: segs' =>
      process_all segs' (S lineno) (process_line (S lineno) (drop_final_cr l) xs)
  end.

Lemma split_lines_nonempty (s : string) : split_lines s ≠ [].
Proof.
  destruct s as [|c s]; [done|]. simpl. case_bool_decide; [done|].
  by destruct (split_lines s).
Qed.

Lemma read_to_newline_spec (s : string) :
  match read_to_newline s with
  | (l, None, rest) =>
      split_lines s = l :: split_lines rest
      ∧ (String.length rest < String.length s)%nat
  | (l, Some e, rest) => e = EOF ∧ split_lines s = [l] ∧ rest = ""
  end.
Proof.
  induction s as [|c s IH]; [done|]. simpl.
  case_bool_decide; [split; [done|lia]|].
  destruct (read_to_newline s) as [[l [e|]] rest].
  - destruct IH as (-> & -> & ->). done.
  - destruct IH as [-> Hlen]. split; [done|lia].
Qed.

Lemma readKvs_loop_S fuel input lineno xs :
  readKvs_loop (S fuel) input lineno xs =
    let '(line, err, input) := ReadTextLine input in
    if bool_decide (is_Some err)
       && (negb (bool_decide (err = Some EOF)) || Str.is_empty line)
    then
      match err with
      | Some e =>
          if bool_decide (e = EOF) then Some xs
          else Some (report lineno (error_text e) xs)
      | None => Some xs
      end
    else
      let lineno := S lineno in
      if Str.is_empty line then readKvs_loop fuel input lineno xs
      else
        match Scan.split_colon line with
        | None => readKvs_loop fuel input lineno (report lineno "syntax error" xs)
        | Some (k, v) =>
            readKvs_loop fuel input lineno
              (mkScan (xs_ptrDepth xs)
                 (<[k := mkLineval lineno v]> (xs_kvs xs))
                 (xs_err xs) (xs_help xs))
        end.
Proof. reflexivity. Qed.

Lemma process_line_unfold lineno line xs :
  (if Str.is_empty line then xs
   else
     match Scan.split_colon line with
     | None => report lineno "syntax error" xs
     | Some (k, v) =>
         mkScan (xs_ptrDepth xs) (<[k := mkLineval lineno v]> (xs_kvs xs))
           (xs_err xs) (xs_help xs)
     end) = process_line lineno line xs.
Proof. reflexivity. Qed.

(** The loop of [readKvs] has fuel enough, and handles the lines of the
    input one after the other. *)
Lemma readKvs_loop_lines (fuel : nat) (input : string) (lineno : nat)
    (xs : xdrScan) :
  (String.length input + 2 <= fuel)%nat →
  readKvs_loop fuel input lineno xs =
    Some (process_all (split_lines input) lineno xs).
Proof.
  revert input lineno xs. induction fuel as [|fuel IH];
    intros input lineno xs Hf; [lia|].
  rewrite readKvs_loop_S. unfold ReadTextLine.
  pose proof (read_to_newline_spec input) as Hr.
  destruct (read_to_newline input) as [[l [e|]] rest].
  - destruct Hr as (-> & -> & ->). cbn [process_all].
    rewrite bool_decide_eq_true_2 by eauto. rewrite bool_decide_eq_true_2 by done.
    cbn [negb orb andb]. unfold process_line at 1.
    destruct (Str.is_empty (drop_final_cr l)) eqn:E; [done|].
    destruct fuel as [|fuel]; [lia|].
    destruct (Scan.split_colon (drop_final_cr l)) as [[k v]|];
      rewrite readKvs_loop_S; reflexivity.
  - destruct Hr as [-> Hlen]. cbn [process_all].
    rewrite bool_decide_eq_false_2 by (by intros [? ?]). cbn [andb].
    cbv zeta. unfold process_line at 1.
    destruct (Str.is_empty (drop_final_cr l)); [apply IH; lia|].
    destruct (Scan.split_colon (drop_final_cr l)) as [[k v]|]; apply IH; lia.
Qed.

(** [readKvs] returns, with the table of the lines of its input. *)
Lemma readKvs_total (input : string) (xs : xdrScan) :
  readKvs input xs =
    Some (process_all (split_lines input) 0
            (mkScan (xs_ptrDepth xs) ∅ (xs_err xs) (xs_help xs))).
Proof. unfold readKvs. apply readKvs_loop_lines. lia. Qed.

(** The lines of a text as [fmt] hands them to [readKvs]: the runes of
    every line, written in UTF-8. *)
Definition text_lines (input : string) : list string :=
  Utf8.recode <$> split_lines input.

(** [ReadTextLine] on a reader with [UnreadRune] *)
Lemma Line_ReadTextLine_unread (input : string) :
  Line.ReadTextLine true input =
    let '(raw, e, rest) := read_to_newline input in
    (drop_final_cr (Utf8.recode raw), e, rest).
Proof.
  unfold Line.ReadTextLine.
  rewrite (Token_spec input 0 (not_elem_of_nil _)).
  destruct (read_to_newline input) as [[raw [e|]] rest] eqn:Hr;
    cbn [fst snd]; fold (Utf8.runes raw); fold (Utf8.recode raw).
  - pose proof (read_to_newline_parts input) as Hp. rewrite Hr in Hp.
    by destruct Hp as (_ & -> & _ & ->).
  - change (Utf8.DecodeRune (String "010" rest)) with (10, 1%nat). done.
Qed.

Lemma Line_readKvs_loop_S unread fuel input lineno xs :
  Line.readKvs_loop unread (S fuel) input lineno xs =
    let '(line, err, input) := Line.ReadTextLine unread input in
    if bool_decide (is_Some err)
       && (negb (bool_decide (err = Some EOF)) || Str.is_empty line)
    then
      match err with
      | Some e =>
          if bool_decide (e = EOF) then Some xs
          else Some (report lineno (error_text e) xs)
      | None => Some xs
      end
    else
      let lineno := S lineno in
      if Str.is_empty line then Line.readKvs_loop unread fuel input lineno xs
      else
        match Scan.split_colon line with
        | None =>
            Line.readKvs_loop unread fuel input lineno
              (report lineno "syntax error" xs)
        | Some (k, v) =>
            Line.readKvs_loop unread fuel input lineno
              (mkScan (xs_ptrDepth xs)
                 (<[k := mkLineval lineno v]> (xs_kvs xs))
                 (xs_err xs) (xs_help xs))
        end.
Proof. reflexivity. Qed.

(** On a reader with [UnreadRune] the loop of [readKvs] has fuel
    enough, and handles the lines of the text one after the other. *)
Lemma Line_readKvs_loop_lines (fuel : nat) (input : string) (lineno : nat)
    (xs : xdrScan) :
  (String.length input + 2 <= fuel)%nat →
  Line.readKvs_loop true fuel input lineno xs =
    Some (process_all (text_lines input) lineno xs).
Proof.
  unfold text_lines. revert input lineno xs. induction fuel as [|fuel IH];
    intros input lineno xs Hf; [lia|].
  rewrite Line_readKvs_loop_S, Line_ReadTextLine_unread.
  pose proof (read_to_newline_spec input) as Hr.
  destruct (read_to_newline input) as [[l [e|]] rest].
  - destruct Hr as (-> & -> & ->). cbn [fmap list_fmap process_all].
    rewrite bool_decide_eq_true_2 by eauto. rewrite bool_decide_eq_true_2 by done.
    cbn [negb orb andb]. unfold process_line at 1.
    destruct (Str.is_empty (drop_final_cr (Utf8.recode l))) eqn:E; [done|].
    destruct fuel as [|fuel]; [lia|].
    destruct (Scan.split_colon (drop_final_cr (Utf8.recode l))) as [[k v]|];
      rewrite Line_readKvs_loop_S; reflexivity.
  - destruct Hr as [-> Hlen]. cbn [fmap list_fmap process_all].
    rewrite bool_decide_eq_false_2 by (by intros [? ?]). cbn [andb].
    cbv zeta. unfold process_line at 1.
    destruct (Str.is_empty (drop_final_cr (Utf8.recode l))); [apply IH; lia|].
    destruct (Scan.split_colon (drop_final_cr (Utf8.recode l))) as [[k v]|];
      apply IH; lia.
Qed.

(** On a reader with [UnreadRune], [readKvs] returns, with the table of
    the lines of the text. *)
Lemma Line_readKvs_total (input : string) (xs : xdrScan) :
  Line.readKvs true input xs =
    Some (process_all (text_lines input) 0
            (mkScan (xs_ptrDepth xs) ∅ (xs_err xs) (xs_help xs))).
Proof. unfold Line.readKvs. apply Line_readKvs_loop_lines. lia. Qed.

Lemma length_drop_le (n : nat) (s : string) :
  (String.length (Str.drop n s) <= String.length s)%nat.
Proof.
  revert s. induction n as [|n IH]; intros [|c s]; cbn [Str.drop]; try done.
  cbn [String.length]. specialize (IH s). lia.
Qed.

(** A line that [readKvs] goes on from leaves less to read, whatever the
    reader. *)
Lemma Line_ReadTextLine_shorter (unread : bool) (input : string) :
  let '(line, err, rest) := Line.ReadTextLine unread input in
  err = None ∨ line ≠ "" → (String.length rest < String.length input)%nat.
Proof.
  unfold Line.ReadTextLine.
  rewrite (Token_spec input 0 (not_elem_of_nil _)).
  pose proof (read_to_newline_parts input) as Hp.
  destruct (read_to_newline input) as [[raw [e|]] tail]; cbn [fst snd].
  - destruct Hp as (_ & _ & -> & _).
    assert ((if unread then "" else Str.drop 1 "") = "") as ->
      by (by destruct unread).
    cbn. intros [?|Hne]; [done|]. destruct raw; [done|]. cbn. lia.
  - destruct Hp as [_ ->]. rewrite Str.length_app. cbn [String.length].
    destruct unread.
    + change (Utf8.DecodeRune (String "010" tail)) with (10, 1%nat).
      cbn. lia.
    + cbn [Str.drop]. destruct tail as [|c tail']; [cbn; lia|].
      destruct (Utf8.DecodeRune (String c tail')) as [r size].
      pose proof (length_drop_le (Line.read_width (String c tail'))
                    (String c tail')).
      intros _. lia.
Qed.

(** [readKvs] returns, whatever the reader. *)
Lemma Line_readKvs_loop_returns (unread : bool) (fuel : nat)
    (input : string) (lineno : nat) (xs : xdrScan) :
  (String.length input + 2 <= fuel)%nat →
  is_Some (Line.readKvs_loop unread fuel input lineno xs).
Proof.
  revert input lineno xs. induction fuel as [|fuel IH];
    intros input lineno xs Hf; [lia|].
  rewrite Line_readKvs_loop_S.
  pose proof (Line_ReadTextLine_shorter unread input) as Hs.
  destruct (Line.ReadTextLine unread input) as [[line err] rest].
  destruct err as [e|].
  - rewrite bool_decide_eq_true_2 by eauto. cbn [andb].
    destruct (negb (bool_decide (Some e = Some EOF))); cbn [orb].
    + by destruct (bool_decide (e = EOF)).
    + destruct (Str.is_empty line) eqn:E; [by destruct (bool_decide (e = EOF))|].
      assert (line ≠ "") as Hne by (intros ->; done).
      specialize (Hs (or_intror Hne)). cbv zeta.
      destruct (Scan.split_colon line) as [[k v]|]; apply IH; lia.
  - rewrite bool_decide_eq_false_2 by (by intros [? ?]). cbn [andb].
    specialize (Hs (or_introl eq_refl)). cbv zeta.
    destruct (Str.is_empty line); [apply IH; lia|].
    destruct (Scan.split_colon line) as [[k v]|]; apply IH; lia.
Qed.

Lemma Line_readKvs_returns (unread : bool) (input : string) (xs : xdrScan) :
  is_Some (Line.readKvs unread input xs).
Proof. unfold Line.readKvs. apply Line_readKvs_loop_returns. lia. Qed.

Lemma recode_valid (s : string) : Utf8.valid s = true → Utf8.recode s = s.
Proof. intros Hv. by apply (encode_decode_valid s 0). Qed.

(** The lines of valid UTF-8 are read as they are. *)
Lemma text_lines_valid (input : string) :
  Utf8.valid input = true → text_lines input = split_lines input.
Proof.
  unfold text_lines.
  assert (∀ n s, (String.length s <= n)%nat → Utf8.valid s = true →
            Utf8.recode <$> split_lines s = split_lines s) as H;
    [|by apply (H (String.length input))].
  induction n as [|n IH]; intros s Hn Hv.
  - destruct s; [|cbn in Hn; lia]. done.
  - pose proof (read_to_newline_spec s) as Hr.
    pose proof (read_to_newline_parts s) as Hp.
    destruct (read_to_newline s) as [[l [e|]] rest].
    + destruct Hr as (_ & -> & _). destruct Hp as (_ & _ & -> & _).
      cbn [fmap list_fmap]. by rewrite recode_valid.
    + destruct Hr as [-> Hlen]. destruct Hp as [_ Hs]. rewrite Hs in Hv.
      cbn [fmap list_fmap]. rewrite recode_valid
        by (by apply (valid_from_cut l rest 0)).
      f_equal. apply IH; [lia|].
      by apply (valid_from_rest l rest 0); [apply not_elem_of_nil|].
Qed.




Definition line_without_colon (l : string) : Prop :=
  drop_final_cr l ≠ "" ∧ Scan.split_colon (drop_final_cr l) = None.


Lemma is_empty_true (s : string) : Str.is_empty s = true ↔ s = "".
Proof. by destruct s. Qed.

















End readKvs_facts.

(** ** The legacy source account of a version-0 envelope *)

Section sourceAccount_facts.
Context {sc : Scalar} {ext : External}.

Lemma HasPrefix_app (a b : string) : Str.HasPrefix (a +:+ b) a = true.
Proof. apply Str.HasPrefix_spec. by exists b. Qed.

Lemma reverse_app (a b : string) :
  Str.reverse (a +:+ b) = Str.reverse b +:+ Str.reverse a.
Proof.
  unfold Str.reverse. by rewrite Str.chars_app, rev_app_distr, Str.of_chars_app.
Qed.

Lemma HasSuffix_app (a b : string) : Str.HasSuffix (a +:+ b) b = true.
Proof. unfold Str.HasSuffix. rewrite reverse_app. apply HasPrefix_app. Qed.

Lemma take_app_length (a b : string) : Str.take (String.length a) (a +:+ b) = a.
Proof.
  induction a as [|c a IH]; [by destruct b|].
  rewrite Str.app_cons. simpl. by rewrite IH.
Qed.

(** The name of the legacy field and the name that replaces it. *)
Lemma legacy_name (prefix : string) :
  is_sourceAccountEd25519 32 (prefix +:+ "tx.sourceAccountEd25519") = true
  ∧ shortened (prefix +:+ "tx.sourceAccountEd25519") =
      prefix +:+ "tx.sourceAccount".
Proof.
  split.
  - unfold is_sourceAccountEd25519. by rewrite HasSuffix_app.
  - unfold shortened.
    change "tx.sourceAccountEd25519" with ("tx." +:+ "sourceAccountEd25519").
    rewrite (Str.app_assoc prefix "tx."), Str.length_app.
    change (String.length "sourceAccountEd25519") with 20%nat.
    rewrite Nat.add_sub, take_app_length.
    by rewrite <- Str.app_assoc.
Qed.

Lemma copy_same_length (dst src : list byte) :
  length dst = length src → copy dst src = src.
Proof.
  intros Hl. unfold copy. rewrite Hl, firstn_all.
  rewrite <- Hl, drop_all. apply app_nil_r.
Qed.

(** C4 (amended): for a 32-byte field whose name ends in
    [tx.sourceAccountEd25519], the parser reads the key
    [...tx.sourceAccount] as an account and, when it is an Ed25519 account,
    stores its 32 key bytes in the field without recording an error; the
    legacy name is not looked up, so that without the shortened key the
    field and the state are left as they were; and the generator writes the
    field as the account under the shortened name. *)
Theorem sourceAccount_shim (prefix : string) (k : list byte) (xs : xdrScan)
    (xp : txStringCtx) :
  let legacy := prefix +:+ "tx.sourceAccountEd25519" in
  let short := prefix +:+ "tx.sourceAccount" in
  length k = 32%nat →
  (∀ ln val pk,
     xs_kvs xs !! short = Some (mkLineval ln val) →
     AccountID_Scan val = Scan.Ok pk →
     pk_Type pk = PUBLIC_KEY_TYPE_ED25519 →
     length (pk_Ed25519 pk) = 32%nat →
     (scan_Marshal (TArrayOpaque 32) legacy (VBytes k) xs).1 =
       VBytes (pk_Ed25519 pk)
     ∧ xs_err (scan_Marshal (TArrayOpaque 32) legacy (VBytes k) xs).2 = xs_err xs)
  ∧ (xs_kvs xs !! short = None →
     scan_Marshal (TArrayOpaque 32) legacy (VBytes k) xs = (VBytes k, xs))
  ∧ (accountIDNote (xp_ann xp)
       (mkPublicKey PUBLIC_KEY_TYPE_ED25519 k) = "" →
     str_Marshal (TArrayOpaque 32) legacy (VBytes k) xp =
       Fprintf (line short
                  (AccountID_String (mkPublicKey PUBLIC_KEY_TYPE_ED25519 k))) xp).
Proof.
  intros legacy short Hk.
  destruct (legacy_name prefix) as [Hleg Hshort]. fold legacy short in Hleg, Hshort.
  split; [|split].
  - intros ln val pk Hlook Hscan Htype Hlen.
    cbn [scan_Marshal]. rewrite Hleg. unfold scan_sourceAccount.
    rewrite Hshort. destruct (kvs_get_Some _ _ _ Hlook) as [Hget Hok].
    rewrite Hok. cbn [negb]. unfold scan_value. rewrite Hok, Hget.
    cbn [negb lv_val]. rewrite Hscan.
    destruct (true && Scan.ends_with_qmark val);
      (rewrite decide_True by done); cbn [fst snd];
      by rewrite copy_same_length by congruence.
  - intros Hlook. cbn [scan_Marshal]. rewrite Hleg. unfold scan_sourceAccount.
    rewrite Hshort. destruct (kvs_get_None _ _ Hlook) as [_ ->]. done.
  - intros Hnote. cbn [str_Marshal]. rewrite Hleg, Hshort.
    unfold str_AccountID.
    rewrite copy_same_length by (by rewrite length_replicate).
    by rewrite Hnote.
Qed.

End sourceAccount_facts.

(** ** The equations of the generator and of the zero values *)

Section Equations.
Context {sc : Scalar} {ext : External}.

Lemma str_Marshal_TVec bound t name l xp :
  str_Marshal (TVec bound t) name (VVec l) xp =
    str_XdrMarshalN t name l 0
      (Fprintf (name +:+ dot name +:+ ps_len +:+ ": " +:+
                Fmt.d (Z.of_nat (length l)) +:+ "
") xp).
Proof.
  cbn [str_Marshal]. generalize (Fprintf (name +:+ dot name +:+ ps_len +:+ ": "
    +:+ Fmt.d (Z.of_nat (length l)) +:+ "
") xp). generalize 0%nat.
  induction l as [|e l IH]; intros i xp'; [done|].
  cbn [str_XdrMarshalN]. by rewrite <- IH.
Qed.

Lemma str_Marshal_TStruct fields name fs xp :
  str_Marshal (TStruct fields) name (VStruct fs) xp =
    str_fields name fields fs xp.
Proof.
  cbn [str_Marshal]. revert fs xp.
  induction fields as [|[f tf] fields IH]; intros fs xp; [by destruct fs|].
  destruct fs as [|vf fs]; [done|]. cbn [str_fields]. by rewrite <- IH.
Qed.

Lemma str_Marshal_TUnion tagname names arms name tag body xp :
  str_Marshal (TUnion tagname names arms) name (VUnion tag body) xp =
    let xp := str_Enum (childName name tagname) names tag xp in
    match find_arm tag arms with
    | Some (armname, ta) =>
        match body with
        | Some b => str_Marshal ta (childName name armname) b xp
        | None => xp
        end
    | None =>
        if bool_decide (is_Some (names !! tag)) then xp
        else recovered name ("invalid " +:+ tagname) xp
    end.
Proof.
  cbn [str_Marshal]. cbv zeta.
  generalize (str_Enum (childName name tagname) names tag xp). intros xp'.
  induction arms as [|[n [armname ta]] arms IH]; [done|].
  cbn [find_arm]. destruct (decide (n = tag)); [done|]. apply IH.
Qed.

Lemma str_Marshal_TEnvelope names arms name tag body xp :
  str_Marshal (TEnvelope names arms) name (VUnion tag body) xp =
    let xp' :=
      Fprintf (name +:+ dot name +:+ "type: " +:+ Enum_String names tag +:+ "
") (track_env (VUnion tag body) xp) in
    restore xp
      match find_arm tag arms with
      | Some ta =>
          match body with
          | Some b => str_Marshal ta name b xp'
          | None => xp'
          end
      | None => xp'
      end.
Proof.
  cbn [str_Marshal]. cbv zeta. f_equal.
  generalize (Fprintf (name +:+ dot name +:+ "type: " +:+ Enum_String names tag
    +:+ "
") (track_env (VUnion tag body) xp)). intros xp'.
  induction arms as [|[n ta] arms IH]; [done|].
  cbn [find_arm]. destruct (decide (n = tag)); [done|]. apply IH.
Qed.



End Equations.

(** ** Round trip: the traversal of a well-formed tree *)

(** What a traversal of the tree does with the line table: the generator
    writes a line under a key, the parser looks the key up; the parser
    deletes the name of a node when it is done with it. *)
Inductive item : Type :=
  | Line (key raw : string)
  | Delete (name : string).

Fixpoint lines (tr : list item) : list (string * string) :=
  match tr with
  | [] => []
  | Line k raw :: tr' => (k, raw) :: lines tr'
  | Delete _ :: tr' => lines tr'
  end.


Definition keys (tr : list item) : list string := (lines tr).*1.

(** No key is looked up after the parser has deleted it. *)
Fixpoint safe (tr : list item) : Prop :=
  match tr with
  | [] => True
  | Line _ _ :: tr' => safe tr'
  | Delete n :: tr' => (n ∉ keys tr') ∧ safe tr'
  end.

Global Instance safe_dec (tr : list item) : Decision (safe tr).
Proof. induction tr as [|[k raw|n] tr IH]; simpl; apply _. Defined.

(** The text of a line. *)
Definition line_text (kv : string * string) : string :=
  kv.1 +:+ ":" +:+ kv.2.


(** A line that [readKvs] reads back as it was written: no newline in it,
    no carriage return at its end, no colon in its key. *)
Definition clean (kv : string * string) : Prop :=
  read_to_newline (line_text kv +:+ "
") = (line_text kv, None, "")
  ∧ drop_final_cr (line_text kv) = line_text kv
  ∧ Scan.split_colon (line_text kv) = Some kv.

Global Instance clean_dec (kv : string * string) : Decision (clean kv).
Proof. unfold clean. apply _. Defined.

(** The lines make a table from which the parser gets every value: they
    are clean, their keys are distinct, and no key is deleted before it is
    looked up. *)
Definition table_ok (tr : list item) : Prop :=
  Forall clean (lines tr) ∧ NoDup (keys tr) ∧ safe tr.

Section Traversal.
Context {sc : Scalar} {ext : External}.

(** [Traversal d name t v tr]: the content [v] fits the type [t], its
    sequences respect their bounds and do not sit under the empty name,
    its discriminants select an arm or are void, the text of each leaf is
    scanned back to the leaf by the external scanner, and [tr] is what the
    traversal at pointer depth [d] under [name] does. *)
Inductive Traversal : nat → string → xtype → xval → list item → Prop :=
  | T_leaf d n k z x :
      scalar_Scan (" " +:+ scalar_String x) z = Scan.Ok x →
      Traversal d n (TLeaf k z) (VScalar x)
        [Line n (" " +:+ scalar_String x); Delete n]
  | T_enum d n names v :
      Enum_Scan names (" " +:+ Enum_String names v) = Scan.Ok v →
      Traversal d n (TEnum names) (VInt v)
        [Line n (" " +:+ Enum_String names v); Delete n]
  | T_int64 d n v :
      Sscan_int64 (" " +:+ Fmt.d v +:+ " (" +:+ default "" (ScaleFmt v 7) +:+ ")")
        = Scan.Ok v →
      Traversal d n TInt64 (VInt v)
        [Line n (" " +:+ Fmt.d v +:+ " (" +:+ default "" (ScaleFmt v 7) +:+ ")");
         Delete n]
  | T_array d n m bs :
      is_sourceAccountEd25519 m n = false →
      length bs = m → bs ≠ [] →
      Traversal d n (TArrayOpaque m) (VBytes bs)
        [Line n (" " +:+ Hex.encode bs); Delete n]
  | T_sourceAccount d n bs :
      is_sourceAccountEd25519 32 n = true →
      length bs = 32%nat →
      AccountID_Scan
        (" " +:+ AccountID_String (mkPublicKey PUBLIC_KEY_TYPE_ED25519 bs))
        = Scan.Ok (mkPublicKey PUBLIC_KEY_TYPE_ED25519 bs) →
      Traversal d n (TArrayOpaque 32) (VBytes bs)
        [Line (shortened n)
           (" " +:+ AccountID_String (mkPublicKey PUBLIC_KEY_TYPE_ED25519 bs));
         Delete (shortened n)]
  | T_vecopaque d n bs :
      Traversal d n TVecOpaque (VBytes bs)
        [Line n (" " +:+ PrintVecOpaque bs); Delete n]
  | T_account d n pk :
      AccountID_Scan (" " +:+ AccountID_String pk) = Scan.Ok pk →
      Traversal d n TAccountID (VAccountID pk)
        [Line n (" " +:+ AccountID_String pk); Delete n]
  | T_sig d n hint sig :
      n ≠ "" → length hint = 4%nat →
      Traversal d n TDecoratedSignature (VSig hint sig)
        [Line (childName n "hint") (" " +:+ Hex.encode hint);
         Delete (childName n "hint");
         Line (childName n "signature") (" " +:+ PrintVecOpaque sig);
         Delete (childName n "signature");
         Delete n]
  | T_ptr_none d n t :
      Traversal d n (TPtr t) (VPtr None)
        [Line (n +:+ present (S d)) " false"; Delete n]
  | T_ptr_some d n t i tr :
      Traversal (S d) n t i tr →
      Traversal d n (TPtr t) (VPtr (Some i))
        (Line (n +:+ present (S d)) " true" :: tr ++ [Delete n])
  | T_vec d n bound t l tr :
      n ≠ "" →
      Z.of_nat (length l) <= bound →
      Sscan_uint32 (" " +:+ Fmt.d (Z.of_nat (length l)))
        = Some (Z.of_nat (length l)) →
      Elements d n t 0 l tr →
      Traversal d n (TVec bound t) (VVec l)
        (Line (n +:+ "." +:+ ps_len) (" " +:+ Fmt.d (Z.of_nat (length l)))
           :: Delete n :: tr ++ [Delete n])
  | T_struct d n fields fs tr :
      Fields d n fields fs tr →
      Traversal d n (TStruct fields) (VStruct fs) (tr ++ [Delete n])
  | T_union_arm d n tagname names arms tag armname ta b tr :
      Enum_Scan names (" " +:+ Enum_String names tag) = Scan.Ok tag →
      find_arm tag arms = Some (armname, ta) →
      Traversal d (childName n armname) ta b tr →
      Traversal d n (TUnion tagname names arms) (VUnion tag (Some b))
        (Line (childName n tagname) (" " +:+ Enum_String names tag)
           :: Delete (childName n tagname) :: tr ++ [Delete n])
  | T_union_void d n tagname names arms tag :
      Enum_Scan names (" " +:+ Enum_String names tag) = Scan.Ok tag →
      find_arm tag arms = None →
      is_Some (names !! tag) →
      Traversal d n (TUnion tagname names arms) (VUnion tag None)
        [Line (childName n tagname) (" " +:+ Enum_String names tag);
         Delete (childName n tagname); Delete n]
  | T_envelope_arm d n names arms tag ta b tr :
      Enum_Scan names (" " +:+ Enum_String names tag) = Scan.Ok tag →
      find_arm tag arms = Some ta →
      Traversal d n ta b tr →
      Traversal d n (TEnvelope names arms) (VUnion tag (Some b))
        (Line (n +:+ dot n +:+ "type") (" " +:+ Enum_String names tag)
           :: Delete (n +:+ dot n +:+ "type") :: tr ++ [Delete n])
  | T_envelope_void d n names arms tag :
      Enum_Scan names (" " +:+ Enum_String names tag) = Scan.Ok tag →
      find_arm tag arms = None →
      Traversal d n (TEnvelope names arms) (VUnion tag None)
        [Line (n +:+ dot n +:+ "type") (" " +:+ Enum_String names tag);
         Delete (n +:+ dot n +:+ "type"); Delete n]
with Elements : nat → string → xtype → nat → list xval → list item → Prop :=
  | E_nil d n t i : Elements d n t i [] []
  | E_cons d n t i e l tr1 tr2 :
      Traversal d (elemName n i) t e tr1 →
      Elements d n t (S i) l tr2 →
      Elements d n t i (e :: l) (tr1 ++ tr2)
with Fields : nat → string → list (string * xtype) → list xval → list item → Prop :=
  | F_nil d n : Fields d n [] [] []
  | F_cons d n f tf fields vf fs tr1 tr2 :
      Traversal d (childName n f) tf vf tr1 →
      Fields d n fields fs tr2 →
      Fields d n ((f, tf) :: fields) (vf :: fs) (tr1 ++ tr2).

Scheme Traversal_mut := Minimality for Traversal Sort Prop
  with Elements_mut := Minimality for Elements Sort Prop
  with Fields_mut := Minimality for Fields Sort Prop.

Combined Scheme Traversal_mutind from Traversal_mut, Elements_mut, Fields_mut.

End Traversal.

(** ** Round trip: what the generator writes *)

Section Generate_traversal.
Context {sc : Scalar} {ext : External}.


















End Generate_traversal.

(** ** Round trip: the table of the written lines *)

Section Table.







(** [xs'] is [xs] after a stretch of parsing that recorded no error, kept
    the pointer depth and touched no entry outside the names [D]. *)
Definition after (D : list string) (xs xs' : xdrScan) : Prop :=
  xs_err xs' = xs_err xs
  ∧ xs_ptrDepth xs' = xs_ptrDepth xs
  ∧ ∀ k, k ∉ D → xs_kvs xs' !! k = xs_kvs xs !! k.


Lemma after_refl xs : after [] xs xs.
Proof. done. Qed.



Lemma after_setHelp D name xs xs' : after D xs xs' → after D xs (setHelp name xs').
Proof. by intros (? & ? & ?). Qed.

Lemma after_set_ptrDepth D d xs xs' :
  after D (set_ptrDepth d xs) xs' →
  after D xs (set_ptrDepth (xs_ptrDepth xs) xs').
Proof. by intros (? & ? & ?). Qed.

Lemma after_eq D D' xs xs' : D = D' → after D xs xs' → after D' xs xs'.
Proof. by intros ->. Qed.






End Table.

(** ** Round trip: what the parser reads *)

Section Parse_traversal.
Context {sc : Scalar} {ext : External}.








Global Instance table_ok_dec (tr : list item) : Decision (table_ok tr).
Proof. unfold table_ok. apply _. Defined.


End Parse_traversal.

(** ** Induction over the shape of a tree *)

Section xtype_induction.
Context {sc : Scalar}.
Variable P : xtype → Prop.
Hypothesis Hleaf : ∀ k z, P (TLeaf k z).
Hypothesis Henum : ∀ names, P (TEnum names).
Hypothesis Hint64 : P TInt64.
Hypothesis Harray : ∀ n, P (TArrayOpaque n).
Hypothesis Hvecopaque : P TVecOpaque.
Hypothesis Haccount : P TAccountID.
Hypothesis Hsig : P TDecoratedSignature.
Hypothesis Hptr : ∀ t, P t → P (TPtr t).
Hypothesis Hvec : ∀ bound t, P t → P (TVec bound t).
Hypothesis Hstruct :
  ∀ fields, Forall (λ f, P f.2) fields → P (TStruct fields).
Hypothesis Hunion :
  ∀ tagname names arms,
    Forall (λ a : Z * (string * xtype), P a.2.2) arms →
    P (TUnion tagname names arms).
Hypothesis Henvelope :
  ∀ names arms,
    Forall (λ a : Z * xtype, P a.2) arms → P (TEnvelope names arms).

Fixpoint xtype_nested_ind (t : xtype) : P t :=
  match t with
  | TLeaf k z => Hleaf k z
  | TEnum names => Henum names
  | TInt64 => Hint64
  | TArrayOpaque n => Harray n
  | TVecOpaque => Hvecopaque
  | TAccountID => Haccount
  | TDecoratedSignature => Hsig
  | TPtr t' => Hptr t' (xtype_nested_ind t')
  | TVec bound t' => Hvec bound t' (xtype_nested_ind t')
  | TStruct fields =>
      Hstruct fields
        ((fix go (l : list (string * xtype)) : Forall (λ f, P f.2) l :=
            match l with
            | [] => List.Forall_nil _
            | (f, tf) :: l' =>
                List.Forall_cons (λ f, P f.2) (f, tf) l' (xtype_nested_ind tf) (go l')
            end) fields)
  | TUnion tagname names arms =>
      Hunion tagname names arms
        ((fix go (l : list (Z * (string * xtype)))
            : Forall (λ a : Z * (string * xtype), P a.2.2) l :=
            match l with
            | [] => List.Forall_nil _
            | (n, (a, ta)) :: l' =>
                List.Forall_cons (λ a : Z * (string * xtype), P a.2.2)
                  (n, (a, ta)) l' (xtype_nested_ind ta) (go l')
            end) arms)
  | TEnvelope names arms =>
      Henvelope names arms
        ((fix go (l : list (Z * xtype)) : Forall (λ a : Z * xtype, P a.2) l :=
            match l with
            | [] => List.Forall_nil _
            | (n, ta) :: l' =>
                List.Forall_cons (λ a : Z * xtype, P a.2) (n, ta) l'
                  (xtype_nested_ind ta) (go l')
            end) arms)
  end.

End xtype_induction.

Lemma find_arm_Forall {A : Type} (Q : Z * A → Prop) (tag : Z)
    (arms : list (Z * A)) (a : A) :
  Forall Q arms → find_arm tag arms = Some a → ∃ n, Q (n, a).
Proof.
  induction 1 as [|[n a'] arms HQ _ IH]; [done|].
  cbn [find_arm]. case_decide; [|done]. intros [= <-]. eauto.
Qed.

(** ** What the parser keeps, whatever the tree and the table *)

Section Parse_invariants.
Context {sc : Scalar} {ext : External}.

(** A line number that an error may carry: 0, the line of a missing key,
    or the number of a line of the table. *)
Definition known_line (xs : xdrScan) (n : nat) : Prop :=
  n = 0%nat ∨ ∃ k lv, xs_kvs xs !! k = Some lv ∧ lv_line lv = n.

(** From [xs] to [xs']: errors were only appended, each with a known line
    number; help requests were only appended; and the table only lost
    entries. *)
Definition accumulates (xs xs' : xdrScan) : Prop :=
  (∃ new, xs_err xs' = xs_err xs ++ new
          ∧ Forall (λ e : nat * string, known_line xs e.1) new)
  ∧ xs_help xs `prefix_of` xs_help xs'
  ∧ xs_kvs xs' ⊆ xs_kvs xs.

(** ... and the pointer depth is the same. *)
Definition kept (xs xs' : xdrScan) : Prop :=
  accumulates xs xs' ∧ xs_ptrDepth xs' = xs_ptrDepth xs.

Lemma known_line_get xs key : known_line xs (lv_line (kvs_get xs key)).
Proof.
  unfold kvs_get. destruct (xs_kvs xs !! key) as [lv|] eqn:E; [|by left].
  right. by exists key, lv.
Qed.

Lemma known_line_mono xs xs' n :
  xs_kvs xs' ⊆ xs_kvs xs → known_line xs' n → known_line xs n.
Proof.
  intros Hsub [->|(k & lv & Hk & Hn)]; [by left|]. right. exists k, lv.
  split; [|done]. by eapply lookup_weaken.
Qed.

Lemma accumulates_refl xs : accumulates xs xs.
Proof. split; [|done]. exists []. by rewrite app_nil_r. Qed.

Lemma accumulates_trans xs1 xs2 xs3 :
  accumulates xs1 xs2 → accumulates xs2 xs3 → accumulates xs1 xs3.
Proof.
  intros ((n1 & E1 & F1) & ? & Hs1) ((n2 & E2 & F2) & ? & ?).
  split; [|split; by etrans].
  exists (n1 ++ n2). split; [by rewrite E2, E1, app_assoc|].
  apply Forall_app. split; [done|].
  eapply Forall_impl; [done|]. intros e. by apply known_line_mono.
Qed.

Lemma kept_refl xs : kept xs xs.
Proof. split; [apply accumulates_refl|done]. Qed.

Lemma kept_trans xs1 xs2 xs3 : kept xs1 xs2 → kept xs2 xs3 → kept xs1 xs3.
Proof.
  intros [? ?] [? ?]. split; [by eapply accumulates_trans|congruence].
Qed.

Lemma kept_report ln msg xs : known_line xs ln → kept xs (report ln msg xs).
Proof.
  intros Hln. split; [|done]. split; [|done].
  exists [(ln, msg)]. split; [done|]. by apply Forall_singleton.
Qed.

Lemma kept_setHelp name xs : kept xs (setHelp name xs).
Proof.
  split; [|done]. split; [exists []; by rewrite app_nil_r|].
  split; [by apply prefix_app_r|done].
Qed.

Lemma kept_delete name xs : kept xs (kvs_delete name xs).
Proof.
  split; [|done]. split; [exists []; by rewrite app_nil_r|].
  split; [done|]. apply delete_subseteq.
Qed.

(** The state under an optional field: the depth differs, the rest is
    what it was. *)
Lemma accumulates_set_ptrDepth_l d xs xs' :
  accumulates (set_ptrDepth d xs) xs' → accumulates xs xs'.
Proof. done. Qed.

Lemma accumulates_set_ptrDepth_r d xs xs' :
  accumulates xs xs' → accumulates xs (set_ptrDepth d xs').
Proof. done. Qed.

Ltac kept_steps :=
  repeat first
    [ apply kept_refl
    | eapply kept_trans; [|apply kept_delete]
    | eapply kept_trans; [|apply kept_setHelp]
    | eapply kept_trans; [|apply kept_report, known_line_get] ].

Lemma kept_scan_value {A : Type} q name (scanned : string → Scan.result A)
    old xs :
  kept xs (scan_value q name scanned old xs).2.
Proof.
  unfold scan_value. destruct (negb (kvs_ok xs name)); [apply kept_refl|].
  destruct (scanned _) as [a|msg], (q && _); cbn [snd].
  - kept_steps.
  - kept_steps.
  - eapply kept_trans; [|apply kept_delete].
    eapply kept_trans; [|apply kept_setHelp].
    eapply kept_trans; [apply kept_setHelp|].
    apply kept_report, (known_line_get xs name).
  - eapply kept_trans; [|apply kept_delete].
    eapply kept_trans; [apply kept_setHelp|].
    apply kept_report, (known_line_get xs name).
Qed.

Lemma kept_scan_VecOpaque name old xs :
  kept xs (scan_VecOpaque name old xs).2.
Proof.
  unfold scan_VecOpaque. destruct (negb (kvs_ok xs name)); [apply kept_refl|].
  destruct (Hex.decode _) as [bs|msg].
  - destruct (Scan.ends_with_qmark _); cbn [snd]; kept_steps.
  - case_bool_decide; cbn [snd]; [kept_steps|].
    eapply kept_trans; [|apply kept_delete].
    eapply kept_trans; [apply kept_setHelp|].
    apply kept_report, (known_line_get xs name).
Qed.

Lemma kept_scan_Size name bound xs : kept xs (scan_Size name bound xs).2.
Proof.
  unfold scan_Size. destruct (_ <=? bound); cbn [snd]; kept_steps.
Qed.

Lemma kept_scan_present name xs : kept xs (scan_present name xs).2.
Proof.
  unfold scan_present. destruct (Scan.word _) as [w|].
  - repeat case_bool_decide; cbn [snd]; kept_steps.
  - destruct (kvs_ok xs name); [apply kept_refl|].
    case_bool_decide; apply kept_refl.
Qed.

Lemma kept_scan_sourceAccount name k xs :
  kept xs (scan_sourceAccount name k xs).2.
Proof.
  unfold scan_sourceAccount. destruct (negb (kvs_ok xs _)); [apply kept_refl|].
  pose proof (kept_scan_value true (shortened name) AccountID_Scan
    (mkPublicKey PUBLIC_KEY_TYPE_ED25519 (replicate 32 zero)) xs) as Hk.
  destruct (scan_value _ _ _ _ xs) as [pk xs1]. cbn [snd] in Hk.
  case_decide; cbn [snd]; [done|].
  eapply kept_trans; [done|apply kept_report, known_line_get].
Qed.

Lemma kept_XdrMarshalN t name :
  (∀ name v xs, kept xs (scan_Marshal t name v xs).2) →
  ∀ n i l xs, kept xs (scan_XdrMarshalN t name n i l xs).2.
Proof.
  intros IH n. induction n as [|n IHn]; intros i l xs; [apply kept_refl|].
  cbn [scan_XdrMarshalN].
  pose proof (IH (elemName name i) (default (zero_of t) (head l)) xs) as H1.
  destruct (scan_Marshal t _ _ xs) as [e xs1].
  pose proof (IHn (S i) (tail l) xs1) as H2.
  destruct (scan_XdrMarshalN t name n (S i) (tail l) xs1) as [r xs2].
  by eapply kept_trans.
Qed.

Lemma kept_fields name fields :
  Forall (λ f : string * xtype,
            ∀ name v xs, kept xs (scan_Marshal f.2 name v xs).2) fields →
  ∀ fs xs, kept xs (scan_fields name fields fs xs).2.
Proof.
  induction 1 as [|[f tf] fields IH _ IHf]; intros fs xs;
    [destruct fs; apply kept_refl|].
  destruct fs as [|vf fs]; [apply kept_refl|].
  cbn [scan_fields]. cbn [snd] in IH.
  pose proof (IH (childName name f) vf xs) as H1.
  destruct (scan_Marshal tf _ _ xs) as [e xs1].
  pose proof (IHf fs xs1) as H2.
  destruct (scan_fields name fields fs xs1) as [r xs2].
  by eapply kept_trans.
Qed.

Lemma kept_scan_Marshal (t : xtype) (name : string) (v : xval)
    (xs : xdrScan) :
  kept xs (scan_Marshal t name v xs).2.
Proof.
  revert name v xs. induction t using xtype_nested_ind; intros name v xs.
  - destruct v; try apply kept_refl. cbn [scan_Marshal].
    pose proof (kept_scan_value true name (λ val, scalar_Scan val x) x xs).
    by destruct (scan_value _ _ _ _ xs).
  - destruct v; try apply kept_refl. cbn [scan_Marshal].
    pose proof (kept_scan_value true name (Enum_Scan names) n xs).
    by destruct (scan_value _ _ _ _ xs).
  - destruct v; try apply kept_refl. cbn [scan_Marshal].
    pose proof (kept_scan_value true name Sscan_int64 n xs).
    by destruct (scan_value _ _ _ _ xs).
  - destruct v; try apply kept_refl. cbn [scan_Marshal].
    destruct (is_sourceAccountEd25519 n name).
    + pose proof (kept_scan_sourceAccount name bs xs).
      by destruct (scan_sourceAccount name bs xs).
    + pose proof (kept_scan_value false name (ArrayOpaque_Scan n) bs xs).
      by destruct (scan_value _ _ _ _ xs).
  - destruct v; try apply kept_refl. cbn [scan_Marshal].
    pose proof (kept_scan_VecOpaque name bs xs).
    by destruct (scan_VecOpaque name bs xs).
  - destruct v; try apply kept_refl. cbn [scan_Marshal].
    pose proof (kept_scan_value true name AccountID_Scan pk xs).
    by destruct (scan_value _ _ _ _ xs).
  - destruct v; try apply kept_refl. cbn [scan_Marshal].
    pose proof (kept_scan_value false (childName name "hint")
                  (ArrayOpaque_Scan 4) hint xs) as H1.
    destruct (scan_value _ _ _ _ xs) as [h xs1].
    pose proof (kept_scan_VecOpaque (childName name "signature") signature xs1)
      as H2.
    destruct (scan_VecOpaque _ _ xs1) as [s xs2]. cbn [snd] in *.
    eapply kept_trans; [done|]. eapply kept_trans; [done|]. apply kept_delete.
  - destruct v; try apply kept_refl. rewrite scan_Marshal_TPtr. cbv zeta.
    pose proof (kept_scan_present name (set_ptrDepth (S (xs_ptrDepth xs)) xs))
      as [H1 Hd1].
    destruct (scan_present _ _) as [b xs1]. cbn [snd] in *.
    apply accumulates_set_ptrDepth_l in H1.
    destruct b.
    + pose proof (IHt name (default (zero_of t) p) xs1) as [H2 Hd2].
      destruct (scan_Marshal t name _ xs1) as [i xs2]. cbn [snd] in *.
      split; [|done]. apply accumulates_set_ptrDepth_r.
      eapply accumulates_trans; [done|].
      eapply accumulates_trans; [done|]. apply kept_delete.
    + split; [|done]. apply accumulates_set_ptrDepth_r.
      eapply accumulates_trans; [done|]. apply kept_delete.
  - destruct v; try apply kept_refl. rewrite scan_Marshal_TVec.
    pose proof (kept_scan_Size name bound xs) as H1.
    destruct (scan_Size name bound xs) as [size xs1].
    pose proof (kept_XdrMarshalN t name IHt (Z.to_nat size) 0 l xs1) as H2.
    destruct (scan_XdrMarshalN _ _ _ _ _ xs1) as [l' xs2]. cbn [snd] in *.
    eapply kept_trans; [done|]. eapply kept_trans; [done|]. apply kept_delete.
  - destruct v; try apply kept_refl. rewrite scan_Marshal_TStruct.
    pose proof (kept_fields name fields H fs xs) as H1.
    destruct (scan_fields name fields fs xs) as [fs' xs1]. cbn [snd] in *.
    eapply kept_trans; [done|]. apply kept_delete.
  - destruct v; try apply kept_refl. rewrite scan_Marshal_TUnion.
    pose proof (kept_scan_value true (childName name tagname) (Enum_Scan names)
                  tag xs) as H1.
    destruct (scan_value _ _ _ _ xs) as [tag' xs1]. cbv zeta. cbn [snd] in H1.
    destruct (find_arm tag' arms) as [[armname ta]|] eqn:Harm.
    + destruct (find_arm_Forall _ _ _ _ H Harm) as [n IH]. cbn [snd] in IH.
      pose proof (IH (childName name armname)
        (default (zero_of ta) (if decide (tag' = tag) then body else None)) xs1)
        as H2.
      destruct (scan_Marshal ta _ _ xs1) as [b xs2]. cbn [snd] in *.
      eapply kept_trans; [done|]. eapply kept_trans; [done|]. apply kept_delete.
    + cbn [snd]. eapply kept_trans; [done|]. apply kept_delete.
  - destruct v; try apply kept_refl. rewrite scan_Marshal_TEnvelope.
    pose proof (kept_scan_value true (name +:+ dot name +:+ "type")
                  (Enum_Scan names) tag xs) as H1.
    destruct (scan_value _ _ _ _ xs) as [tag' xs1]. cbv zeta. cbn [snd] in H1.
    destruct (find_arm tag' arms) as [ta|] eqn:Harm.
    + destruct (find_arm_Forall _ _ _ _ H Harm) as [n IH]. cbn [snd] in IH.
      pose proof (IH name
        (default (zero_of ta) (if decide (tag' = tag) then body else None)) xs1)
        as H2.
      destruct (scan_Marshal ta _ _ xs1) as [b xs2]. cbn [snd] in *.
      eapply kept_trans; [done|]. eapply kept_trans; [done|]. apply kept_delete.
    + cbn [snd]. eapply kept_trans; [done|]. apply kept_delete.
Qed.

(** X2: whatever the tree, the table and the values in it, the parser
    only appends to the errors, and every error it appends carries line 0
    or the number of a line of the table it started from; it only appends
    to the help requests; it never adds or changes an entry of the table;
    and it leaves the pointer depth as it found it. *)
Theorem scan_Marshal_kept (t : xtype) (name : string) (v : xval)
    (xs : xdrScan) :
  let xs' := (scan_Marshal t name v xs).2 in
  (∃ new, xs_err xs' = xs_err xs ++ new
     ∧ Forall (λ e : nat * string,
                 e.1 = 0%nat
                 ∨ ∃ k lv, xs_kvs xs !! k = Some lv ∧ lv_line lv = e.1) new)
  ∧ xs_help xs `prefix_of` xs_help xs'
  ∧ xs_kvs xs' ⊆ xs_kvs xs
  ∧ xs_ptrDepth xs' = xs_ptrDepth xs.
Proof.
  by destruct (kept_scan_Marshal t name v xs) as [(? & ? & ?) ?].
Qed.

End Parse_invariants.

(** ** What the generator keeps, whatever the tree and the annotations *)

Section Generate_invariants.
Context {sc : Scalar} {ext : External}.

(** Nothing, or a text whose last character is a newline. *)
Definition whole_lines (s : string) : Prop :=
  s = "" ∨ ∃ s', s = s' +:+ "
".

Lemma whole_lines_app a b : whole_lines a → whole_lines b → whole_lines (a +:+ b).
Proof.
  intros Ha [->|[b' ->]]; [by rewrite Str.app_nil_r|].
  right. exists (a +:+ b'). by rewrite Str.app_assoc.
Qed.

Lemma whole_lines_line name value : whole_lines (line name value).
Proof.
  right. exists (name +:+ ": " +:+ value). unfold line.
  by rewrite <- !Str.app_assoc.
Qed.

Lemma whole_lines_line_note name value note :
  whole_lines (line_note name value note).
Proof.
  right. exists (name +:+ ": " +:+ value +:+ " (" +:+ note +:+ ")").
  unfold line_note. by rewrite <- !Str.app_assoc.
Qed.

(** From [xp] to [xp']: whole lines were appended to the output, errors
    were only appended, and nothing else changed. *)
Definition keeps (xp xp' : txStringCtx) : Prop :=
  (∃ s, xp_out xp' = xp_out xp +:+ s ∧ whole_lines s)
  ∧ xp_ann xp' = xp_ann xp
  ∧ xp_native xp' = xp_native xp
  ∧ xp_ptrDepth xp' = xp_ptrDepth xp
  ∧ xp_env xp' = xp_env xp
  ∧ xp_err xp `prefix_of` xp_err xp'.

Lemma keeps_refl xp : keeps xp xp.
Proof. split; [|done]. exists "". split; [by rewrite Str.app_nil_r|by left]. Qed.

Lemma keeps_trans xp1 xp2 xp3 : keeps xp1 xp2 → keeps xp2 xp3 → keeps xp1 xp3.
Proof.
  intros ((a & Ha & Hla) & ? & ? & ? & ? & ?) ((b & Hb & Hlb) & ? & ? & ? & ? & ?).
  split; [|repeat split; try congruence; by etrans].
  exists (a +:+ b). split; [|by apply whole_lines_app].
  by rewrite Hb, Ha, Str.app_assoc.
Qed.

Lemma keeps_Fprintf s xp : whole_lines s → keeps xp (Fprintf s xp).
Proof. intros Hs. split; [by exists s|done]. Qed.

Lemma keeps_recovered name msg xp : keeps xp (recovered name msg xp).
Proof.
  split; [|repeat split; try done; by apply prefix_app_r].
  exists "". split; [by rewrite Str.app_nil_r|by left].
Qed.

Lemma keeps_str_Enum name names n xp : keeps xp (str_Enum name names n xp).
Proof.
  unfold str_Enum. destruct (getHelp _ _);
    [|apply keeps_Fprintf, whole_lines_line].
  pose proof (help_fold (map_range names)
    (Fprintf (name +:+ ": " +:+ Enum_String names n +:+ " (") xp)) as Hf.
  destruct (foldl help_step _ _) as [xp' b]. cbn [fst] in Hf. subst xp'.
  rewrite !Fprintf_Fprintf. apply keeps_Fprintf. right.
  exists ((name +:+ ": " +:+ Enum_String names n +:+ " (") +:+
          comma_separated (map_range names).*2 +:+ ")").
  by rewrite <- !Str.app_assoc.
Qed.

Lemma keeps_str_AccountID name pk xp : keeps xp (str_AccountID name pk xp).
Proof.
  unfold str_AccountID. destruct (negb _); apply keeps_Fprintf;
    [apply whole_lines_line_note|apply whole_lines_line].
Qed.

Lemma keeps_str_Leaf k name x xp : keeps xp (str_Leaf k name x xp).
Proof.
  destruct k; cbn [str_Leaf].
  - apply keeps_Fprintf, whole_lines_line.
  - destruct (negb _); apply keeps_Fprintf;
      [apply whole_lines_line_note|apply whole_lines_line].
  - apply keeps_Fprintf, whole_lines_line.
Qed.

Lemma keeps_str_DecoratedSignature name hint sig xp :
  keeps xp (str_DecoratedSignature name hint sig xp).
Proof.
  unfold str_DecoratedSignature. apply keeps_Fprintf, whole_lines_app;
    apply whole_lines_line.
Qed.

Lemma keeps_XdrMarshalN t name :
  (∀ name v xp, keeps xp (str_Marshal t name v xp)) →
  ∀ l i xp, keeps xp (str_XdrMarshalN t name l i xp).
Proof.
  intros IH l. induction l as [|e l IHl]; intros i xp; [apply keeps_refl|].
  cbn [str_XdrMarshalN]. eapply keeps_trans; [apply IH|apply IHl].
Qed.

Lemma keeps_fields name fields :
  Forall (λ f : string * xtype,
            ∀ name v xp, keeps xp (str_Marshal f.2 name v xp)) fields →
  ∀ fs xp, keeps xp (str_fields name fields fs xp).
Proof.
  induction 1 as [|[f tf] fields IH _ IHf]; intros fs xp;
    [destruct fs; apply keeps_refl|].
  destruct fs as [|vf fs]; [apply keeps_refl|]. cbn [str_fields].
  cbn [snd] in IH. eapply keeps_trans; [apply IH|apply IHf].
Qed.

(** What the cleanup of [track] leaves of a call that started from
    [track_ptr xp] or [track_env v xp]. *)
Lemma keeps_restore (xp xp0 xp1 xp2 : txStringCtx) :
  xp_out xp0 = xp_out xp → xp_ann xp0 = xp_ann xp →
  xp_native xp0 = xp_native xp →
  keeps xp0 xp1 → keeps xp1 xp2 → keeps xp (restore xp xp2).
Proof.
  intros Ho Ha Hn H1 H2.
  destruct (keeps_trans _ _ _ H1 H2) as ((s & Hs & Hl) & ? & ? & _).
  split; [|repeat split; cbn; first [congruence|done]].
  exists s. split; [|done]. cbn. congruence.
Qed.

Lemma keeps_str_Marshal (t : xtype) (name : string) (v : xval)
    (xp : txStringCtx) :
  keeps xp (str_Marshal t name v xp).
Proof.
  revert name v xp. induction t using xtype_nested_ind; intros name v xp.
  - destruct v; try apply keeps_refl. apply keeps_str_Leaf.
  - destruct v; try apply keeps_refl. apply keeps_str_Enum.
  - destruct v; try apply keeps_refl. cbn [str_Marshal].
    apply keeps_Fprintf, whole_lines_line_note.
  - destruct v; try apply keeps_refl. cbn [str_Marshal].
    destruct (is_sourceAccountEd25519 n name);
      [apply keeps_str_AccountID|apply keeps_Fprintf, whole_lines_line].
  - destruct v; try apply keeps_refl. cbn [str_Marshal].
    apply keeps_Fprintf, whole_lines_line.
  - destruct v; try apply keeps_refl. apply keeps_str_AccountID.
  - destruct v; try apply keeps_refl. apply keeps_str_DecoratedSignature.
  - destruct v; try apply keeps_refl. cbn [str_Marshal]. cbv zeta.
    eapply (keeps_restore xp (track_ptr xp)); [done|done|done| |].
    + apply keeps_Fprintf. right.
      exists (name +:+ present (xp_ptrDepth (track_ptr xp)) +:+ ": " +:+
              match p with Some _ => "true" | None => "false" end).
      by rewrite <- !Str.app_assoc.
    + destruct p; [apply IHt|apply keeps_refl].
  - destruct v; try apply keeps_refl. rewrite str_Marshal_TVec.
    eapply keeps_trans; [|by apply keeps_XdrMarshalN].
    apply keeps_Fprintf. right.
    exists (name +:+ dot name +:+ ps_len +:+ ": " +:+
            Fmt.d (Z.of_nat (length l))).
    by rewrite <- !Str.app_assoc.
  - destruct v; try apply keeps_refl. rewrite str_Marshal_TStruct.
    by apply keeps_fields.
  - destruct v; try apply keeps_refl. rewrite str_Marshal_TUnion. cbv zeta.
    eapply keeps_trans; [apply keeps_str_Enum|].
    destruct (find_arm tag arms) as [[armname ta]|] eqn:Harm.
    + destruct (find_arm_Forall _ _ _ _ H Harm) as [n IH]. cbn [snd] in IH.
      destruct body; [apply IH|apply keeps_refl].
    + case_bool_decide; [apply keeps_refl|apply keeps_recovered].
  - destruct v; try apply keeps_refl. rewrite str_Marshal_TEnvelope. cbv zeta.
    eapply (keeps_restore xp (track_env (VUnion tag body) xp));
      [done|done|done| |].
    + apply keeps_Fprintf. right.
      exists (name +:+ dot name +:+ "type: " +:+ Enum_String names tag).
      by rewrite <- !Str.app_assoc.
    + destruct (find_arm tag arms) as [ta|] eqn:Harm; [|apply keeps_refl].
      destruct (find_arm_Forall _ _ _ _ H Harm) as [n IH]. cbn [snd] in IH.
      destruct body; [apply IH|apply keeps_refl].
Qed.

(** X3: whatever the tree and the annotations, the generator only appends
    to the output, and what it appends is nothing or ends a line; it
    leaves the annotations, the native asset name, the pointer depth and
    the envelope as they were, and keeps the errors recorded before. *)
Theorem str_Marshal_keeps (t : xtype) (name : string) (v : xval)
    (xp : txStringCtx) :
  let xp' := str_Marshal t name v xp in
  (∃ s, xp_out xp' = xp_out xp +:+ s ∧ (s = "" ∨ ∃ s', s = s' +:+ "
"))
  ∧ xp_ann xp' = xp_ann xp
  ∧ xp_native xp' = xp_native xp
  ∧ xp_ptrDepth xp' = xp_ptrDepth xp
  ∧ xp_env xp' = xp_env xp
  ∧ xp_err xp `prefix_of` xp_err xp'.
Proof. apply keeps_str_Marshal. Qed.

(** X4: the cleanup of [track] puts the whole of [trackTypes] back, the
    error list included. An invalid value found at or below an optional
    field or a transaction envelope is therefore forgotten when that node
    returns: the errors after such a node are the errors before it, and
    [XdrToTxrep] of an optional or of an envelope reports none. *)
Theorem str_Marshal_forgets (ann : Annotations) (name : string) (t : xtype)
    (names : gmap Z string) (arms : list (Z * xtype)) (p : option xval)
    (tag : Z) (body : option xval) (xp : txStringCtx) :
  xp_err (str_Marshal (TPtr t) name (VPtr p) xp) = xp_err xp
  ∧ xp_err (str_Marshal (TEnvelope names arms) name (VUnion tag body) xp)
    = xp_err xp
  ∧ (XdrToTxrep ann name (TPtr t) (VPtr p)).2 = []
  ∧ (XdrToTxrep ann name (TEnvelope names arms) (VUnion tag body)).2 = [].
Proof.
  assert (∀ xp, xp_err (str_Marshal (TEnvelope names arms) name
                          (VUnion tag body) xp) = xp_err xp) as He
    by (intros xp0; by rewrite str_Marshal_TEnvelope).
  split; [done|]. split; [apply He|]. split; [done|].
  unfold XdrToTxrep. cbn [snd]. by rewrite He.
Qed.

End Generate_invariants.

(** ** Parsing a document without lines *)

Section Empty_table.
Context {sc : Scalar} {ext : External}.

(** The bound of every sequence type in [t] is a [uint32]'s: not
    negative. *)
Fixpoint bounds_ok (t : xtype) : bool :=
  match t with
  | TPtr t' => bounds_ok t'
  | TVec bound t' => (0 <=? bound) && bounds_ok t'
  | TStruct fields => forallb (λ f, bounds_ok f.2) fields
  | TUnion _ _ arms => forallb (λ a, bounds_ok a.2.2) arms
  | TEnvelope _ arms => forallb (λ a, bounds_ok a.2) arms
  | _ => true
  end.

Lemma kvs_ok_empty xs key : xs_kvs xs = ∅ → kvs_ok xs key = false.
Proof.
  intros E. unfold kvs_ok. rewrite E, lookup_empty.
  apply bool_decide_eq_false. by intros [? ?].
Qed.

Lemma kvs_get_empty xs key : xs_kvs xs = ∅ → kvs_get xs key = mkLineval 0 "".
Proof. intros E. unfold kvs_get. by rewrite E, lookup_empty. Qed.

Lemma kvs_delete_empty xs key : xs_kvs xs = ∅ → kvs_delete key xs = xs.
Proof.
  intros E. destruct xs as [d kvs err help]. cbn in E. subst kvs.
  unfold kvs_delete. cbn. by rewrite delete_empty.
Qed.

Lemma scan_value_empty {A : Type} q name (scanned : string → Scan.result A)
    old xs :
  xs_kvs xs = ∅ → scan_value q name scanned old xs = (old, xs).
Proof. intros E. unfold scan_value. by rewrite kvs_ok_empty. Qed.

Lemma scan_VecOpaque_empty name old xs :
  xs_kvs xs = ∅ → scan_VecOpaque name old xs = (old, xs).
Proof. intros E. unfold scan_VecOpaque. by rewrite kvs_ok_empty. Qed.

Lemma scan_Size_empty name bound xs :
  0 <= bound → xs_kvs xs = ∅ → scan_Size name bound xs = (0, xs).
Proof.
  intros Hb E. unfold scan_Size. rewrite kvs_get_empty by done.
  cbn [lv_val]. rewrite Sscan_uint32_empty. cbn [from_option].
  destruct (Z.leb_spec 0 bound); [|lia]. by rewrite kvs_delete_empty.
Qed.

Lemma scan_present_empty name xs :
  xs_kvs xs = ∅ → scan_present name xs = (false, xs).
Proof.
  intros E. unfold scan_present. rewrite kvs_get_empty by done.
  cbn [lv_val]. change (Scan.word "") with (@None string). cbv beta iota.
  rewrite kvs_ok_empty by done. rewrite E.
  rewrite bool_decide_eq_false_2; [done|].
  intros (k & x & Hk & _). by rewrite lookup_empty in Hk.
Qed.

Lemma scan_XdrMarshalN_0 t name i l xs :
  scan_XdrMarshalN t name 0 i l xs = ([], xs).
Proof. done. Qed.

Lemma scan_fields_empty name fields :
  Forall (λ f : string * xtype, bounds_ok f.2 = true →
            ∀ name v xs, xs_kvs xs = ∅ → (scan_Marshal f.2 name v xs).2 = xs)
    fields →
  forallb (λ f, bounds_ok f.2) fields = true →
  ∀ fs xs, xs_kvs xs = ∅ → (scan_fields name fields fs xs).2 = xs.
Proof.
  induction 1 as [|[f tf] fields IH _ IHf]; intros Hb fs xs E;
    [by destruct fs|].
  destruct fs as [|vf fs]; [done|]. cbn [scan_fields].
  cbn [forallb snd] in Hb, IH. apply andb_prop in Hb as [Hb1 Hb2].
  pose proof (IH Hb1 (childName name f) vf xs E) as H1.
  destruct (scan_Marshal tf _ _ xs) as [e xs1]. cbn [snd] in H1. subst xs1.
  pose proof (IHf Hb2 fs xs E) as H2.
  by destruct (scan_fields name fields fs xs) as [r xs2].
Qed.

Lemma find_arm_forallb {A} (q : Z * A → bool) tag (arms : list (Z * A)) a :
  forallb q arms = true → find_arm tag arms = Some a → ∃ n, q (n, a) = true.
Proof.
  induction arms as [|[n b] arms IH]; [done|]. cbn [forallb find_arm].
  intros [Hq Hr]%andb_prop.
  destruct (decide (n = tag)); [|by apply IH].
  intros [= <-]. by exists n.
Qed.

Lemma scan_Marshal_empty (t : xtype) :
  bounds_ok t = true →
  ∀ name v xs, xs_kvs xs = ∅ → (scan_Marshal t name v xs).2 = xs.
Proof.
  induction t using xtype_nested_ind; intros Hb name v xs E.
  - destruct v; try done. cbn [scan_Marshal]. by rewrite scan_value_empty.
  - destruct v; try done. cbn [scan_Marshal]. by rewrite scan_value_empty.
  - destruct v; try done. cbn [scan_Marshal]. by rewrite scan_value_empty.
  - destruct v; try done. cbn [scan_Marshal].
    destruct (is_sourceAccountEd25519 n name).
    + unfold scan_sourceAccount. by rewrite kvs_ok_empty.
    + by rewrite scan_value_empty.
  - destruct v; try done. cbn [scan_Marshal]. by rewrite scan_VecOpaque_empty.
  - destruct v; try done. cbn [scan_Marshal]. by rewrite scan_value_empty.
  - destruct v; try done. cbn [scan_Marshal].
    rewrite scan_value_empty, scan_VecOpaque_empty by done. cbn [snd].
    by apply kvs_delete_empty.
  - destruct v; try done. rewrite scan_Marshal_TPtr. cbv zeta.
    rewrite scan_present_empty by done. cbn [snd].
    destruct xs as [d kvs err help]. cbn in E. subst kvs.
    unfold set_ptrDepth, kvs_delete. cbn. by rewrite delete_empty.
  - destruct v; try done. rewrite scan_Marshal_TVec.
    cbn [bounds_ok] in Hb. apply andb_prop in Hb as [Hb _].
    rewrite scan_Size_empty by (done || lia). cbn [Z.to_nat].
    rewrite scan_XdrMarshalN_0. cbn [snd]. by apply kvs_delete_empty.
  - destruct v; try done. rewrite scan_Marshal_TStruct.
    pose proof (scan_fields_empty name fields H Hb fs xs E) as H1.
    destruct (scan_fields name fields fs xs) as [fs' xs1]. cbn [snd] in *.
    subst xs1. by apply kvs_delete_empty.
  - destruct v; try done. rewrite scan_Marshal_TUnion.
    rewrite scan_value_empty by done. cbv zeta.
    destruct (find_arm tag arms) as [[armname ta]|] eqn:Harm.
    + destruct (find_arm_Forall _ _ _ _ H Harm) as [n IH]. cbn [snd] in IH.
      destruct (find_arm_forallb _ _ _ _ Hb Harm) as [n' Hb']. cbn [snd] in Hb'.
      pose proof (IH Hb' (childName name armname)
        (default (zero_of ta) (if decide (tag = tag) then body else None)) xs E)
        as H2.
      destruct (scan_Marshal ta _ _ xs) as [b xs2]. cbn [snd] in *. subst xs2.
      by apply kvs_delete_empty.
    + cbn [snd]. by apply kvs_delete_empty.
  - destruct v; try done. rewrite scan_Marshal_TEnvelope.
    rewrite scan_value_empty by done. cbv zeta.
    destruct (find_arm tag arms) as [ta|] eqn:Harm.
    + destruct (find_arm_Forall _ _ _ _ H Harm) as [n IH]. cbn [snd] in IH.
      destruct (find_arm_forallb _ _ _ _ Hb Harm) as [n' Hb']. cbn [snd] in Hb'.
      pose proof (IH Hb' name
        (default (zero_of ta) (if decide (tag = tag) then body else None)) xs E)
        as H2.
      destruct (scan_Marshal ta _ _ xs) as [b xs2]. cbn [snd] in *. subst xs2.
      by apply kvs_delete_empty.
    + cbn [snd]. by apply kvs_delete_empty.
Qed.

(** X5: with an empty table the parser records nothing, whatever the tree:
    no error, no help request, and the state it returns is the state it
    was given. It follows that [XdrFromTxrep] of the empty document
    returns without an error. The bounds of the sequence types must not be
    negative, as a zero size is compared with them. *)
Theorem scan_Marshal_empty_table (t : xtype) (name : string) (v : xval)
    (xs : xdrScan) :
  bounds_ok t = true → xs_kvs xs = ∅ →
  (scan_Marshal t name v xs).2 = xs
  ∧ ∃ v', XdrFromTxrep "" name t v = Some (v', [], []).
Proof.
  intros Hb E. split; [by apply scan_Marshal_empty|].
  assert (readKvs "" (mkScan 0 ∅ [] []) = Some (mkScan 0 ∅ [] [])) as Hr.
  { unfold readKvs. cbn [String.length readKvs_loop ReadTextLine
      read_to_newline drop_final_cr xs_ptrDepth xs_err xs_help].
    rewrite (bool_decide_eq_true_2 (is_Some (Some EOF))) by done.
    rewrite (bool_decide_eq_true_2 (EOF = EOF)) by done.
    by rewrite orb_true_r. }
  unfold XdrFromTxrep. rewrite Hr. cbn [mbind option_bind].
  pose proof (scan_Marshal_empty t Hb name v (mkScan 0 ∅ [] []) eq_refl) as H1.
  destruct (scan_Marshal t name v _) as [v' xs']. cbn [snd] in H1. subst xs'.
  by exists v'.
Qed.

End Empty_table.

(** ** The parsed tree respects the bounds *)

Section Within_bounds.
Context {sc : Scalar} {ext : External}.

(** Every sequence of [v] that a traversal along [t] reaches has at most
    as many elements as its type allows. *)
Fixpoint within (t : xtype) (v : xval) {struct t} : Prop :=
  match t, v with
  | TPtr t', VPtr (Some i) => within t' i
  | TVec bound t', VVec l =>
      Z.of_nat (length l) <= bound ∧ Forall (within t') l
  | TStruct fields, VStruct fs =>
      (fix go (fields : list (string * xtype)) (fs : list xval) : Prop :=
         match fields, fs with
         | (_, tf) :: fields', vf :: fs' => within tf vf ∧ go fields' fs'
         | _, _ => True
         end) fields fs
  | TUnion _ _ arms, VUnion tag body =>
      (fix go (arms : list (Z * (string * xtype))) : Prop :=
         match arms with
         | [] => True
         | (n, (_, ta)) :: arms' =>
             if decide (n = tag) then
               match body with Some b => within ta b | None => True end
             else go arms'
         end) arms
  | TEnvelope _ arms, VUnion tag body =>
      (fix go (arms : list (Z * xtype)) : Prop :=
         match arms with
         | [] => True
         | (n, ta) :: arms' =>
             if decide (n = tag) then
               match body with Some b => within ta b | None => True end
             else go arms'
         end) arms
  | _, _ => True
  end.

Fixpoint within_fields (fields : list (string * xtype)) (fs : list xval)
  : Prop :=
  match fields, fs with
  | (_, tf) :: fields', vf :: fs' => within tf vf ∧ within_fields fields' fs'
  | _, _ => True
  end.

Lemma within_TStruct fields fs :
  within (TStruct fields) (VStruct fs) ↔ within_fields fields fs.
Proof.
  cbn [within]. revert fs.
  induction fields as [|[f tf] fields IH]; intros fs; [by destruct fs|].
  destruct fs as [|vf fs]; [done|]. cbn [within_fields]. by rewrite <- IH.
Qed.

Lemma within_TUnion tagname names arms tag body :
  within (TUnion tagname names arms) (VUnion tag body) ↔
    match find_arm tag arms, body with
    | Some (_, ta), Some b => within ta b
    | _, _ => True
    end.
Proof.
  cbn [within]. induction arms as [|[n [armname ta]] arms IH]; [done|].
  cbn [find_arm]. destruct (decide (n = tag)); [by destruct body|]. apply IH.
Qed.

Lemma within_TEnvelope names arms tag body :
  within (TEnvelope names arms) (VUnion tag body) ↔
    match find_arm tag arms, body with
    | Some ta, Some b => within ta b
    | _, _ => True
    end.
Proof.
  cbn [within]. induction arms as [|[n ta] arms IH]; [done|].
  cbn [find_arm]. destruct (decide (n = tag)); [by destruct body|]. apply IH.
Qed.

Lemma scan_Size_le name bound xs :
  0 <= bound → 0 <= (scan_Size name bound xs).1 <= bound.
Proof.
  intros Hb. unfold scan_Size.
  set (size := default 0 (Sscan_uint32 (lv_val (kvs_get xs _)))).
  assert (0 <= size) as Hs.
  { unfold size. destruct (Sscan_uint32 _) as [n|] eqn:E; [|done].
    apply Sscan_uint32_range in E. cbn. lia. }
  destruct (Z.leb_spec size bound); cbn [fst]; lia.
Qed.

Lemma scan_XdrMarshalN_within t name :
  (∀ name v xs, within t (scan_Marshal t name v xs).1) →
  ∀ n i l xs, Forall (within t) (scan_XdrMarshalN t name n i l xs).1.
Proof.
  intros IH n. induction n as [|n IHn]; intros i l xs; [by constructor|].
  cbn [scan_XdrMarshalN].
  pose proof (IH (elemName name i) (default (zero_of t) (head l)) xs) as H1.
  destruct (scan_Marshal t _ _ xs) as [e xs1].
  pose proof (IHn (S i) (tail l) xs1) as H2.
  destruct (scan_XdrMarshalN t name n (S i) (tail l) xs1) as [r xs2].
  by constructor.
Qed.

Lemma scan_fields_within name fields :
  Forall (λ f : string * xtype, bounds_ok f.2 = true →
            ∀ name v xs, within f.2 (scan_Marshal f.2 name v xs).1) fields →
  forallb (λ f, bounds_ok f.2) fields = true →
  ∀ fs xs, within_fields fields (scan_fields name fields fs xs).1.
Proof.
  induction 1 as [|[f tf] fields IH _ IHf]; intros Hb fs xs;
    [by destruct fs|].
  destruct fs as [|vf fs]; [done|]. cbn [scan_fields].
  cbn [forallb snd] in Hb, IH. apply andb_prop in Hb as [Hb1 Hb2].
  pose proof (IH Hb1 (childName name f) vf xs) as H1.
  destruct (scan_Marshal tf _ _ xs) as [e xs1].
  pose proof (IHf Hb2 fs xs1) as H2.
  destruct (scan_fields name fields fs xs1) as [r xs2].
  by split.
Qed.

Lemma within_scan_Marshal (t : xtype) :
  bounds_ok t = true →
  ∀ name v xs, within t (scan_Marshal t name v xs).1.
Proof.
  induction t using xtype_nested_ind; intros Hb name v xs;
    try (by destruct v).
  - destruct v; try done. rewrite scan_Marshal_TPtr. cbv zeta.
    destruct (scan_present _ _) as [b xs1].
    destruct b; [|done].
    pose proof (IHt Hb name (default (zero_of t) p) xs1) as H2.
    by destruct (scan_Marshal t name _ xs1) as [i xs2].
  - destruct v; try done. rewrite scan_Marshal_TVec.
    cbn [bounds_ok] in Hb. apply andb_prop in Hb as [Hb1 Hb2].
    apply Z.leb_le in Hb1.
    pose proof (scan_Size_le name bound xs Hb1) as Hsz.
    destruct (scan_Size name bound xs) as [size xs1]. cbn [fst] in Hsz.
    pose proof (scan_XdrMarshalN_length t name (Z.to_nat size) 0 l xs1) as Hlen.
    pose proof (scan_XdrMarshalN_within t name (IHt Hb2) (Z.to_nat size) 0 l xs1)
      as Hall.
    destruct (scan_XdrMarshalN _ _ _ _ _ xs1) as [l' xs2]. cbn [fst] in *.
    split; [lia|done].
  - destruct v; try done. rewrite scan_Marshal_TStruct.
    pose proof (scan_fields_within name fields H Hb fs xs) as H1.
    destruct (scan_fields name fields fs xs) as [fs' xs1]. cbn [fst] in *.
    by apply within_TStruct.
  - destruct v; try done. rewrite scan_Marshal_TUnion.
    destruct (scan_value _ _ _ _ xs) as [tag' xs1]. cbv zeta.
    destruct (find_arm tag' arms) as [[armname ta]|] eqn:Harm.
    + destruct (find_arm_Forall _ _ _ _ H Harm) as [n IH]. cbn [snd] in IH.
      destruct (find_arm_forallb _ _ _ _ Hb Harm) as [n' Hb']. cbn [snd] in Hb'.
      pose proof (IH Hb' (childName name armname)
        (default (zero_of ta) (if decide (tag' = tag) then body else None)) xs1)
        as H2.
      destruct (scan_Marshal ta _ _ xs1) as [b xs2]. cbn [fst] in *.
      apply within_TUnion. by rewrite Harm.
    + cbn [fst]. apply within_TUnion. by rewrite Harm.
  - destruct v; try done. rewrite scan_Marshal_TEnvelope.
    destruct (scan_value _ _ _ _ xs) as [tag' xs1]. cbv zeta.
    destruct (find_arm tag' arms) as [ta|] eqn:Harm.
    + destruct (find_arm_Forall _ _ _ _ H Harm) as [n IH]. cbn [snd] in IH.
      destruct (find_arm_forallb _ _ _ _ Hb Harm) as [n' Hb']. cbn [snd] in Hb'.
      pose proof (IH Hb' name
        (default (zero_of ta) (if decide (tag' = tag) then body else None)) xs1)
        as H2.
      destruct (scan_Marshal ta _ _ xs1) as [b xs2]. cbn [fst] in *.
      apply within_TEnvelope. by rewrite Harm.
    + cbn [fst]. apply within_TEnvelope. by rewrite Harm.
Qed.

(** X9: whatever the document says and whatever the tree held before,
    no sequence of the tree that the parser returns is longer than the
    bound of its type, at any depth: a size above the bound is cut down to
    it before the elements are parsed. The bounds are those of a
    [uint32], not negative. *)
Theorem scan_Marshal_within (t : xtype) (name : string) (v : xval)
    (xs : xdrScan) :
  bounds_ok t = true → within t (scan_Marshal t name v xs).1.
Proof. intros Hb. by apply within_scan_Marshal. Qed.

End Within_bounds.

(** ** [renderCode] and [scanCode] are inverse to each other *)

Section renderCode_scanCode.
Import Code.

Lemma IsSpace_printable (r : rune) : 32 < r < 127 → IsSpace r = false.
Proof.
  intros Hr. unfold IsSpace.
  by repeat (rewrite bool_decide_eq_false_2 by lia).
Qed.

(** The three shapes of a rendered byte. *)
Lemma renderByte_shape (b : byte) :
  (runes (renderByte b) = [Z_of_byte b]
   ∧ 32 < Z_of_byte b < 127 ∧ Z_of_byte b ≠ 92)
  ∨ (runes (renderByte b) = [92; 92] ∧ b = "\"%char)
  ∨ (∃ h1 h2 h l,
       runes (renderByte b) = [92; 120; h1; h2]
       ∧ hexval h1 = Some h ∧ hexval h2 = Some l
       ∧ h1 ≠ 10 ∧ IsSpace h1 = false
       ∧ byte_of_Z (16 * h + l) = b).
Proof.
  destruct b as [[] [] [] [] [] [] [] []];
    first
      [ by left; vm_compute
      | by right; left; vm_compute
      | right; right;
        match goal with
        | |- context [renderByte ?b] =>
            exists (Z_of_byte (hexdigit (Z_of_byte b / 16))),
                   (Z_of_byte (hexdigit (Z_of_byte b mod 16))),
                   (Z_of_byte b / 16), (Z_of_byte b mod 16)
        end;
        by vm_compute ].
Qed.

Lemma runes_app (s t : string) : runes (s +:+ t) = runes s ++ runes t.
Proof. unfold runes. by rewrite Str.chars_app, fmap_app. Qed.

(** One turn of the loop of [scanCode] reads back one rendered byte. *)
Lemma scan_loop_renderByte (b o : byte) (out : list byte) (ss : Reader) :
  scan_loop (o :: out) (runes (renderByte b) ++ ss) =
    let '(w, rest, ss', e) := scan_loop out ss in (b :: w, rest, ss', e).
Proof.
  destruct (renderByte_shape b)
    as [(-> & Hr & H92)|[(-> & ->)|(h1 & h2 & h & l & -> & Hh1 & Hh2 & Hnl & Hsp & Hb)]].
  - cbn [app scan_loop ReadRune].
    rewrite (bool_decide_eq_false_2 (None = Some EOF)) by done.
    rewrite IsSpace_printable by done. cbn [orb].
    destruct (Z.leb_spec (Z_of_byte b) 32); [lia|].
    destruct (Z.leb_spec 127 (Z_of_byte b)); [lia|]. cbn [orb].
    rewrite (bool_decide_eq_false_2 (Z_of_byte b = 92)) by done. cbn [negb].
    by rewrite byte_of_Z_of_byte.
  - reflexivity.
  - cbn [app scan_loop ReadRune].
    rewrite (bool_decide_eq_false_2 (None = Some EOF)) by done.
    change (IsSpace 92) with false. cbn [orb].
    change ((92 <=? 32) || (127 <=? 92)) with false. cbv iota.
    change (negb (bool_decide (92 = 92))) with false. cbv iota.
    change (negb (bool_decide (120 = 120))) with false. cbv iota.
    cbn [Fscanf_02x]. rewrite (bool_decide_eq_false_2 (h1 = 10)) by done.
    rewrite Hsp, Hh1, Hh2, Hb. done.
Qed.

Lemma scan_loop_rendered (cs out1 out2 : list byte) :
  length out1 = length cs →
  scan_loop (out1 ++ out2) (runes (foldr (λ b acc, renderByte b +:+ acc) "" cs)) =
    (cs, out2, [], Break (match out2 with [] => None | _ => Some EOF end)).
Proof.
  revert out1. induction cs as [|b cs IH]; intros out1 Hlen.
  - destruct out1; [|done]. by destruct out2.
  - destruct out1 as [|o out1]; [done|]. cbn [foldr app].
    rewrite runes_app, scan_loop_renderByte, IH by (simpl in Hlen; lia). done.
Qed.

Lemma drop_trailing_zeros_spec (bs : list byte) :
  bs = drop_trailing_zeros bs ++
       replicate (length bs - length (drop_trailing_zeros bs)) zero.
Proof.
  induction bs as [|b bs IH]; [done|]. cbn [drop_trailing_zeros].
  destruct (drop_trailing_zeros bs) as [|t ts] eqn:E.
  - case_bool_decide as Hb.
    + subst b. cbn [length app] in *. rewrite Nat.sub_0_r in *.
      cbn [replicate]. by rewrite IH at 1.
    + cbn [length app] in *. rewrite Nat.sub_0_r in IH.
      replace (S (length bs) - 1)%nat with (length bs) by lia. by rewrite IH at 1.
  - cbn [length app] in *. by rewrite IH at 1.
Qed.

Lemma drop_trailing_zeros_length (bs : list byte) :
  (length (drop_trailing_zeros bs) <= length bs)%nat.
Proof.
  rewrite (drop_trailing_zeros_spec bs) at 2. rewrite length_app. lia.
Qed.

Lemma skipspace_rendered (cs : list byte) :
  skipspace (runes (foldr (λ b acc, renderByte b +:+ acc) "" cs)) =
    runes (foldr (λ b acc, renderByte b +:+ acc) "" cs).
Proof.
  destruct cs as [|b cs]; [done|]. cbn [foldr]. rewrite runes_app.
  destruct (renderByte_shape b)
    as [(-> & Hr & _)|[(-> & _)|(h1 & h2 & h & l & -> & _)]]; [|done..].
  cbn [app skipspace]. by rewrite IsSpace_printable.
Qed.

(** X6: [scanCode] reads back what [renderCode] wrote. Whatever the bytes
    of an asset code, zero bytes, blanks, backslashes and bytes above 126
    included, scanning the rendered text into a buffer of the same length
    gives these bytes and no error. *)
Theorem scanCode_renderCode (bs out : list byte) :
  length out = length bs →
  scanCode out (runes (renderCode bs)) = (bs, None).
Proof.
  intros Hlen. unfold scanCode, renderCode.
  rewrite skipspace_rendered.
  pose proof (drop_trailing_zeros_length bs) as Hle.
  rewrite <- (take_drop (length (drop_trailing_zeros bs)) out).
  rewrite scan_loop_rendered by (rewrite length_take; lia).
  cbn [ReadRune].
  rewrite (bool_decide_eq_true_2 (Some EOF = Some EOF)) by done. cbn [negb andb].
  f_equal. rewrite (drop_trailing_zeros_spec bs) at 3. f_equal.
  rewrite const_fmap with (y := zero) by done.
  rewrite length_drop. by rewrite Hlen.
Qed.

End renderCode_scanCode.

(** ** [ReadTextLine] and [readKvs] on any input *)

Section Lines.

Lemma drop_final_cr_parts (raw : string) :
  (drop_final_cr raw = raw ∧ (∀ s, raw ≠ s +:+ String "013" ""))
  ∨ raw = drop_final_cr raw +:+ String "013" "".
Proof.
  induction raw as [|c t IH].
  - left. split; [done|]. by intros [|a s].
  - destruct t as [|c' t'].
    + cbn [drop_final_cr]. case_bool_decide as Hc.
      * subst c. by right.
      * left. split; [done|]. intros [|a s].
        -- rewrite Str.app_nil_l. congruence.
        -- rewrite Str.app_cons. intros [= _ Ht]. by destruct s.
    + change (drop_final_cr (String c (String c' t')))
        with (String c (drop_final_cr (String c' t'))).
      destruct IH as [[Hd Hno]|Hd].
      * left. rewrite Hd. split; [done|]. intros [|a s].
        -- by rewrite Str.app_nil_l.
        -- rewrite Str.app_cons. intros [= _ Ht]. by apply (Hno s).
      * right. rewrite Str.app_cons. by rewrite <- Hd.
Qed.

(** X7: [ReadTextLine] on the bytes [input] of a reader, with or
    without [UnreadRune]. It splits the input at the first newline. The
    text before it, [raw], has no newline; the line returned is the text
    that [fmt] writes for the runes of [raw], which is [raw] when that is
    valid UTF-8, without one final carriage return. Without a newline the
    error is [io.EOF] and the input is used up. With a newline and a
    reader that has [UnreadRune], the error is [nil] and the rest of the
    input follows the newline. With a newline and a reader without
    [UnreadRune], the newline is lost between the two scans and the rune
    after it is read in its place: the error is [io.EOF] when nothing
    follows the newline, [nil] when a second newline follows, which is
    used up, and [io.EOF] when another rune follows, of which one to
    four bytes are used up. On valid UTF-8 behind a reader with
    [UnreadRune], the string-level [ReadTextLine] gives the same line,
    error and rest. *)
Theorem ReadTextLine_parts (unread : bool) (input : string) :
  let '(line, err, rest) := Line.ReadTextLine unread input in
  ∃ raw,
    ("010"%char ∉ Str.chars raw)
    ∧ (let tok := Utf8.encode (Utf8.runes raw) in
       (line = tok ∧ (∀ s, tok ≠ s +:+ String "013" ""))
       ∨ tok = line +:+ String "013" "")
    ∧ (Utf8.valid raw = true → Utf8.encode (Utf8.runes raw) = raw)
    ∧ ((input = raw ∧ err = Some EOF ∧ rest = "")
       ∨ ∃ tail,
           input = raw +:+ String "010" tail
           ∧ if unread then err = None ∧ rest = tail
             else
               match tail with
               | "" => err = Some EOF ∧ rest = ""
               | String c tail' =>
                   if bool_decide (c = "010"%char)
                   then err = None ∧ rest = tail'
                   else err = Some EOF
                        ∧ ∃ taken,
                            (String.length taken <= 3)%nat
                            ∧ tail = String c taken +:+ rest
               end)
    ∧ (unread = true → Utf8.valid input = true →
       ReadTextLine input = (line, err, rest)).
Proof.
  unfold Line.ReadTextLine, ReadTextLine.
  pose proof (Token_spec input 0 (not_elem_of_nil _)) as HT.
  pose proof (read_to_newline_parts input) as Hparts.
  destruct (read_to_newline input) as [[raw e] tail]. cbn [fst snd] in HT.
  destruct Hparts as [Hnl Hs]. rewrite HT. fold (Utf8.runes raw).
  assert (Utf8.valid raw = true → Utf8.encode (Utf8.runes raw) = raw) as Hvalid.
  { intros Hv. by apply (encode_decode_valid raw 0). }
  destruct e as [e|].
  - (* no newline *)
    destruct Hs as (-> & -> & ->).
    assert ((if unread then "" else Str.drop 1 "") = "") as ->
      by (by destruct unread).
    cbn. exists raw. split; [done|]. split; [apply drop_final_cr_parts|].
    split; [done|]. split; [by left|].
    intros _ Hv. by rewrite (Hvalid Hv).
  - (* a newline *)
    destruct unread.
    + change (Utf8.DecodeRune (String "010" tail)) with (10, 1%nat).
      cbn. exists raw. split; [done|]. split; [apply drop_final_cr_parts|].
      split; [done|]. split; [right; by exists tail|].
      intros _ Hv. rewrite Hs in Hv. apply valid_from_cut in Hv.
      by rewrite (Hvalid Hv).
    + cbn [Str.drop].
      destruct tail as [|c tail'].
      * cbn. exists raw. split; [done|]. split; [apply drop_final_cr_parts|].
        split; [done|]. split; [right; by exists ""|]. done.
      * pose proof (DecodeRune_newline c tail') as Hc.
        destruct (Utf8.DecodeRune (String c tail')) as [r size] eqn:Hd.
        cbn [fst] in Hc.
        rewrite (bool_decide_eq_true_2 (None = None)) by done. cbn [andb].
        exists raw. split; [done|]. split; [apply drop_final_cr_parts|].
        split; [done|]. split; [|done]. right. exists (String c tail').
        split; [done|]. case_bool_decide as Hn.
        -- subst c. rewrite (bool_decide_eq_true_2 (r = 10)) by (by apply Hc).
           cbn [negb]. split; [done|]. reflexivity.
        -- rewrite (bool_decide_eq_false_2 (r = 10)) by (by rewrite Hc).
           cbn [negb]. split; [done|].
           pose proof (read_loop_ge 4 1 (String c tail')) as Hw.
           pose proof (read_loop_le 4 1 (String c tail')) as Hw'.
           fold (Line.read_width (String c tail')) in Hw, Hw'.
           cbn [String.length] in Hw'.
           destruct (Line.read_width (String c tail')) as [|w] eqn:Ew; [lia|].
           exists (Str.take w tail'). cbn [Str.drop]. split.
           ++ pose proof (length_take_le w tail'). lia.
           ++ by rewrite Str.app_cons, take_drop_str.
Qed.

End Lines.

(** A reader without [UnreadRune], such as [os.Stdin], loses the rune
    after the newline, unless that is a second newline. *)
Example ReadTextLine_without_UnreadRune :
  Line.ReadTextLine false "abc
def
" = ("abc", Some EOF, "ef
")
  ∧ Line.ReadTextLine false "abc

def" = ("abc", None, "def")
  ∧ Line.ReadTextLine false "
" = ("", Some EOF, "")
  ∧ Line.ReadTextLine true "abc
def
" = ("abc", None, "def
").
Proof. repeat split; vm_compute; reflexivity. Qed.

(** It loses the whole rune, and the bytes read to tell that a rune is
    broken: the three bytes of U+20AC, and the two bytes 0xE2 0x28. *)
Example ReadTextLine_loses_bytes :
  Line.ReadTextLine false
    (String "x" (String "010" (String "226" (String "130" (String "172" "y")))))
  = ("x", Some EOF, "y")
  ∧ Line.ReadTextLine false
      (String "x" (String "010" (String "226" (String "040" (String "172" "y")))))
    = ("x", Some EOF, String "172" "y").
Proof. split; vm_compute; reflexivity. Qed.

(** A byte that starts no encoding comes back as U+FFFD. *)
Example ReadTextLine_stray_byte :
  Line.ReadTextLine true (String "a" (String "255" (String "b" ""))) =
    (String "a" (String "239" (String "191" (String "189" (String "b" "")))),
     Some EOF, "").
Proof. vm_compute. reflexivity. Qed.

(** [readKvs] on a reader without [UnreadRune]: the second key has lost
    its first letter. *)
Example readKvs_without_UnreadRune :
  (λ xs, (map_to_list (xs_kvs xs), xs_err xs)) <$>
    Line.readKvs false "fee: 100
seqNum: 7
" (mkScan 0 ∅ [] []) =
  Some ([("eqNum", mkLineval 2 " 7"); ("fee", mkLineval 1 " 100")], []).
Proof. vm_compute. reflexivity. Qed.

Section readKvs_any_input.
Context {sc : Scalar} {ext : External}.

Global Instance line_without_colon_dec (l : string) :
  Decision (line_without_colon l).
Proof. unfold line_without_colon. apply _. Defined.

(** One ["syntax error"] for every line that is not blank and has no
    colon, at the number of the line, counted from [lineno + 1]. *)
Fixpoint syntax_errors (segs : list string) (lineno : nat) : TxrepError :=
  match segs with
  | [] => []
  | l :: segs' =>
      (if decide (line_without_colon l) then [(S lineno, "syntax error")]
       else [])
      ++ syntax_errors segs' (S lineno)
  end.

(** The key, the line number and the value of every line with a colon. *)
Fixpoint entries (segs : list string) (lineno : nat)
  : list (string * lineval) :=
  match segs with
  | [] => []
  | l :: segs' =>
      match Scan.split_colon (drop_final_cr l) with
      | Some (k, v) => [(k, mkLineval (S lineno) v)]
      | None => []
      end
      ++ entries segs' (S lineno)
  end.

Lemma process_all_fields_kept segs lineno xs :
  xs_ptrDepth (process_all segs lineno xs) = xs_ptrDepth xs
  ∧ xs_help (process_all segs lineno xs) = xs_help xs.
Proof.
  revert lineno xs. induction segs as [|l segs IH]; intros lineno xs; [done|].
  cbn [process_all]. destruct (IH (S lineno)
    (process_line (S lineno) (drop_final_cr l) xs)) as [-> ->].
  unfold process_line. destruct (Str.is_empty _); [done|].
  by destruct (Scan.split_colon _) as [[k v]|].
Qed.

Lemma process_all_err segs lineno xs :
  xs_err (process_all segs lineno xs) = xs_err xs ++ syntax_errors segs lineno.
Proof.
  revert lineno xs. induction segs as [|l segs IH]; intros lineno xs.
  - by rewrite app_nil_r.
  - cbn [process_all syntax_errors]. rewrite IH, app_assoc. f_equal.
    unfold process_line.
    destruct (Str.is_empty (drop_final_cr l)) eqn:E.
    + apply is_empty_true in E.
      rewrite decide_False by (unfold line_without_colon; rewrite E; tauto).
      by rewrite app_nil_r.
    + assert (drop_final_cr l ≠ "") by (intros E'; by rewrite E' in E).
      destruct (Scan.split_colon (drop_final_cr l)) as [[k v]|] eqn:Hsc.
      * rewrite decide_False
          by (unfold line_without_colon; rewrite Hsc; by intros [_ ?]).
        by rewrite app_nil_r.
      * by rewrite decide_True by (by split).
Qed.

Lemma process_all_kvs segs lineno xs :
  xs_kvs (process_all segs lineno xs) =
    list_to_map (reverse (entries segs lineno)) ∪ xs_kvs xs.
Proof.
  revert lineno xs. induction segs as [|l segs IH]; intros lineno xs.
  - cbn. by rewrite (left_id_L ∅ (∪)).
  - cbn [process_all entries]. rewrite IH, list.reverse_app, list_to_map_app.
    rewrite <- (assoc_L (∪)). f_equal.
    unfold process_line.
    destruct (Str.is_empty (drop_final_cr l)) eqn:E.
    + apply is_empty_true in E. rewrite E. cbn.
      by rewrite (left_id_L ∅ (∪)).
    + destruct (Scan.split_colon _) as [[k v]|]; cbn.
      * by rewrite insert_union_singleton_l.
      * by rewrite (left_id_L ∅ (∪)).
Qed.

(** X8: [readKvs] on the bytes of a reader with [UnreadRune], whatever
    they are. It returns; it starts from an empty table, whatever the
    table before; it appends one ["syntax error"] per line of the text
    that is not blank and has no colon, in the order of the lines and
    with their numbers, and no other error; the table it leaves maps
    every key to the number and the value of the last line that has this
    key; the pointer depth and the help requests stay as they were. The
    lines of the text are those of the input where that is valid UTF-8,
    and the string-level [readKvs] then returns the same. *)
Theorem readKvs_table (input : string) (xs0 : xdrScan) :
  ∃ xs,
    Line.readKvs true input xs0 = Some xs
    ∧ xs_err xs = xs_err xs0 ++ syntax_errors (text_lines input) 0
    ∧ xs_kvs xs = list_to_map (reverse (entries (text_lines input) 0))
    ∧ xs_ptrDepth xs = xs_ptrDepth xs0
    ∧ xs_help xs = xs_help xs0
    ∧ (Utf8.valid input = true →
       text_lines input = split_lines input ∧ readKvs input xs0 = Some xs).
Proof.
  eexists. split; [apply Line_readKvs_total|].
  rewrite process_all_err, process_all_kvs.
  destruct (process_all_fields_kept (text_lines input) 0
    (mkScan (xs_ptrDepth xs0) ∅ (xs_err xs0) (xs_help xs0))) as [-> ->].
  cbn [xs_err xs_kvs xs_ptrDepth xs_help].
  rewrite (right_id_L ∅ (∪)). do 4 (split; [done|]).
  intros Hv. split; [by apply text_lines_valid|].
  by rewrite readKvs_total, (text_lines_valid input Hv).
Qed.

End readKvs_any_input.

(** ** The presence keys of nested optional fields *)

Section present_facts.

Lemma length_Repeat (s : string) (n : nat) :
  String.length (Str.Repeat s n) = (n * String.length s)%nat.
Proof.
  induction n as [|n IH]; [done|]. cbn [Str.Repeat].
  rewrite Str.length_app, IH. lia.
Qed.

Lemma length_present (d : nat) :
  String.length (present d) = (9 + 6 * (d - 1))%nat.
Proof.
  unfold present. rewrite !Str.length_app, length_Repeat. cbn. lia.
Qed.

(** X10: optional fields nested to different depths under one name have
    different presence keys (["._present"], ["._inner_present"], ...), so
    that one line of a document never answers for two levels. The depth is
    at least 1 wherever the key is built, as [track] has counted the
    optional field itself. *)
Theorem present_injective (name : string) (d1 d2 : nat) :
  (1 <= d1)%nat → (1 <= d2)%nat → d1 ≠ d2 →
  name +:+ present d1 ≠ name +:+ present d2.
Proof.
  intros H1 H2 Hne E. apply (f_equal String.length) in E.
  rewrite !Str.length_app, !length_present in E. lia.
Qed.

End present_facts.

(** ** [firstDifferentLine] (cmd/stc/stc.go) *)

Section firstDifferentLine_facts.

(** The loop [for i := 0; ; i++]. [None] stands for an index out of
    range or an exhausted fuel, neither of which happens (see
    [firstDifferentLine_loop_spec]). The line counter is at most the length
    of [a] plus one, so that the [int] never wraps. *)
Fixpoint firstDifferentLine_loop (fuel : nat) (a b : list byte) (n m : nat)
    (i : nat) (lineno : Z) : option Z :=
  match fuel with
  | O => None
  | S fuel =>
      if decide (n <= i)%nat then
        Some (if decide (m <= i)%nat then 0 else lineno)
      else
        match a !! i, b !! i with
        | Some x, Some y =>
            if decide (x ≠ y) then Some lineno
            else
              firstDifferentLine_loop fuel a b n m (S i)
                (if decide (x = "010"%char) then lineno + 1 else lineno)
        | _, _ => None
        end
  end.

Definition firstDifferentLine (a b : list byte) : option Z :=
  let n := length a in
  let m := n in
  let '(n, m) :=
    if decide (length b < n)%nat then (length b, m) else (n, n) in
  firstDifferentLine_loop (S (length a)) a b n m 0 1.

(** The number of newlines in a text. *)
Definition newlines (l : list byte) : Z :=
  Z.of_nat (length (filter (λ c, c = "010"%char) l)).

Lemma firstDifferentLine_loop_spec (pre a b : list byte) (fuel : nat)
    (lineno : Z) :
  (length a < fuel)%nat →
  firstDifferentLine_loop fuel (pre ++ a) (pre ++ b)
    (length pre + (length a `min` length b)) (length pre + length a)
    (length pre) lineno =
  Some (if bool_decide (a `prefix_of` b) then 0
        else lineno + newlines (max_prefix a b).2).
Proof.
  revert pre b fuel lineno.
  induction a as [|x a IH]; intros pre b fuel lineno Hf.
  - destruct fuel as [|fuel]; [simpl in Hf; lia|].
    cbn [firstDifferentLine_loop length]. rewrite Nat.min_0_l, Nat.add_0_r.
    rewrite !decide_True by lia.
    by rewrite bool_decide_eq_true_2 by apply prefix_nil.
  - destruct fuel as [|fuel]; [simpl in Hf; lia|].
    cbn [firstDifferentLine_loop]. destruct b as [|y b].
    + cbn [length]. rewrite Nat.min_0_r, Nat.add_0_r.
      rewrite decide_True by lia. rewrite decide_False by lia.
      rewrite bool_decide_eq_false_2 by (intros [k Hk]; done).
      cbn. f_equal. unfold newlines. cbn. lia.
    + cbn [length]. rewrite decide_False by lia.
      rewrite !lookup_app_r by lia. rewrite !Nat.sub_diag. cbn [lookup list_lookup].
      destruct (decide (x ≠ y)) as [Hne|Heq].
      * rewrite bool_decide_eq_false_2
          by (intros [k Hk]; cbn in Hk; by simplify_eq).
        cbn [max_prefix]. destruct (decide_rel eq x y); [done|].
        f_equal. unfold newlines. cbn. lia.
      * apply dec_stable in Heq. subst y.
        specialize (IH (pre ++ [x]) b fuel
          (if decide (x = "010"%char) then lineno + 1 else lineno)).
        rewrite <- !(assoc_L (++)) in IH. cbn [app] in IH.
        rewrite length_app in IH. cbn [length] in IH.
        replace (length pre + 1 + length a `min` length b)%nat
          with (length pre + S (length a `min` length b))%nat in IH by lia.
        replace (length pre + 1 + length a)%nat
          with (length pre + S (length a))%nat in IH by lia.
        replace (length pre + 1)%nat with (S (length pre)) in IH by lia.
        rewrite <- Nat.succ_min_distr. rewrite IH by (simpl in Hf; lia).
        f_equal. cbn [max_prefix]. destruct (decide_rel eq x x); [|done].
        destruct (max_prefix a b) as [[r1 r2] c] eqn:Em. cbn [prod_map snd id].
        assert (bool_decide (x :: a `prefix_of` x :: b)
                = bool_decide (a `prefix_of` b)) as ->.
        { apply bool_decide_ext. split.
          - intros [k Hk]. exists k. cbn in Hk. by simplify_eq.
          - intros [k Hk]. exists k. by rewrite Hk. }
        case_bool_decide; [done|].
        unfold newlines. rewrite filter_cons.
        destruct (decide (x = "010"%char)); cbn [length]; lia.
Qed.

(** X11: [firstDifferentLine a b] returns 0 exactly when [a] is a prefix
    of [b] (in particular when they are equal, but also when [b] only has
    more text at its end); otherwise it returns the number of the line on
    which the two texts first differ, that is one more than the number of
    newlines in their longest common prefix. *)
Theorem firstDifferentLine_spec (a b : list byte) :
  firstDifferentLine a b =
    Some (if bool_decide (a `prefix_of` b) then 0
          else 1 + newlines (max_prefix a b).2).
Proof.
  unfold firstDifferentLine.
  pose proof (firstDifferentLine_loop_spec [] a b (S (length a)) 1) as H.
  cbn [app length Nat.add] in H. rewrite <- H by lia.
  destruct (decide (length b < length a)%nat).
  - by rewrite Nat.min_r by lia.
  - by rewrite Nat.min_l by lia.
Qed.

End firstDifferentLine_facts.

(** ** [camelize] (the generator of the helper types) *)

Section camelize_facts.
(** [unicode.ToUpper] and [unicode.ToLower] *)
Variables ToUpper ToLower : rune → rune.

(** The loop over the runes of the symbol, with the flag [capitalize]. *)
Fixpoint camelize_loop (s : list rune) (capitalize : bool) : list rune :=
  match s with
  | [] => []
  | c :: s' =>
      if bool_decide (c = 95) then camelize_loop s' true
      else if capitalize then ToUpper c :: camelize_loop s' false
      else ToLower c :: camelize_loop s' false
  end.

Definition camelize (s : list rune) : list rune := camelize_loop s true.

(** The words of a symbol, joined by underscores. *)
Fixpoint joined (words : list (list rune)) : list rune :=
  match words with
  | [] => []
  | [w] => w
  | w :: ws => w ++ 95 :: joined ws
  end.

(** A word with its first rune in upper case and the others in lower
    case. *)
Definition capitalized (w : list rune) : list rune :=
  match w with
  | [] => []
  | c :: w' => ToUpper c :: (ToLower <$> w')
  end.

Lemma camelize_loop_lower (w rest : list rune) :
  95 ∉ w →
  camelize_loop (w ++ rest) false = (ToLower <$> w) ++ camelize_loop rest false.
Proof.
  induction w as [|c w IH]; [done|]. rewrite not_elem_of_cons. intros [Hc Hw].
  cbn [app camelize_loop fmap list_fmap].
  rewrite bool_decide_eq_false_2 by done. by rewrite IH.
Qed.

Lemma camelize_loop_word (w rest : list rune) (cap : bool) :
  95 ∉ w →
  camelize_loop (w ++ 95 :: rest) cap = camelize_loop w cap ++ camelize_loop rest true.
Proof.
  revert cap. induction w as [|c w IH]; intros cap; [done|].
  rewrite not_elem_of_cons. intros [Hc Hw].
  cbn [app camelize_loop]. rewrite bool_decide_eq_false_2 by done.
  destruct cap; by rewrite IH.
Qed.

Lemma camelize_loop_capitalized (w : list rune) :
  95 ∉ w → camelize_loop w true = capitalized w.
Proof.
  destruct w as [|c w]; [done|]. rewrite not_elem_of_cons. intros [Hc Hw].
  cbn [camelize_loop capitalized]. rewrite bool_decide_eq_false_2 by done.
  f_equal. rewrite <- (app_nil_r w) at 1.
  rewrite camelize_loop_lower by done. by rewrite app_nil_r.
Qed.

(** X12: [camelize] turns a symbol made of words joined by underscores
    into the concatenation of the words, each with its first rune in upper
    case and its other runes in lower case; the underscores are dropped. *)
Theorem camelize_words (words : list (list rune)) :
  Forall (λ w, 95 ∉ w) words →
  camelize (joined words) = concat (capitalized <$> words).
Proof.
  unfold camelize. induction 1 as [|w ws Hw _ IH]; [done|].
  destruct ws as [|w' ws].
  - cbn. rewrite app_nil_r. by apply camelize_loop_capitalized.
  - change (joined (w :: w' :: ws)) with (w ++ 95 :: joined (w' :: ws)).
    rewrite camelize_loop_word by done. rewrite IH.
    by rewrite camelize_loop_capitalized.
Qed.

End camelize_facts.

(** ** The text of the errors *)

Section Error_text.

(** [TxrepError.render]: ["%s%d: %s\n"] for every error, in order. *)
Definition TxrepError_render (prefix : string) (e : list (nat * string))
  : string :=
  foldl (λ out le, out +:+ prefix +:+ Fmt.d (Z.of_nat le.1) +:+ ": " +:+
                   le.2 +:+ "
") "" e.

(** [TxrepError.Error] and [TxrepError.FileError] *)
Definition TxrepError_Error (e : list (nat * string)) : string :=
  TxrepError_render "" e.

Definition TxrepError_FileError (filename : string) (e : list (nat * string))
  : string :=
  TxrepError_render (filename +:+ ":") e.

(** [XdrBadValue.Error]: ["%s: %s\n"] for every field, in order. *)
Definition XdrBadValue_Error (e : XdrBadValue) : string :=
  foldl (λ out fe, out +:+ fe.1 +:+ ": " +:+ fe.2 +:+ "
") "" e.

Lemma foldl_append {A : Type} (f : A → string) (l : list A) (acc : string) :
  foldl (λ out x, out +:+ f x) acc l = acc +:+ foldl (λ out x, out +:+ f x) "" l.
Proof.
  revert acc. induction l as [|x l IH]; intros acc; cbn [foldl].
  - by rewrite Str.app_nil_r.
  - rewrite IH, (IH ("" +:+ f x)), Str.app_nil_l. by rewrite Str.app_assoc.
Qed.

Lemma foldl_append_app {A : Type} (f : A → string) (l1 l2 : list A) :
  foldl (λ out x, out +:+ f x) "" (l1 ++ l2) =
    foldl (λ out x, out +:+ f x) "" l1 +:+ foldl (λ out x, out +:+ f x) "" l2.
Proof. by rewrite foldl_app, foldl_append. Qed.

Lemma foldl_append_empty {A : Type} (f : A → string) (l : list A) :
  (∀ x, f x ≠ "") → foldl (λ out x, out +:+ f x) "" l = "" → l = [].
Proof.
  intros Hf. destruct l as [|x l]; [done|]. cbn [foldl].
  rewrite foldl_append, Str.app_nil_l. intros E.
  apply (f_equal String.length) in E. rewrite Str.length_app in E.
  specialize (Hf x). destruct (f x); [done|]. simpl in E. lia.
Qed.

(** X13: the text of a list of errors is the text of its parts, one
    after the other, for the parse errors (with or without a file name in
    front) as for the bad values of the generator; and the text is empty
    only when there is no error at all, as every error ends its own
    line. *)
Theorem Error_text_app (filename : string) (e1 e2 : list (nat * string))
    (b1 b2 : XdrBadValue) :
  TxrepError_FileError filename (e1 ++ e2) =
    TxrepError_FileError filename e1 +:+ TxrepError_FileError filename e2
  ∧ TxrepError_Error (e1 ++ e2) = TxrepError_Error e1 +:+ TxrepError_Error e2
  ∧ XdrBadValue_Error (b1 ++ b2) = XdrBadValue_Error b1 +:+ XdrBadValue_Error b2
  ∧ (TxrepError_Error e1 = "" ↔ e1 = [])
  ∧ (XdrBadValue_Error b1 = "" ↔ b1 = []).
Proof.
  unfold TxrepError_FileError, TxrepError_Error, TxrepError_render,
    XdrBadValue_Error.
  rewrite !foldl_append_app. repeat split; try (by intros ->).
  - apply foldl_append_empty. intros [n msg] E.
    apply (f_equal String.length) in E. rewrite !Str.length_app in E.
    cbn in E. lia.
  - apply foldl_append_empty. intros [f msg] E.
    apply (f_equal String.length) in E. rewrite !Str.length_app in E.
    cbn in E. lia.
Qed.

End Error_text.

(** ** [ScaleFmt] and the sign *)

Section ScaleFmt_sign.

(** X14: for a positive amount [ScaleFmt] of the negated amount is
    [ScaleFmt] of the amount with a minus sign in front: the digits, the
    commas and the fraction are those of the magnitude. *)
Theorem ScaleFmt_negated (val exp : Z) :
  0 < val < 2 ^ 63 → 0 <= exp < 20 →
  ∃ s, ScaleFmt val exp = Some s ∧ ScaleFmt (- val) exp = Some ("-" +:+ s).
Proof.
  intros Hv He. unfold ScaleFmt.
  rewrite (magnitude val), (magnitude (- val)) by (unfold is_int64; lia).
  rewrite Z.abs_opp.
  destruct (exp <? 0) eqn:E1; [lia|]. destruct (20 <=? exp) eqn:E2; [lia|].
  cbn [orb]. rewrite exp10_pow by done. cbn [mbind option_bind].
  assert (0 < 10 ^ exp) as Hu by (apply Z.pow_pos_nonneg; lia).
  assert (0 <= Z.abs val / 10 ^ exp) by (apply Z.div_pos; lia).
  rewrite ScaleFmt_loop_fuel by lia. cbn [mbind option_bind Str.is_empty].
  destruct (val <? 0) eqn:E3; [lia|]. destruct (- val <? 0) eqn:E4; [|lia].
  eexists. split; [reflexivity|]. f_equal.
  destruct (0 <? Z.abs val mod 10 ^ exp); by rewrite <- !Str.app_assoc.
Qed.

End ScaleFmt_sign.

(** * Examples on the demonstration instance *)

Lemma VecOpaque_text_witness :
  let xs := mkScan 0 {[ "data" := mkLineval 1 " deadbeef" ]} [] [] in
  let bs := byte_of_Z <$> [0xde; 0xad; 0xbe; 0xef] in
  bs ≠ [] ∧
  scan_Marshal (ext := Demo.external) TVecOpaque "data" (VBytes []) xs =
    (VBytes bs, kvs_delete "data" xs).
Proof.
  intros xs bs. split; [done|].
  destruct (VecOpaque_text (ext := Demo.external)) as (_ & _ & Hhex).
  apply (Hhex "data" [] xs 1%nat bs); [done|]. reflexivity.
Defined.


Lemma Size_without_len_key_witness :
  let xs := mkScan 0 {[ "fee" := mkLineval 1 " 100" ]} [] [] in
  0 <= 20
  ∧ xs_kvs xs !! ("ops" +:+ "." +:+ ps_len) = None
  ∧ scan_Marshal (ext := Demo.external) (TVec 20 TInt64) "ops"
      (VVec [VInt 1; VInt 2]) xs =
      (VVec [], kvs_delete "ops" (kvs_delete "ops" xs)).
Proof.
  intros xs. split; [lia|]. split; [reflexivity|].
  apply (Size_without_len_key (ext := Demo.external) 20 TInt64 "ops"
           [VInt 1; VInt 2] xs); [lia|reflexivity].
Defined.

Lemma Size_above_bound_witness :
  let xs :=
    mkScan 0 {[ "ops.len" := mkLineval 4 " 3"; "ops[0]" := mkLineval 5 " 7";
                "ops[1]" := mkLineval 6 " 8"; "ops[2]" := mkLineval 7 " 9" ]}
      [] [] in
  xs_kvs xs !! ("ops" +:+ "." +:+ ps_len) = Some (mkLineval 4 " 3")
  ∧ Sscan_uint32 (sc := Demo.scalar_Z) (External := Demo.external) " 3" = Some 3
  ∧ 2 < 3
  ∧ xs_err (scan_Size (ext := Demo.external) "ops" 2 xs).2 =
      [(4%nat, "ops.len (3) exceeds maximum size 2.")]
  ∧ (scan_Marshal (ext := Demo.external) (TVec 2 TInt64) "ops" (VVec []) xs).1 =
      VVec [VInt 7; VInt 8].
Proof.
  intros xs. split; [reflexivity|]. split; [reflexivity|]. split; [lia|].
  destruct (Size_above_bound (ext := Demo.external) 2 TInt64 "ops" [] xs 4 " 3")
    as [Habove _]; [reflexivity|].
  destruct (Habove 3 eq_refl) as (_ & Herr & _); [lia|].
  split; [exact Herr|]. vm_compute. reflexivity.
Defined.

(** C2 (the claim as stated fails): the document asks for 4294967296
    elements where two are allowed. The number is above the bound, but it
    is no [uint32]: the sequence is emptied, not cut down to the bound,
    and no error is recorded. *)
Lemma Size_above_bound_counterexample :
  let xs :=
    mkScan 0 {[ "ops.len" := mkLineval 4 " 4294967296";
                "ops[0]" := mkLineval 5 " 7"; "ops[1]" := mkLineval 6 " 8" ]}
      [] [] in
  xs_kvs xs !! ("ops" +:+ "." +:+ ps_len) = Some (mkLineval 4 " 4294967296")
  ∧ Sscan_uint32 (sc := Demo.scalar_Z) (External := Demo.external)
      " 4294967296" = None
  ∧ (scan_Marshal (ext := Demo.external) (TVec 2 TInt64) "ops"
       (VVec [VInt 1]) xs).1 = VVec []
  ∧ xs_err (scan_Marshal (ext := Demo.external) (TVec 2 TInt64) "ops"
       (VVec [VInt 1]) xs).2 = [].
Proof.
  intros xs. split; [reflexivity|]. split; [reflexivity|].
  split; vm_compute; reflexivity.
Qed.

(** C5 (the claim as stated fails): the table holds the key ["memo"] alone;
    the [_present] key is missing and no key starts with ["memo."], yet the
    optional field ["memo"] is made present. *)
Lemma Optional_presence_counterexample :
  let xs := mkScan 1 {[ "memo" := mkLineval 1 " 5" ]} [] [] in
  xs_kvs xs !! ("memo" +:+ present 1) = None
  ∧ ¬ some_key_has_prefix "memo." xs
  ∧ (scan_present "memo" xs).1 = true.
Proof.
  intros xs. split; [reflexivity|]. split; [|reflexivity].
  intros (k & lv & Hk & Hp). subst xs. cbn [xs_kvs] in Hk.
  apply lookup_singleton_Some in Hk as [<- _].
  vm_compute in Hp. discriminate.
Qed.

Lemma Optional_presence_witness :
  let xs := mkScan 0 {[ "memo" := mkLineval 1 " 5" ]} [] [] in
  xs_kvs xs !! ("memo" +:+ present 1) = None
  ∧ (scan_present "memo" (set_ptrDepth 1 xs)).1 = true.
Proof.
  intros xs. split; [reflexivity|].
  destruct (Optional_presence (ext := Demo.external) TInt64 "memo" None xs)
    as (_ & Hnone & Habsent & _).
  exact (eq_trans (proj1 (Hnone (Habsent eq_refl))) eq_refl).
Defined.

(** The words of the [_present] key: blanks of any kind in front of
    ["false"] clear the field; ["maybe"] sets it and is reported; a value
    without a word is as good as no key. *)
Example Optional_presence_words :
  Scan.word (String "194" (String "160" "false")) = Some "false"
  ∧ scan_present "memo"
      (mkScan 1 {[ "memo._present" := mkLineval 3 (String "194" (String "160" "false")) ]}
         [] []) =
    (false,
     mkScan 1 {[ "memo._present" := mkLineval 3 (String "194" (String "160" "false")) ]}
       [] [])
  ∧ (scan_present "memo"
       (mkScan 1 {[ "memo._present" := mkLineval 3 " maybe" ]} [] [])).1 = true
  ∧ xs_err (scan_present "memo"
       (mkScan 1 {[ "memo._present" := mkLineval 3 " maybe" ]} [] [])).2 =
      [(3%nat, "memo._present (maybe) must be true or false")]
  ∧ scan_present "memo"
      (mkScan 1 {[ "memo._present" := mkLineval 3 " " ]} [] []) =
    (true, mkScan 1 {[ "memo._present" := mkLineval 3 " " ]} [] [])
  ∧ scan_present "memo"
      (mkScan 1 {[ "memo_present" := mkLineval 3 " " ]} [] []) =
    (false, mkScan 1 {[ "memo_present" := mkLineval 3 " " ]} [] []).
Proof. repeat split; vm_compute; reflexivity. Qed.

(** Two symbols, and a context whose help query always answers true. *)
Definition memo_names : gmap Z string :=
  {[ 0 := "MEMO_NONE"; 1 := "MEMO_TEXT" ]}.

Definition descending (m : gmap Z string) : list (Z * string) :=
  reverse (merge_sort ordinal_le (map_to_list m)).

Definition helping : txStringCtx :=
  mkCtx (mkAnnotations (λ _, "") (λ _, "") (λ _ _ _, "") (λ _, true) "")
    "native" "" 0 None [].

(** C7 (the claim as stated fails): the run time may range over the symbol
    table from the largest ordinal down; the help line then lists the
    symbols in that order, not by ascending ordinal. *)
Lemma Enum_help_counterexample :
  descending memo_names ≡ₚ map_to_list memo_names
  ∧ ascending memo_names = ["MEMO_NONE"; "MEMO_TEXT"]
  ∧ xp_out (str_Marshal (ext := Demo.external_ranging descending)
              (TEnum memo_names) "memo.type" (VInt 0) helping) =
      "memo.type: MEMO_NONE (MEMO_TEXT, MEMO_NONE)
"
  ∧ xp_out (str_Marshal (ext := Demo.external_ranging descending)
              (TEnum memo_names) "memo.type" (VInt 0) helping) ≠
      "memo.type: MEMO_NONE (" +:+ comma_separated (ascending memo_names) +:+ ")
".
Proof.
  split; [|split; [|split]].
  - unfold descending. rewrite reverse_Permutation. apply merge_sort_Permutation.
  - vm_compute. reflexivity.
  - vm_compute. reflexivity.
  - vm_compute. discriminate.
Qed.

Lemma Enum_help_witness :
  getHelp (xp_ann helping) "memo.type" = true
  ∧ map_range (External := Demo.external) memo_names ≡ₚ map_to_list memo_names
  ∧ xp_out (str_Marshal (ext := Demo.external) (TEnum memo_names) "memo.type"
              (VInt 1) helping) =
      "memo.type: MEMO_TEXT (" +:+
      comma_separated (map_range (External := Demo.external) memo_names).*2 +:+ ")
".
Proof.
  split; [reflexivity|]. split; [reflexivity|].
  destruct (Enum_help (ext := Demo.external) memo_names "memo.type" 1 helping)
    as [Hline _]; [reflexivity|reflexivity|].
  rewrite Hline. reflexivity.
Defined.

(** A text of four lines, the third of which has no colon. *)
Definition text_with_bad_line : string :=
"fee: 100
amount: 5 (0.0000005e7)
memo MEMO_NONE
seqNum: 7
".



(** The whole parser on that text: the error is reported and the three
    other fields are populated. *)
Example XdrFromTxrep_with_bad_line :
  XdrFromTxrep (ext := Demo.external) text_with_bad_line ""
    (TStruct [("fee", TLeaf Stringer 0); ("amount", TInt64);
              ("memo", TEnum memo_names); ("seqNum", TLeaf Stringer 0)])
    (VStruct [VScalar 0; VInt 0; VInt 0; VScalar 0]) =
  Some (VStruct [VScalar 100; VInt 5; VInt 0; VScalar 7],
        [(3%nat, "syntax error")], []).
Proof. vm_compute. reflexivity. Qed.

(** The parser on bytes that are no valid UTF-8: the second line holds
    the byte 0xFF and no colon. *)
Definition text_with_stray_byte : string :=
  "fee: 1" +:+ String "010" (String "m" (String "255" (String "010" "seqNum: 7"))).

Example XdrFromTxrep_with_stray_byte :
  Utf8.valid text_with_stray_byte = false
  ∧ text_lines text_with_stray_byte =
      ["fee: 1"; String "m" (String "239" (String "191" (String "189" "")));
       "seqNum: 7"]
  ∧ Line.XdrFromTxrep (ext := Demo.external) true text_with_stray_byte ""
      (TStruct [("fee", TLeaf Stringer 0); ("seqNum", TLeaf Stringer 0)])
      (VStruct [VScalar 0; VScalar 0]) =
    Some (VStruct [VScalar 1; VScalar 7], [(2%nat, "syntax error")], []).
Proof. repeat split; vm_compute; reflexivity. Qed.

(** A version-0 envelope reduced to the fields that matter here. *)
Definition envelope_names : gmap Z string :=
  {[ 0 := "ENVELOPE_TYPE_TX_V0"; 2 := "ENVELOPE_TYPE_TX" ]}.

Definition envelope_v0 {sc : Scalar} (z : scalar) : xtype :=
  TEnvelope envelope_names
    [(0, TStruct
           [("tx", TStruct [("sourceAccountEd25519", TArrayOpaque 32);
                            ("fee", TLeaf Stringer z)])])].

Definition key_A : list byte := replicate 32 "A"%char.

Definition text_shortened : string :=
"type: ENVELOPE_TYPE_TX_V0
tx.sourceAccount: G4141414141414141414141414141414141414141414141414141414141414141
tx.fee: 100
".

Definition text_legacy : string :=
"type: ENVELOPE_TYPE_TX_V0
tx.sourceAccountEd25519: 4141414141414141414141414141414141414141414141414141414141414141
tx.fee: 100
".

(** C4 (the claim as stated fails): the text with the shortened name
    yields the key, the text with the legacy name leaves the 32 bytes at
    zero. *)
Lemma sourceAccount_shim_counterexample :
  XdrFromTxrep (ext := Demo.external) text_shortened "" (envelope_v0 0)
    (zero_of (envelope_v0 0)) =
    Some (VUnion 0 (Some (VStruct [VStruct [VBytes key_A; VScalar 100]])), [], [])
  ∧ XdrFromTxrep (ext := Demo.external) text_legacy "" (envelope_v0 0)
      (zero_of (envelope_v0 0)) =
      Some (VUnion 0 (Some (VStruct [VStruct [VBytes (replicate 32 zero);
                                              VScalar 100]])), [], [])
  ∧ XdrFromTxrep (ext := Demo.external) text_shortened "" (envelope_v0 0)
      (zero_of (envelope_v0 0)) ≠
    XdrFromTxrep (ext := Demo.external) text_legacy "" (envelope_v0 0)
      (zero_of (envelope_v0 0))
  ∧ (XdrToTxrep (ext := Demo.external) no_annotations "" (envelope_v0 0)
       (VUnion 0 (Some (VStruct [VStruct [VBytes key_A; VScalar 100]])))).1 =
      text_shortened.
Proof.
  split; [vm_compute; reflexivity|]. split; [vm_compute; reflexivity|].
  split; [vm_compute; discriminate|]. vm_compute. reflexivity.
Qed.

Lemma sourceAccount_shim_witness :
  let xs :=
    mkScan 0
      {[ "tx.sourceAccount" :=
           mkLineval 2
             " G4141414141414141414141414141414141414141414141414141414141414141" ]}
      [] [] in
  length (replicate 32 zero : list byte) = 32%nat
  ∧ (scan_Marshal (ext := Demo.external) (TArrayOpaque 32)
       "tx.sourceAccountEd25519" (VBytes (replicate 32 zero)) xs).1 =
      VBytes key_A.
Proof.
  intros xs. split; [reflexivity|].
  destruct (sourceAccount_shim (ext := Demo.external) "" (replicate 32 zero) xs
              helping eq_refl) as (Hnew & _ & _).
  exact (proj1 (Hnew 2%nat
    " G4141414141414141414141414141414141414141414141414141414141414141"
    (mkPublicKey 0 key_A) eq_refl eq_refl eq_refl eq_refl)).
Defined.

(** A payment-like tree with every kind of node but the envelope. *)
Definition payment_type : xtype :=
  TStruct [("fee", TLeaf Stringer (0 : Z)); ("amount", TInt64);
           ("memo", TUnion "type" memo_names [(1, ("text", TLeaf Stringer (0 : Z)))]);
           ("dest", TPtr TAccountID);
           ("hash", TArrayOpaque 2);
           ("sigs", TVec 2 TDecoratedSignature);
           ("data", TVecOpaque)].

Definition payment : xval :=
  VStruct [VScalar (100 : Z); VInt (-12345678901);
           VUnion 1 (Some (VScalar (7 : Z)));
           VPtr (Some (VAccountID (mkPublicKey 0 key_A)));
           VBytes ["a"; "b"]%char;
           VVec [VSig (replicate 4 "a"%char) ["b"%char];
                 VSig (replicate 4 "c"%char) []];
           VBytes []].


(** The empty document leaves the payment as it is recorded nowhere: no
    error and no help request. *)
Lemma scan_Marshal_empty_table_witness :
  bounds_ok payment_type = true
  ∧ xs_kvs (mkScan 0 ∅ [] []) = ∅
  ∧ (scan_Marshal (ext := Demo.external) payment_type "" payment
       (mkScan 0 ∅ [] [])).2 = mkScan 0 ∅ [] []
  ∧ ∃ v', XdrFromTxrep (ext := Demo.external) "" "" payment_type payment
          = Some (v', [], []).
Proof.
  split; [reflexivity|]. split; [reflexivity|].
  exact (scan_Marshal_empty_table (ext := Demo.external) payment_type ""
           payment (mkScan 0 ∅ [] []) eq_refl eq_refl).
Defined.

(** A document that asks for five signatures where two are allowed. *)
Definition five_signatures : xdrScan :=
  mkScan 0 {[ "sigs.len" := mkLineval 1 " 5" ]} [] [].

Lemma scan_Marshal_within_witness :
  bounds_ok payment_type = true
  ∧ within payment_type
      (scan_Marshal (ext := Demo.external) payment_type "" payment
         five_signatures).1.
Proof.
  split; [reflexivity|].
  exact (scan_Marshal_within (ext := Demo.external) payment_type "" payment
           five_signatures eq_refl).
Defined.

(** An asset code with a blank, a backslash, a zero byte inside and two
    zero bytes at its end. *)
Definition odd_code : list byte := ["a"; " "; "\"; zero; "x"; zero; zero]%char.

Lemma scanCode_renderCode_witness :
  length (replicate 7 zero) = length odd_code
  ∧ Code.scanCode (replicate 7 zero) (runes (Code.renderCode odd_code))
    = (odd_code, None).
Proof.
  split; [reflexivity|].
  exact (scanCode_renderCode odd_code (replicate 7 zero) eq_refl).
Defined.

Example renderCode_odd_code : Code.renderCode odd_code = "a\x20\\\x00x".
Proof. vm_compute. reflexivity. Qed.

Lemma present_injective_witness :
  (1 <= 1)%nat ∧ (1 <= 2)%nat ∧ 1%nat ≠ 2%nat
  ∧ "memo" +:+ present 1 ≠ "memo" +:+ present 2.
Proof.
  split; [lia|]. split; [lia|]. split; [lia|].
  apply (present_injective "memo" 1 2); lia.
Defined.

(** Upper and lower case of the ASCII letters. *)
Definition ascii_ToUpper (r : rune) : rune :=
  if bool_decide (97 <= r <= 122) then r - 32 else r.

Definition ascii_ToLower (r : rune) : rune :=
  if bool_decide (65 <= r <= 90) then r + 32 else r.

Lemma camelize_words_witness :
  camelize ascii_ToUpper ascii_ToLower (runes "CREATE_ACCOUNT")
  = runes "CreateAccount".
Proof.
  assert (Forall (λ w : list rune, 95 ∉ w)
            [runes "CREATE"; runes "ACCOUNT"]) as Hw.
  { apply (bool_decide_unpack _). vm_compute. exact I. }
  exact (camelize_words ascii_ToUpper ascii_ToLower
           [runes "CREATE"; runes "ACCOUNT"] Hw).
Defined.

Lemma ScaleFmt_negated_witness :
  0 < 5000000 < 2 ^ 63 ∧ 0 <= 7 < 20
  ∧ ∃ s, ScaleFmt 5000000 7 = Some s ∧ ScaleFmt (-5000000) 7 = Some ("-" +:+ s).
Proof.
  split; [lia|]. split; [lia|].
  apply (ScaleFmt_negated 5000000 7); lia.
Defined.

(** A union whose discriminant has neither an arm nor a symbol is
    reported when it is the root, and forgotten inside an envelope. *)
Definition bad_memo_type {sc : Scalar} : xtype :=
  TUnion "type" memo_names [(1, ("text", TVecOpaque))].

Definition bad_memo {sc : Scalar} : xval := VUnion 99 None.

Example XdrToTxrep_bad_memo :
  (XdrToTxrep (ext := Demo.external) no_annotations "memo" bad_memo_type
     bad_memo).2 = [("memo", "invalid type")]
  ∧ (XdrToTxrep (ext := Demo.external) no_annotations ""
       (TEnvelope envelope_names [(0, TStruct [("memo", bad_memo_type)])])
       (VUnion 0 (Some (VStruct [bad_memo])))).2 = [].
Proof. split; vm_compute; reflexivity. Qed.

Example firstDifferentLine_ex :
  firstDifferentLine (Str.chars "a
b
c") (Str.chars "a
b
d") = Some 3
  ∧ firstDifferentLine (Str.chars "a
") (Str.chars "a
b") = Some 0
  ∧ firstDifferentLine (Str.chars "a
b") (Str.chars "a
") = Some 2.
Proof. repeat split; vm_compute; reflexivity. Qed.

(** A sequence at the root under the empty name: the generator writes its
    size under the key ["len"], the parser looks for [".len"], and the
    elements are not read back; under a name they are. *)
Example root_sequence :
  XdrToTxrep (ext := Demo.external) no_annotations "" (TVec 5 TInt64)
    (VVec [VInt 1; VInt 2])
  = ("len: 2
[0]: 1 (0.0000001e7)
[1]: 2 (0.0000002e7)
", [])
  ∧ XdrFromTxrep (ext := Demo.external) "len: 2
[0]: 1 (0.0000001e7)
[1]: 2 (0.0000002e7)
" "" (TVec 5 TInt64) (VVec []) = Some (VVec [], [], [])
  ∧ XdrFromTxrep (ext := Demo.external) "ops.len: 2
ops[0]: 1 (0.0000001e7)
ops[1]: 2 (0.0000002e7)
" "ops" (TVec 5 TInt64) (VVec []) = Some (VVec [VInt 1; VInt 2], [], []).
Proof. repeat split; vm_compute; reflexivity. Qed.
